(** * The Megatron-LM server client of lm-evaluation-harness

    A shallow embedding of [lm_eval/models/megatronlm.py]: the decoding of
    scoring responses ([get_result]), the truncation of scoring inputs, the
    grouping of generation requests ([sameuntil_chunks]), the decoding of
    generated text, the remote call ([megatron_query]) and its retry loop
    ([megatron_completion]), and the two orchestration paths
    ([_loglikelihood_tokens] and [greedy_until]).

    Python integers are [Z], Python lists are [list], a Python string is a
    list of characters, and a raised exception is the [Raise] branch of
    [result].  Floating-point numbers are kept abstract where only sums of
    them are formed (the log-probabilities) and are exact rationals where
    the code multiplies them (the back-off time). *)

From Stdlib Require Import ZArith QArith Qpower Ascii String.
From stdpp Require Import base tactics option list strings sorting.

Local Open Scope Z_scope.

(** * Part I: the program *)

(** ** Python primitives used by the client *)

Module Py.

(** The exceptions the modelled code can raise.  All of them derive from
    Python's [Exception]. *)
Inductive exn : Type :=
| IndexError
| ValueError
| KeyError
| ConnectionError
| JSONDecodeError
| OverflowError
| Exception.

(** [isinstance(e, Exception)], the test of an [except Exception] clause. *)
Definition is_Exception (e : exn) : bool :=
  match e with
  | IndexError | ValueError | KeyError
  | ConnectionError | JSONDecodeError | OverflowError | Exception => true
  end.

Inductive result (A : Type) : Type :=
| Ok (a : A)
| Raise (e : exn).
Global Arguments Ok {A} a.
Global Arguments Raise {A} e.

Definition bind {A B} (m : result A) (k : A → result B) : result B :=
  match m with
  | Ok a => k a
  | Raise e => Raise e
  end.

(** [len(l)] as a Python integer. *)
Definition len {A} (l : list A) : Z := Z.of_nat (length l).

(** [l[k:]]: a negative start counts from the end and is clamped at 0; a
    start past the end gives the empty list.  Slicing never raises. *)
Definition slice_from {A} (k : Z) (l : list A) : list A :=
  if k <? 0 then drop (Z.to_nat (Z.max 0 (len l + k))) l
  else drop (Z.to_nat k) l.

(** [l[i]]: a negative index counts from the end; out of range raises
    IndexError. *)
Definition index {A} (l : list A) (i : Z) : result A :=
  let j := if i <? 0 then len l + i else i in
  if j <? 0 then Raise IndexError
  else match l !! Z.to_nat j with
       | Some x => Ok x
       | None => Raise IndexError
       end.

(** [range(a, b)]. *)
Definition range (a b : Z) : list Z :=
  map (λ n : nat, a + Z.of_nat n) (seq 0 (Z.to_nat (b - a))).

(** [sum(l)]: the accumulator starts at zero and the entries are added
    from the left. *)
Definition sum {F} (zero : F) (add : F → F → F) (l : list F) : F :=
  fold_left add l zero.

(** The last [n] entries of [l] (all of [l] when it is shorter). *)
Definition lastn {A} (n : nat) (l : list A) : list A :=
  drop (length l - n) l.

(** [enumerate(l)]. *)
Definition enumerate {A} (l : list A) : list (nat * A) :=
  zip (seq 0 (length l)) l.

(** [l.sort(key=fn)]: a stable sort that compares keys with [<].  An
    element is inserted in front of the sorted rest and moves right past
    the entries whose key is strictly smaller. *)
Fixpoint insert_by {A K} (lt : K → K → bool) (fn : A → K) (x : A)
    (l : list A) : list A :=
  match l with
  | [] => [x]
  | y :: l' =>
      if lt (fn y) (fn x) then y :: insert_by lt fn x l' else x :: y :: l'
  end.

Fixpoint sort_by {A K} (lt : K → K → bool) (fn : A → K) (l : list A)
  : list A :=
  match l with
  | [] => []
  | x :: l' => insert_by lt fn x (sort_by lt fn l')
  end.

(** [<] on tuples of two components. *)
Definition pair_ltb {A B} (eqb_a : A → A → bool) (ltb_a : A → A → bool)
    (ltb_b : B → B → bool) (p q : A * B) : bool :=
  if eqb_a p.1 q.1 then ltb_b p.2 q.2 else ltb_a p.1 q.1.

(** [<] on sequences (tuples of integers, strings): lexicographic. *)
Fixpoint seq_ltb {A} (eqb : A → A → bool) (ltb : A → A → bool)
    (l1 l2 : list A) : bool :=
  match l1, l2 with
  | [], [] => false
  | [], _ :: _ => true
  | _ :: _, [] => false
  | x :: l1', y :: l2' => if eqb x y then seq_ltb eqb ltb l1' l2' else ltb x y
  end.

Section Strings.
Context {char : Type} `{EqDecision char}.

(** [s.startswith(prefix)]. *)
Fixpoint startswith (s prefix : list char) : bool :=
  match prefix, s with
  | [], _ => true
  | _ :: _, [] => false
  | p :: prefix', c :: s' => bool_decide (c = p) && startswith s' prefix'
  end.

(** [s.removeprefix(prefix)]. *)
Definition removeprefix (s prefix : list char) : list char :=
  if startswith s prefix then drop (length prefix) s else s.

(** [s.find(sub)]: the lowest index at which [sub] occurs in [s]. *)
Fixpoint find (s sub : list char) : option nat :=
  if startswith s sub then Some 0%nat
  else match s with
       | [] => None
       | _ :: s' => S <$> find s' sub
       end.

(** [s.split(sep)[0]]: the part of [s] before the first occurrence of
    [sep], all of [s] when there is none; an empty separator raises
    ValueError. *)
Definition split_first (s sep : list char) : result (list char) :=
  match sep with
  | [] => Raise ValueError
  | _ :: _ =>
      match find s sep with
      | Some i => Ok (take i s)
      | None => Ok s
      end
  end.

End Strings.

End Py.

(** [result] is a monad; stdpp's [x ← m; k] sequences calls that may
    raise. *)
Global Instance result_ret : MRet Py.result := @Py.Ok.
Global Instance result_bind : MBind Py.result :=
  λ A B k m, Py.bind m k.

(** ** [lm_eval/utils.py] *)

Module Utils.
Import Py.

Section Reorderer.
Context {A K : Type} (lt : K → K → bool).

(** Modelled from the spec: [utils.Reorderer], whose source is not part of
    the checked files.  Per the spec it is built from a sequence and a key
    function, keeps every element paired with its position in the caller's
    order, and holds them sorted by key with a stable sort. *)
Record Reorderer : Type := mkReorderer {
  size : nat;
  arr : list (nat * A)
}.

Definition new_Reorderer (requests : list A) (fn : A → K) : Reorderer :=
  {| size := length requests;
     arr := sort_by lt (λ x, fn x.2) (enumerate requests) |}.

(** Modelled from the spec: [Reorderer.get_reordered], the same elements
    sorted by key. *)
Definition get_reordered (r : Reorderer) : list A := (arr r).*2.

(** Modelled from the spec: [Reorderer.get_original], which takes results
    aligned with the reordered sequence and returns them realigned to the
    original order: the result aligned with a reordered element is stored
    at that element's original position.  A position that receives no
    result stays [None]. *)
Definition get_original {B} (r : Reorderer) (newarr : list B)
  : list (option B) :=
  foldl (λ res iv, <[iv.1 := Some iv.2]> res)
        (replicate (size r) None)
        (zip (arr r).*1 newarr).

End Reorderer.

(** Modelled from the spec: [utils.chunks], the default chunking policy:
    groups of [n] contiguous items, the last one holding the remainder. *)
Fixpoint chunks_loop {A} (n : Z) (xs : list A) (arr : list A)
  : list (list A) :=
  match xs with
  | [] => match arr with [] => [] | _ :: _ => [arr] end
  | x :: xs' =>
      let arr' := arr ++ [x] in
      if len arr' =? n then arr' :: chunks_loop n xs' []
      else chunks_loop n xs' arr'
  end.

Definition chunks {A} (xs : list A) (n : Z) : list (list A) :=
  chunks_loop n xs [].

End Utils.

(** ** [lm_eval/models/megatronlm.py] *)

Module MegatronLM.
Import Py Utils.

(** Vocabulary indices. *)
Definition token : Type := Z.

Section Scoring.
(** The numbers the server returns as log-probabilities, with the zero and
    the addition [sum] uses. *)
Context {F : Type} (fzero : F) (fadd : F → F → F).

(** The loop [for i in range(ctxlen, len(is_max_logprobs))] of
    [get_result], over the indices still to visit. *)
Fixpoint greedy_loop (is_max_logprobs : list bool) (idxs : list Z)
  : result bool :=
  match idxs with
  | [] => Ok true
  | i :: idxs' =>
      b ← index is_max_logprobs i;
      if negb b then Ok false else greedy_loop is_max_logprobs idxs'
  end.

Definition get_result (logprobs : list F) (is_max_logprobs : list bool)
    (ctxlen : Z) : result (F * bool) :=
  let first_continuation_logprob_index := ctxlen - 1 in
  let continuation_logprobs :=
    slice_from first_continuation_logprob_index logprobs in
  is_greedy ← greedy_loop is_max_logprobs
                (range ctxlen (len is_max_logprobs));
  Ok (sum fzero fadd continuation_logprobs, is_greedy).

End Scoring.

(** [sameuntil_chunks], the generator nested in [greedy_until]: the loop
    over [xs] with the group under construction [ret] and its attribute
    [lastuntil], returning the groups it yields in order. *)
Section SameUntil.
Context {C U : Type} `{EqDecision U}.

Fixpoint sameuntil_loop (size : Z) (xs : list (C * U)) (ret : list (C * U))
    (lastuntil : U) : list (list (C * U) * U) :=
  match xs with
  | [] => match ret with [] => [] | _ :: _ => [(ret, lastuntil)] end
  | x :: xs' =>
      if (size <=? len ret) || negb (bool_decide (x.2 = lastuntil))
      then (ret, lastuntil) :: sameuntil_loop size xs' [x] x.2
      else sameuntil_loop size xs' (ret ++ [x]) lastuntil
  end.

Definition sameuntil_chunks (xs : list (C * U)) (size : Z)
  : result (list (list (C * U) * U)) :=
  lastuntil ← (x0 ← index xs 0; Ok x0.2);
  Ok (sameuntil_loop size xs [] lastuntil).

End SameUntil.

(** The reply of the [/metadata] endpoint. *)
Record metadata : Type := {
  md_vocab_size : Z;
  md_eod_token_id : token;
  md_max_length : Z
}.

Section Client.
Context {char : Type} `{EqDecision char} (char_ltb : char → char → bool).
Context {F : Type} (fzero : F) (fadd : F → F → F).
Local Abbreviation str := (list char).

(** The client object, after [__init__] has run. *)
Record MegatronServerLM : Type := {
  model_name : str;
  _batch_size : Z;
  truncate : bool;
  vocab_size : Z;
  _eod_token_id : token;
  _max_length : Z
}.

Definition eot_token_id (self : MegatronServerLM) : token :=
  _eod_token_id self.
Definition max_length (self : MegatronServerLM) : Z := _max_length self.
Definition max_gen_toks (self : MegatronServerLM) : Z := 256.
Definition batch_size (self : MegatronServerLM) : Z := _batch_size self.

(** [__init__], given the reply [meglm_metadata] of the metadata query. *)
Definition init (meglm_metadata : metadata) (model_name : str)
    (batch_size : Z) (truncate : bool) : MegatronServerLM :=
  {| model_name := model_name;
     _batch_size := batch_size;
     truncate := truncate;
     vocab_size := md_vocab_size meglm_metadata;
     _eod_token_id := md_eod_token_id meglm_metadata;
     _max_length := md_max_length meglm_metadata - 256 |}.

(** *** Scoring inputs *)

(** A scoring request: [(cache_key, context_enc, continuation_enc)]. *)
Definition scoring_request : Type :=
  option (str * str) * list token * list token.

(** [inp] and [ctxlen] of the loop body of [_loglikelihood_tokens]. *)
Definition scoring_inp (self : MegatronServerLM)
    (context_enc continuation_enc : list token) : list token :=
  slice_from (- (max_length self + 1)) (context_enc ++ continuation_enc).

Definition scoring_ctxlen (self : MegatronServerLM)
    (context_enc continuation_enc : list token) : Z :=
  len context_enc
  - Z.max 0 (len context_enc + len continuation_enc - (max_length self + 1)).

(** [_collate] of [_loglikelihood_tokens], and [<] on its keys. *)
Definition loglikelihood_collate (x : scoring_request) : Z * list token :=
  let toks := x.1.2 ++ x.2 in
  (- len toks, toks).

Definition loglikelihood_key_ltb : Z * list token → Z * list token → bool :=
  pair_ltb Z.eqb Z.ltb (seq_ltb Z.eqb Z.ltb).

(** *** Generation requests *)

(** The value under ["until"]: one string or a list of strings. *)
Inductive until_value : Type :=
| UntilStr (s : str)
| UntilList (l : list str).

(** The dictionary [request_args]; ["until"] is the key the client reads. *)
Record request_args : Type := { until : until_value }.

Global Instance until_value_eq_dec : EqDecision until_value.
Proof. solve_decision. Defined.
Global Instance request_args_eq_dec : EqDecision request_args.
Proof. solve_decision. Defined.

(** A generation request: [(context, request_args)]. *)
Definition generation_request : Type := str * request_args.

(** [if isinstance(until, str): until = [until]]. *)
Definition until_list (u : until_value) : list str :=
  match u with
  | UntilStr s => [s]
  | UntilList l => l
  end.

(** The tokenizer endpoint: the token list it answers for one prompt. *)
Context (tokenizer : str → list token).

Definition tokenizer_query (prompts : list str) : list (list token) :=
  map tokenizer prompts.

(** [tok_encode(string) = tokenizer_query([string])[0]]; the query answers
    one token list per prompt, so the index is always in range. *)
Definition tok_encode (string : str) : list token :=
  match tokenizer_query [string] with
  | toks :: _ => toks
  | [] => []
  end.

(** [_collate] of [greedy_until], and [<] on its keys. *)
Definition greedy_until_collate (x : generation_request) : Z * str :=
  let toks := tok_encode x.1 in
  (len toks, x.1).

Definition greedy_until_key_ltb : Z * str → Z * str → bool :=
  pair_ltb Z.eqb Z.ltb (seq_ltb (λ a b, bool_decide (a = b)) char_ltb).

(** [inp] of the loop body of [greedy_until]. *)
Definition generation_inp (self : MegatronServerLM)
    (context_enc : list token) : list token :=
  slice_from (- (max_length self - max_gen_toks self)) context_enc.

(** [(primary_until,) = self.tok_encode(until[0])]: unpacking into a
    one-element tuple raises ValueError for any other length. *)
Definition unpack_single (toks : list token) : result token :=
  match toks with
  | [t] => Ok t
  | _ => Raise ValueError
  end.

Definition primary_until (until : list str) : result (option token) :=
  match until with
  | [] => Ok None
  | until0 :: _ => t ← unpack_single (tok_encode until0); Ok (Some t)
  end.

(** [for term in until: s = s.split(term)[0]]. *)
Fixpoint cut_stops (s : str) (until : list str) : result str :=
  match until with
  | [] => Ok s
  | term :: until' => s' ← split_first s term; cut_stops s' until'
  end.

(** The text kept for one generation item. *)
Definition decode_generation (text context : str) (until : list str)
  : result str :=
  cut_stops (removeprefix text context) until.

(** *** The completion endpoint *)

(** The keyword arguments of [megatron_query]. *)
Record query_args : Type := {
  qa_model_name : str;
  qa_prompts : list (list token);
  qa_max_tokens : Z;
  qa_temperature : Q;
  qa_logprobs : Z;
  qa_top_k : option Z;
  qa_stop_token : option token
}.

(** The JSON object [data] sent to [/api]; an absent key is [None]. *)
Record completion_data : Type := {
  d_model_name : str;
  d_prompts : list (list token);
  d_tokens_to_generate : Z;
  d_logprobs : bool;
  d_stop_token : token;
  d_top_k : option Z;
  d_temperature : option Q
}.

Definition query_data (self : MegatronServerLM) (a : query_args)
  : completion_data :=
  {| d_model_name := qa_model_name a;
     d_prompts := qa_prompts a;
     d_tokens_to_generate := qa_max_tokens a;
     d_logprobs := 0 <? qa_logprobs a;
     d_stop_token := match qa_stop_token a with
                     | Some t => t
                     | None => eot_token_id self
                     end;
     d_top_k := if Qeq_bool (qa_temperature a) 0 then Some 1
                else qa_top_k a;
     d_temperature := if Qeq_bool (qa_temperature a) 0 then None
                      else Some (qa_temperature a) |}.

(** The decoded mapping of a completion response; an absent key is
    [None]. *)
Record response_json : Type := {
  r_logprobs : option (list (list F));
  r_is_max_logprobs : option (list (list bool));
  r_text : option (list str)
}.

(** What [requests.put] gives back: no response at all, or a status code
    with a body that is not JSON, JSON of another type, or a mapping. *)
Inductive json_value : Type :=
| JsonMapping (r : response_json)
| JsonOther.

Inductive http_body : Type :=
| BodyNotJson
| BodyJson (j : json_value).

Inductive http_reply : Type :=
| ConnectionFailed
| HttpResponse (status_code : Z) (body : http_body).

(** The checks [megatron_query] makes on the reply, in order. *)
Definition check_reply (reply : http_reply) : result response_json :=
  match reply with
  | ConnectionFailed => Raise ConnectionError
  | HttpResponse status_code body =>
      if negb (status_code =? 200) then Raise Exception
      else match body with
           | BodyNotJson => Raise JSONDecodeError
           | BodyJson JsonOther => Raise Exception
           | BodyJson (JsonMapping r) => Ok r
           end
  end.

(** [response[key]]. *)
Definition getitem {A} (v : option A) : result A :=
  match v with
  | Some a => Ok a
  | None => Raise KeyError
  end.

(** *** Effects *)

(** What the client does to the outside world, in order: requests to the
    completion endpoint, sleeps, and writes to the partial cache. *)
Inductive event : Type :=
| EvApi (data : completion_data)
| EvSleep (seconds : Q)
| EvCacheLoglikelihood (cache_key : str * str) (answer : F * bool)
| EvCacheGreedyUntil (context : str) (until : list str) (s : str).

Record world : Type := {
  trace : list event;
  api_calls : nat
}.

(** A computation runs from a world to a world.  Its outcome is a value, a
    raised exception, or [None] when the retry loop was still running after
    the number of attempts the model follows. *)
Definition M (A : Type) : Type := world → option (result A) * world.

Definition M_ret {A} (a : A) : M A := λ w, (Some (Ok a), w).

Definition M_bind {A B} (k : A → M B) (m : M A) : M B :=
  λ w, match m w with
       | (Some (Ok a), w') => k a w'
       | (Some (Raise e), w') => (Some (Raise e), w')
       | (None, w') => (None, w')
       end.

Definition lift {A} (r : result A) : M A := λ w, (Some r, w).

Definition emit (e : event) : M unit :=
  λ w, (Some (Ok ()), {| trace := trace w ++ [e]; api_calls := api_calls w |}).

(** The completion endpoint: its reply to the [n]-th request it receives. *)
Context (api : nat → completion_data → http_reply).

Definition megatron_query (self : MegatronServerLM) (a : query_args)
  : M response_json :=
  λ w,
    let data := query_data self a in
    let response := api (api_calls w) data in
    (Some (check_reply response),
     {| trace := trace w ++ [EvApi data]; api_calls := S (api_calls w) |}).

(** The [while True] loop of [megatron_completion], followed for at most
    [fuel] attempts.  Here the back-off time is an exact rational and the
    sleep always returns; [Float64.megatron_completion_loop] below is the
    same loop with the back-off time as the binary64 number the interpreter
    holds and with the limit [time.sleep] puts on a duration. *)
Fixpoint megatron_completion_loop (fuel : nat) (self : MegatronServerLM)
    (a : query_args) (backoff_time : Q) : M response_json :=
  match fuel with
  | O => λ w, (None, w)
  | S fuel' =>
      λ w, match megatron_query self a w with
           | (Some (Ok r), w') => (Some (Ok r), w')
           | (Some (Raise e), w') =>
               if is_Exception e
               then M_bind (λ _, megatron_completion_loop fuel' self a
                                   (backoff_time * 1.5))
                           (emit (EvSleep backoff_time)) w'
               else (Some (Raise e), w')
           | (None, w') => (None, w')
           end
  end.

Definition megatron_completion (fuel : nat) (self : MegatronServerLM)
    (a : query_args) : M response_json :=
  megatron_completion_loop fuel self a 3.

Global Instance M_mret : MRet M := @M_ret.
Global Instance M_mbind : MBind M := @M_bind.

(** The [for] loop over the groups, each iteration appending its results
    to [res]. *)
Fixpoint for_chunks {X B} (body : X → M (list B)) (groups : list X)
  : M (list B) :=
  match groups with
  | [] => mret []
  | g :: groups' =>
      res ← body g;
      res' ← for_chunks body groups';
      mret (res ++ res')
  end.

(** *** [_loglikelihood_tokens] *)

(** The inner loop over
    [zip(response["logprobs"], response["is_max_logprobs"], ctxlens, chunk)],
    which stops with the shortest of the four lists. *)
Fixpoint score_items (logprobs : list (list F))
    (is_max_logprobs : list (list bool)) (ctxlens : list Z)
    (chunk : list scoring_request) : M (list (F * bool)) :=
  match logprobs, is_max_logprobs, ctxlens, chunk with
  | lp :: logprobs', im :: is_max_logprobs', ctxlen :: ctxlens',
    (cache_key, _, _) :: chunk' =>
      answer ← lift (get_result fzero fadd lp im ctxlen);
      _ ← match cache_key with
          | Some key => emit (EvCacheLoglikelihood key answer)
          | None => mret ()
          end;
      res ← score_items logprobs' is_max_logprobs' ctxlens' chunk';
      mret (answer :: res)
  | _, _, _, _ => mret []
  end.

(** One iteration of the loop over the chunks. *)
Definition loglikelihood_chunk (fuel : nat) (self : MegatronServerLM)
    (chunk : list scoring_request) : M (list (F * bool)) :=
  let inps := map (λ x, scoring_inp self x.1.2 x.2) chunk in
  let ctxlens := map (λ x, scoring_ctxlen self x.1.2 x.2) chunk in
  response ← megatron_completion fuel self
    {| qa_model_name := model_name self;
       qa_prompts := inps;
       qa_max_tokens := 0;
       qa_temperature := 0;
       qa_logprobs := 10;
       qa_top_k := None;
       qa_stop_token := None |};
  logprobs ← lift (getitem (r_logprobs response));
  is_max_logprobs ← lift (getitem (r_is_max_logprobs response));
  score_items logprobs is_max_logprobs ctxlens chunk.

Definition _loglikelihood_tokens (fuel : nat) (self : MegatronServerLM)
    (requests : list scoring_request) : M (list (option (F * bool))) :=
  let re_ord :=
    new_Reorderer loglikelihood_key_ltb requests loglikelihood_collate in
  res ← for_chunks (loglikelihood_chunk fuel self)
        (chunks (get_reordered re_ord) (batch_size self));
  mret (get_original re_ord res).

(** *** [loglikelihood] *)

Definition tok_encode_batch (string_batch : list str) : list (list token) :=
  tokenizer_query string_batch.

(** The list [new_reqs] that [loglikelihood] builds from the
    [(context, continuation)] pairs: the loop over
    [zip(contexts_enc, continuations_enc, requests)]. *)
Definition loglikelihood_new_reqs (self : MegatronServerLM)
    (requests : list (str * str)) : list scoring_request :=
  let contexts := requests.*1 in
  let continuations := requests.*2 in
  let contexts_enc := tok_encode_batch contexts in
  let continuations_enc := tok_encode_batch continuations in
  map (λ item,
         let context_enc := item.1.1 in
         let continuation_enc := item.1.2 in
         let request := item.2 in
         let context_enc :=
           if len context_enc =? 0 then [eot_token_id self] else context_enc in
         (Some request, context_enc, continuation_enc))
      (zip (zip contexts_enc continuations_enc) requests).

Definition loglikelihood (fuel : nat) (self : MegatronServerLM)
    (requests : list (str * str)) : M (list (option (F * bool))) :=
  _loglikelihood_tokens fuel self (loglikelihood_new_reqs self requests).

(** *** [greedy_until] *)

(** The inner loop over [zip(response["text"], chunk)]. *)
Fixpoint decode_items (texts : list str) (chunk : list generation_request)
    (until : list str) : M (list str) :=
  match texts, chunk with
  | text :: texts', (context, _) :: chunk' =>
      s ← lift (decode_generation text context until);
      _ ← emit (EvCacheGreedyUntil context until s);
      res ← decode_items texts' chunk' until;
      mret (s :: res)
  | _, _ => mret []
  end.

(** One iteration of the loop over the groups of [sameuntil_chunks]. *)
Definition greedy_until_chunk (fuel : nat) (self : MegatronServerLM)
    (group : list generation_request * request_args) : M (list str) :=
  let chunk := group.1 in
  let request_args := group.2 in
  let until := until request_args in
  let inps := map (λ x, generation_inp self (tok_encode x.1)) chunk in
  let until := until_list until in
  primary_until ← lift (primary_until until);
  response ← megatron_completion fuel self
    {| qa_model_name := model_name self;
       qa_prompts := inps;
       qa_max_tokens := max_gen_toks self;
       qa_temperature := 0;
       qa_logprobs := 0;
       qa_top_k := None;
       qa_stop_token := primary_until |};
  texts ← lift (getitem (r_text response));
  decode_items texts chunk until.

Definition greedy_until (fuel : nat) (self : MegatronServerLM)
    (requests : list generation_request) : M (list (option str)) :=
  match requests with
  | [] => mret []
  | _ :: _ =>
      let re_ord :=
        new_Reorderer greedy_until_key_ltb requests greedy_until_collate in
      groups ← lift (sameuntil_chunks (get_reordered re_ord)
                       (batch_size self));
      res ← for_chunks (greedy_until_chunk fuel self) groups;
      mret (get_original re_ord res)
  end.

End Client.

End MegatronLM.

(** ** The retry wrapper in the interpreter's arithmetic *)

Module Float64.
Import Py MegatronLM.

(** The integer nearest to [n / d], for [d > 0]; a tie goes to the even
    one. *)
Definition round_half_even (n d : Z) : Z :=
  let q := n / d in
  let r := n mod d in
  if 2 * r <? d then q
  else if d <? 2 * r then q + 1
  else if Z.even q then q else q + 1.

(** [floor(log2(n / d))], for positive [n] and [d]. *)
Definition floor_log2 (n d : Z) : Z :=
  let e := Z.log2 n - Z.log2 d in
  if n * 2 ^ Z.max 0 (- e) <? d * 2 ^ Z.max 0 e then e - 1 else e.

(** The binary64 number nearest to a positive rational [x]: a mantissa of
    53 bits, rounded half to even.  The exponent is not bounded: the
    numbers of the client stay far inside the range of the format. *)
Definition binary64 (x : Q) : Q :=
  let n := Qnum x in
  let d := Zpos (Qden x) in
  let e := floor_log2 n d - 52 in
  let m := round_half_even (n * 2 ^ Z.max 0 (- e)) (d * 2 ^ Z.max 0 e) in
  Qred (inject_Z m * 2 ^ e)%Q.

(** [x * y] on floats. *)
Definition float_mul (x y : Q) : Q := binary64 (x * y).

Section Wrapper.
Context {char F : Type}.
Context (api : nat → @completion_data char → @http_reply char F).

(** [time.sleep(seconds)].  The duration is converted to a signed 64-bit
    number of nanoseconds first: one that does not fit raises
    OverflowError; a negative one raises ValueError. *)
Definition time_sleep (seconds : Q) : @M char F unit :=
  λ w,
    if Qle_bool (2 ^ 63) (seconds * 1000000000) then
      (Some (Raise OverflowError), w)
    else if negb (Qle_bool 0 seconds) then (Some (Raise ValueError), w)
    else emit (EvSleep seconds) w.

(** The [while True] loop of [megatron_completion], followed for at most
    [fuel] attempts.  [time.sleep] is called in the [except] block, outside
    the [try]: what it raises goes to the caller. *)
Fixpoint megatron_completion_loop (fuel : nat) (self : @MegatronServerLM char)
    (a : @query_args char) (backoff_time : Q) : @M char F response_json :=
  match fuel with
  | O => λ w, (None, w)
  | S fuel' =>
      λ w, match megatron_query api self a w with
           | (Some (Ok r), w') => (Some (Ok r), w')
           | (Some (Raise e), w') =>
               if is_Exception e
               then M_bind (λ _, megatron_completion_loop fuel' self a
                                   (float_mul backoff_time 1.5))
                           (time_sleep backoff_time) w'
               else (Some (Raise e), w')
           | (None, w') => (None, w')
           end
  end.

Definition megatron_completion (fuel : nat) (self : @MegatronServerLM char)
    (a : @query_args char) : @M char F response_json :=
  megatron_completion_loop fuel self a 3.

End Wrapper.

End Float64.

(** * Part II: vocabulary of the properties *)

Import Py Utils MegatronLM.

(** Between two consecutive groups a boundary was forced: the earlier group
    had reached the size limit or the attribute changed. *)
Fixpoint boundaries_forced {C U} (size : Z) (groups : list (list (C * U) * U))
  : Prop :=
  match groups with
  | g1 :: ((g2 :: _) as groups') =>
      (size ≤ len g1.1 ∨ g1.2 ≠ g2.2) ∧ boundaries_forced size groups'
  | _ => True
  end.

(** [sub] occurs in [s] at index [i]. *)
Definition occurs_at {char} (sub s : list char) (i : nat) : Prop :=
  sub `prefix_of` drop i s.

(** One step of the loop over the stop sequences, for a non-empty
    sequence: [s.split(term)[0]]. *)
Definition cut {char} `{EqDecision char} (s term : list char) : list char :=
  match find s term with
  | Some i => take i s
  | None => s
  end.

(** The smaller of two indices that may be absent. *)
Definition min_index (a b : option nat) : option nat :=
  match a, b with
  | Some i, Some j => Some (Nat.min i j)
  | Some i, None => Some i
  | None, _ => b
  end.

(** The lowest index at which any of the stop sequences occurs in [s]. *)
Fixpoint earliest_stop {char} `{EqDecision char} (s : list char)
    (until : list (list char)) : option nat :=
  match until with
  | [] => None
  | term :: until' => min_index (find s term) (earliest_stop s until')
  end.

(** [s] cut at the earliest occurrence of any stop sequence. *)
Definition cut_at_earliest {char} `{EqDecision char} (s : list char)
    (until : list (list char)) : list char :=
  match earliest_stop s until with
  | Some i => take i s
  | None => s
  end.

(** The back-off time after [k] failed attempts. *)
Definition backoff_after (k : nat) : Q := Nat.iter k (λ b, (b * 1.5)%Q) 3%Q.

(** The sleeps recorded in a trace, in order. *)
Definition sleeps {char F} (evs : list (@event char F)) : list Q :=
  omap (λ ev, match ev with EvSleep t => Some t | _ => None end) evs.

(** The requests to the completion endpoint recorded in a trace, in
    order. *)
Definition api_requests {char F} (evs : list (@event char F))
  : list (@completion_data char) :=
  omap (λ ev, match ev with EvApi d => Some d | _ => None end) evs.

(** The trace of [n] failed attempts, each followed by a sleep, and a last
    attempt, starting from the back-off time [backoff_time]. *)
Fixpoint retry_trace {char F} (data : @completion_data char)
    (backoff_time : Q) (n : nat) : list (@event char F) :=
  match n with
  | O => [EvApi data]
  | S n' =>
      EvApi data :: EvSleep backoff_time
        :: retry_trace data (backoff_time * 1.5)%Q n'
  end.

(** The JSON object sent for a generation group whose first stop sequence
    encodes to the single token [t]. *)
Definition generation_data {char} (tokenizer : list char → list token)
    (self : @MegatronServerLM char) (chunk : list (@generation_request char))
    (t : token) : @completion_data char :=
  {| d_model_name := model_name self;
     d_prompts := map (λ x, generation_inp self (tok_encode tokenizer x.1))
                      chunk;
     d_tokens_to_generate := 256;
     d_logprobs := false;
     d_stop_token := t;
     d_top_k := Some 1;
     d_temperature := None |}.

(** The completion endpoint answers every request, possibly after fewer
    than [fuel] failed attempts, with the mapping [answer data]. *)
Definition responds {char F}
    (api : nat → @completion_data char → @http_reply char F) (fuel : nat)
    (answer : @completion_data char → @response_json char F) : Prop :=
  ∀ (n : nat) data,
    ∃ k : nat, (k < fuel)%nat
      ∧ (∀ i : nat, (i < k)%nat →
           ∃ e, check_reply (api (n + i)%nat data) = Raise e)
      ∧ check_reply (api (n + k)%nat data) = Ok (answer data).

(** What the client computes for one scoring request when the server
    answers the prompt [p] with the log-probabilities [lp p] and the flags
    [im p]. *)
Definition expected_score {char F} (fzero : F) (fadd : F → F → F)
    (lp : list token → list F) (im : list token → list bool)
    (self : @MegatronServerLM char) (x : @scoring_request char)
  : result (F * bool) :=
  let inp := scoring_inp self x.1.2 x.2 in
  get_result fzero fadd (lp inp) (im inp) (scoring_ctxlen self x.1.2 x.2).

(** What the client computes for one generation request when the server
    answers the prompt [p], under the stop token [t], with the text
    [gen t p]. *)
Definition expected_generation {char} `{EqDecision char}
    (tokenizer : list char → list token)
    (gen : token → list token → list char)
    (self : @MegatronServerLM char) (x : @generation_request char)
  : result (list char) :=
  let until := until_list (until x.2) in
  stop ← primary_until tokenizer until;
  let t := match stop with Some t => t | None => eot_token_id self end in
  decode_generation
    (gen t (generation_inp self (tok_encode tokenizer x.1))) x.1 until.

(** The sum of a list of durations. *)
Definition total (l : list Q) : Q := foldr Qplus 0%Q l.

(** The computation [m] only appends to the trace, and every event it
    appends satisfies [P]. *)
Definition emits {char F A} (P : @event char F → Prop) (m : @M char F A)
  : Prop :=
  ∀ w, ∃ evs, trace (m w).2 = trace w ++ evs ∧ Forall P evs.

(** What every request of the scoring path looks like. *)
Definition scoring_event {char F} (self : @MegatronServerLM char)
    (ev : @event char F) : Prop :=
  match ev with
  | EvApi d =>
      d_model_name d = model_name self
      ∧ d_tokens_to_generate d = 0
      ∧ d_logprobs d = true
      ∧ d_stop_token d = eot_token_id self
      ∧ d_top_k d = Some 1
      ∧ d_temperature d = None
      ∧ d_prompts d ≠ []
      ∧ Forall (λ p, len p ≤ max_length self + 1) (d_prompts d)
  | _ => True
  end.

(** What every request of the generation path looks like. *)
Definition generation_event {char F} (self : @MegatronServerLM char)
    (ev : @event char F) : Prop :=
  match ev with
  | EvApi d =>
      d_model_name d = model_name self
      ∧ d_tokens_to_generate d = 256
      ∧ d_logprobs d = false
      ∧ d_top_k d = Some 1
      ∧ d_temperature d = None
      ∧ Forall (λ p, len p ≤ max_length self - 256) (d_prompts d)
  | _ => True
  end.

(** The writes to the partial cache recorded in a trace, in order, on each
    of the two paths. *)
Definition loglikelihood_cache_write {char F} (ev : @event char F)
  : option ((list char * list char) * (F * bool)) :=
  match ev with
  | EvCacheLoglikelihood cache_key answer => Some (cache_key, answer)
  | _ => None
  end.

Definition greedy_until_cache_write {char F} (ev : @event char F)
  : option (list char * list (list char) * list char) :=
  match ev with
  | EvCacheGreedyUntil context until s => Some (context, until, s)
  | _ => None
  end.

(** From every world the computation [m] returns [a], appending to the
    trace events whose image under [f] is [c]. *)
Definition returns_with {char F A X} (f : @event char F → option X)
    (m : @M char F A) (a : A) (c : list X) : Prop :=
  ∀ w, ∃ w' evs,
    m w = (Some (Ok a), w') ∧ trace w' = trace w ++ evs ∧ omap f evs = c.

(** The cache write of one scoring request: its key, when it has one, with
    the answer [ans x] computed for it. *)
Definition scoring_cache_entry {char F}
    (ans : @scoring_request char → F * bool) (x : @scoring_request char)
  : option ((list char * list char) * (F * bool)) :=
  (λ key, (key, ans x)) <$> x.1.1.

(** The cache write of one generation request: its context, its list of
    stop sequences and the text [out x] kept for it. *)
Definition generation_cache_entry {char}
    (out : @generation_request char → list char)
    (x : @generation_request char)
  : list char * list (list char) * list char :=
  (x.1, until_list (until x.2), out x).

(** The scoring request [loglikelihood] builds for one
    [(context, continuation)] pair. *)
Definition scoring_request_of {char} (tokenizer : list char → list token)
    (self : @MegatronServerLM char) (request : list char * list char)
  : @scoring_request char :=
  (Some request,
   if len (tokenizer request.1) =? 0 then [eot_token_id self]
   else tokenizer request.1,
   tokenizer request.2).

(** The first stop sequence of the request arguments does not encode to
    exactly one token. *)
Definition bad_first_stop {char} (tokenizer : list char → list token)
    (args : @request_args char) : Prop :=
  ∃ until0 rest,
    until_list (until args) = until0 :: rest
    ∧ length (tok_encode tokenizer until0) ≠ 1%nat.

(** A request to the completion endpoint carries at least one prompt and at
    most [batch_size] prompts. *)
Definition batch_event {char F} (self : @MegatronServerLM char)
    (ev : @event char F) : Prop :=
  match ev with
  | EvApi d => 1 ≤ len (d_prompts d) ≤ batch_size self
  | _ => True
  end.

(** The body of the request [_loglikelihood_tokens] sends for one chunk. *)
Definition scoring_data {char} (self : @MegatronServerLM char)
    (chunk : list (@scoring_request char)) : @completion_data char :=
  {| d_model_name := model_name self;
     d_prompts := map (λ x, scoring_inp self x.1.2 x.2) chunk;
     d_tokens_to_generate := 0;
     d_logprobs := true;
     d_stop_token := eot_token_id self;
     d_top_k := Some 1;
     d_temperature := None |}.

(** The state of the world after one more request to the completion
    endpoint and nothing else. *)
Definition after_one_request {char F} (data : @completion_data char)
    (w : @world char F) : @world char F :=
  {| trace := trace w ++ [EvApi data]; api_calls := S (api_calls w) |}.

(** The back-off time the interpreter holds after [k] failed attempts: the
    product is rounded to a binary64 number at every step. *)
Definition float_backoff (k : nat) : Q :=
  Nat.iter k (λ b, Float64.float_mul b 1.5) 3%Q.

(** [time.sleep] accepts the duration: it is not negative and, counted in
    nanoseconds, it is below [2^63]. *)
Definition sleepable (seconds : Q) : bool :=
  negb (Qle_bool (2 ^ 63) (seconds * 1000000000)) && Qle_bool 0 seconds.

(** The trace of [n] failed attempts, each followed by a sleep, in the
    interpreter's arithmetic, starting from the back-off time
    [backoff_time]. *)
Fixpoint float_failed_trace {char F} (data : @completion_data char)
    (backoff_time : Q) (n : nat) : list (@event char F) :=
  match n with
  | O => []
  | S n' =>
      EvApi data :: EvSleep backoff_time
        :: float_failed_trace data (Float64.float_mul backoff_time 1.5) n'
  end.

(** ** Example data *)

(** A client whose server reports a window of [max_length] tokens. *)
Definition example_client (max_length : Z) : @MegatronServerLM ascii :=
  init {| md_vocab_size := 50257; md_eod_token_id := 0;
          md_max_length := max_length |}
       (list_ascii_of_string "model") 20 false.

(** A tokenizer for examples: one token per character. *)
Definition char_tokenizer (s : list ascii) : list token :=
  map (λ c, Z.of_nat (nat_of_ascii c)) s.

(** A generation request for examples: a prompt and one stop sequence. *)
Definition example_request (context stop : string)
  : @generation_request ascii :=
  (list_ascii_of_string context,
   {| until := UntilList [list_ascii_of_string stop] |}).

(** The [request_args] of such a request. *)
Definition stop_args (stop : string) : @request_args ascii :=
  {| until := UntilList [list_ascii_of_string stop] |}.

(** A server for examples: its first [failures] replies are the given
    ones, every later reply is status 200 with the mapping [r]. *)
Definition flaky_api {char F} (failures : list (@http_reply char F))
    (r : @response_json char F)
  : nat → @completion_data char → @http_reply char F :=
  λ n _, match failures !! n with
         | Some reply => reply
         | None => HttpResponse 200 (BodyJson (JsonMapping r))
         end.

Definition example_response : @response_json ascii Z :=
  {| r_logprobs := Some [[-1; -2]];
     r_is_max_logprobs := Some [[true; true]];
     r_text := Some [list_ascii_of_string "ab"] |}.

Definition example_args : @query_args ascii :=
  {| qa_model_name := list_ascii_of_string "model";
     qa_prompts := [[1; 2]];
     qa_max_tokens := 0;
     qa_temperature := 0;
     qa_logprobs := 10;
     qa_top_k := None;
     qa_stop_token := None |}.

Definition empty_world : @world ascii Z := {| trace := []; api_calls := 0 |}.

(** A server for examples.  For a prompt it reports, for every token but
    the first, minus the token as log-probability; it echoes the prompt and
    generates ["xy."]; and it is busy at every other request. *)
Definition example_lp (p : list token) : list Z := map Z.opp (tail p).

Definition example_im (p : list token) : list bool := map (λ _, true) p.

Definition example_gen (t : token) (p : list token) : list ascii :=
  map (λ c, ascii_of_nat (Z.to_nat c)) p ++ list_ascii_of_string "xy.".

Definition example_answer (data : @completion_data ascii)
  : @response_json ascii Z :=
  {| r_logprobs := Some (example_lp <$> d_prompts data);
     r_is_max_logprobs := Some (example_im <$> d_prompts data);
     r_text := Some (example_gen (d_stop_token data) <$> d_prompts data) |}.

Definition busy_api (n : nat) (data : @completion_data ascii)
  : @http_reply ascii Z :=
  if Nat.even n then HttpResponse 503 BodyNotJson
  else HttpResponse 200 (BodyJson (JsonMapping (example_answer data))).

Definition example_scoring_requests : list (@scoring_request ascii) :=
  [(None, [1], [3; 4]);
   (Some (list_ascii_of_string "Tag", list_ascii_of_string " zusammen"),
    [5], [6; 7; 8])].

(** A server for examples that answers with status 200 and an empty
    mapping. *)
Definition keyless_api (n : nat) (data : @completion_data ascii)
  : @http_reply ascii Z :=
  HttpResponse 200
    (BodyJson (JsonMapping {| r_logprobs := None;
                              r_is_max_logprobs := None;
                              r_text := None |})).

(** * Part III: properties *)



Example get_result_ex1 :
  get_result 0 Z.add [1; 2; 3] [true; true; true] 2 = Ok (5, true).
Proof. reflexivity. Qed.

Example get_result_ex2 :
  get_result 0 Z.add [1; 2; 3] [false; true; false] (-1) = Ok (5, false).
Proof. reflexivity. Qed.

Example get_result_ex3 :
  get_result 0 Z.add [1; 2; 3] [false; true] (-3) = Raise IndexError.
Proof. reflexivity. Qed.

(** ** The exception monad *)

Lemma bind_Ok {A B} (a : A) (k : A → result B) : (Ok a ≫= k) = k a.
Proof. reflexivity. Qed.

Lemma bind_Raise {A B} (e : exn) (k : A → result B) :
  (Raise e ≫= k) = Raise e.
Proof. reflexivity. Qed.

Lemma bind_Ok_inv {A B} (m : result A) (k : A → result B) (b : B) :
  (m ≫= k) = Ok b → ∃ a, m = Ok a ∧ k a = Ok b.
Proof. destruct m as [a|e]; [eauto|discriminate]. Qed.

(** ** Python list primitives *)

Section PyFacts.
Context {A : Type}.
Implicit Types l : list A.

Lemma index_nonneg l (i : Z) :
  0 ≤ i →
  index l i
  = match l !! Z.to_nat i with Some x => Ok x | None => Raise IndexError end.
Proof.
  intros Hi. unfold index.
  destruct (i <? 0) eqn:E; [apply Z.ltb_lt in E; lia|].
  destruct (i <? 0) eqn:E'; [congruence|done].
Qed.

Lemma index_neg l (i : Z) :
  - len l ≤ i < 0 →
  index l i
  = match l !! Z.to_nat (len l + i) with
    | Some x => Ok x
    | None => Raise IndexError
    end.
Proof.
  intros Hi. unfold index.
  destruct (i <? 0) eqn:E; [|apply Z.ltb_ge in E; lia].
  destruct (len l + i <? 0) eqn:E'; [apply Z.ltb_lt in E'; lia|done].
Qed.

Lemma index_too_small l (i : Z) : i < - len l → index l i = Raise IndexError.
Proof.
  intros Hi. unfold index, len in *.
  destruct (i <? 0) eqn:E; [|apply Z.ltb_ge in E; lia].
  destruct (_ + i <? 0) eqn:E'; [done|apply Z.ltb_ge in E'; lia].
Qed.

(** In range, indexing returns an entry of the list. *)
Lemma index_in_range l (i : Z) :
  - len l ≤ i < len l → ∃ x, index l i = Ok x.
Proof.
  intros Hi. unfold len in *. destruct (Z.lt_ge_cases i 0) as [Hn|Hn].
  - rewrite index_neg by (unfold len; lia).
    destruct (lookup_lt_is_Some_2 l (Z.to_nat (len l + i))) as [x ->];
      [unfold len; lia|eauto].
  - rewrite index_nonneg by done.
    destruct (lookup_lt_is_Some_2 l (Z.to_nat i)) as [x ->]; [lia|eauto].
Qed.

Lemma elem_of_range (a b i : Z) : i ∈ range a b ↔ a ≤ i < b.
Proof.
  unfold range. rewrite list_elem_of_fmap. split.
  - intros (n & -> & Hn). apply elem_of_seq in Hn. lia.
  - intros Hi. exists (Z.to_nat (i - a)). split; [lia|].
    apply elem_of_seq. lia.
Qed.

Lemma range_cons (a b : Z) : a < b → range a b = a :: range (a + 1) b.
Proof.
  intros Hab. unfold range.
  replace (Z.to_nat (b - a)) with (S (Z.to_nat (b - (a + 1)))) by lia.
  cbn [seq map]. f_equal; [lia|].
  rewrite <- seq_shift, map_map. apply map_ext. intros n. lia.
Qed.

Lemma slice_from_nonneg (k : Z) l :
  0 ≤ k → slice_from k l = drop (Z.to_nat k) l.
Proof.
  intros Hk. unfold slice_from.
  destruct (k <? 0) eqn:E; [apply Z.ltb_lt in E; lia|done].
Qed.

Lemma slice_from_neg (k : Z) l :
  k < 0 → slice_from k l = lastn (Z.to_nat (- k)) l.
Proof.
  intros Hk. unfold slice_from, lastn, len.
  destruct (k <? 0) eqn:E; [|apply Z.ltb_ge in E; lia].
  f_equal. lia.
Qed.

Lemma lastn_length (n : nat) l : length (lastn n l) = Nat.min n (length l).
Proof. unfold lastn. rewrite length_drop. lia. Qed.

Lemma lastn_app_exact l1 l2 : lastn (length l2) (l1 ++ l2) = l2.
Proof.
  unfold lastn. rewrite length_app.
  replace (length l1 + length l2 - length l2)%nat with (length l1) by lia.
  by rewrite drop_app_length.
Qed.

Lemma lastn_all (n : nat) l : (length l ≤ n)%nat → lastn n l = l.
Proof.
  intros Hn. unfold lastn.
  replace (length l - n)%nat with 0%nat by lia. done.
Qed.
End PyFacts.

(** ** Decoding a scoring response: [get_result] *)

Section GetResult.
Context {F : Type} (fzero : F) (fadd : F → F → F).
Implicit Types (logprobs : list F) (is_max : list bool).

(** When every visited index is in range the loop returns, and it returns
    [True] exactly when every visited entry is [True]. *)
Lemma greedy_loop_in_range is_max (idxs : list Z) :
  (∀ i, i ∈ idxs → - len is_max ≤ i < len is_max) →
  ∃ g, greedy_loop is_max idxs = Ok g ∧
       (g = true ↔ ∀ i, i ∈ idxs → index is_max i = Ok true).
Proof.
  induction idxs as [|i idxs IH]; intros Hr.
  - exists true. split; [done|]. split; [|done]. intros _ i Hi. inversion Hi.
  - destruct (index_in_range is_max i) as [b Hb]; [apply Hr; left|].
    destruct IH as (g & Hg & Hiff); [intros j Hj; apply Hr; by right|].
    cbn [greedy_loop]. rewrite Hb. cbn. destruct b; cbn.
    + exists g. split; [done|]. rewrite Hiff. split.
      * intros H j Hj. apply elem_of_cons in Hj as [->|Hj]; auto.
      * intros H j Hj. apply H. by right.
    + exists false. split; [done|]. split; [done|].
      intros H. specialize (H i ltac:(left)). congruence.
Qed.

(** The loop raises as soon as the first visited index is below
    [-len(is_max_logprobs)]. *)
Lemma greedy_loop_raises is_max (i : Z) (idxs : list Z) :
  i < - len is_max → greedy_loop is_max (i :: idxs) = Raise IndexError.
Proof. intros Hi. cbn [greedy_loop]. by rewrite index_too_small. Qed.

(** What the flag of [get_result] is, for every [ctxlen] at which
    indexing stays in range. *)
Lemma get_result_returns logprobs is_max (ctxlen : Z) :
  - len is_max ≤ ctxlen →
  ∃ g, get_result fzero fadd logprobs is_max ctxlen
         = Ok (sum fzero fadd (slice_from (ctxlen - 1) logprobs), g) ∧
       (g = true ↔
        ∀ n : nat, ctxlen ≤ Z.of_nat n → (n < length is_max)%nat →
                   is_max !! n = Some true).
Proof.
  intros Hc. unfold get_result.
  destruct (greedy_loop_in_range is_max (range ctxlen (len is_max)))
    as (g & Hg & Hiff).
  { intros i Hi. apply elem_of_range in Hi. lia. }
  exists g. rewrite Hg. split; [done|]. rewrite Hiff. split.
  - intros H n Hn Hlt.
    specialize (H (Z.of_nat n)). rewrite elem_of_range in H.
    specialize (H ltac:(unfold len; lia)).
    rewrite index_nonneg in H by lia. rewrite Nat2Z.id in H.
    destruct (is_max !! n) as [b|]; congruence.
  - intros H i Hi. apply elem_of_range in Hi. unfold len in Hi, Hc.
    destruct (Z.lt_ge_cases i 0) as [Hneg|Hpos].
    + rewrite index_neg by (unfold len; lia).
      rewrite (H (Z.to_nat (len is_max + i))); unfold len; [done|lia..].
    + rewrite index_nonneg by done.
      rewrite (H (Z.to_nat i)); [done|lia..].
Qed.

(** Below that, the call raises IndexError: the first index visited by
    the loop is [ctxlen] itself. *)
Lemma get_result_raises logprobs is_max (ctxlen : Z) :
  ctxlen < - len is_max →
  get_result fzero fadd logprobs is_max ctxlen = Raise IndexError.
Proof.
  intros Hc. unfold get_result.
  rewrite range_cons by (unfold len in *; lia).
  by rewrite greedy_loop_raises.
Qed.
End GetResult.

(** C2 (as amended): for a context length [ctxlen] between 1 and
    [len(logprobs) + 1], the first component returned by [get_result] is the
    sum of the entries of [logprobs] from index [ctxlen - 1] on, that is of
    its last [len(logprobs) - ctxlen + 1] entries: the slice starts at
    [first_continuation_logprob_index = ctxlen - 1], one entry before index
    [ctxlen]. *)
Theorem get_result_sums_from_ctxlen_minus_one
    {F : Type} (fzero : F) (fadd : F → F → F)
    (logprobs : list F) (is_max_logprobs : list bool) (ctxlen : Z) :
  1 ≤ ctxlen ≤ len logprobs + 1 →
  ∃ is_greedy,
    get_result fzero fadd logprobs is_max_logprobs ctxlen
      = Ok (sum fzero fadd
              (lastn (Z.to_nat (len logprobs - ctxlen + 1)) logprobs),
            is_greedy)
    ∧ lastn (Z.to_nat (len logprobs - ctxlen + 1)) logprobs
      = drop (Z.to_nat (ctxlen - 1)) logprobs.
Proof.
  intros Hc.
  assert (Heq : lastn (Z.to_nat (len logprobs - ctxlen + 1)) logprobs
                = drop (Z.to_nat (ctxlen - 1)) logprobs).
  { unfold lastn, len in *. f_equal. lia. }
  destruct (get_result_returns fzero fadd logprobs is_max_logprobs ctxlen)
    as (g & Hg & _); [unfold len; lia|].
  exists g. split; [|done].
  rewrite Hg, slice_from_nonneg by lia. by rewrite Heq.
Qed.

Lemma get_result_sums_from_ctxlen_minus_one_witness :
  1 ≤ 2 ≤ len [1; 2; 3] + 1 ∧
  ∃ is_greedy,
    get_result 0 Z.add [1; 2; 3] [true; true; true] 2
      = Ok (sum 0 Z.add (lastn (Z.to_nat (len [1; 2; 3] - 2 + 1)) [1; 2; 3]),
            is_greedy)
    ∧ lastn (Z.to_nat (len [1; 2; 3] - 2 + 1)) [1; 2; 3]
      = drop (Z.to_nat (2 - 1)) [1; 2; 3].
Proof.
  assert (H : 1 ≤ 2 ≤ len [1; 2; 3] + 1) by (vm_compute; split; discriminate).
  split; [exact H|].
  exact (get_result_sums_from_ctxlen_minus_one
           0 Z.add [1; 2; 3] [true; true; true] 2 H).
Defined.

(** C2 as stated fails: with three log-probabilities and [ctxlen = 2] the
    code returns [2 + 3], not the sum of the last [3 - 2 = 1] entries, and
    the entry at index 1, a position before [ctxlen], changes the result. *)
Lemma get_result_sum_counterexample :
  (¬ ∃ is_greedy,
       get_result 0 Z.add [1; 2; 3] [true; true; true] 2
       = Ok (sum 0 Z.add (lastn (Z.to_nat (len [1; 2; 3] - 2)) [1; 2; 3]),
             is_greedy))
  ∧ get_result 0 Z.add [1; 2; 3] [true; true; true] 2 = Ok (5, true)
  ∧ get_result 0 Z.add [1; 7; 3] [true; true; true] 2 = Ok (10, true).
Proof.
  split; [|split; reflexivity].
  intros [g Hg]. vm_compute in Hg. discriminate Hg.
Qed.

(** C3: whenever [get_result] returns, which it does for every
    [ctxlen >= -len(is_max_logprobs)], its flag is true if and only if every
    entry of [is_max_logprobs] at an index [>= ctxlen] is true; lists that
    agree from index [ctxlen] on give the same flag. *)
Theorem get_result_is_greedy_iff
    {F : Type} (fzero : F) (fadd : F → F → F)
    (logprobs : list F) (is_max_logprobs : list bool) (ctxlen : Z) :
  - len is_max_logprobs ≤ ctxlen →
  ∃ s is_greedy,
    get_result fzero fadd logprobs is_max_logprobs ctxlen = Ok (s, is_greedy)
    ∧ (is_greedy = true ↔
       ∀ n : nat, ctxlen ≤ Z.of_nat n → (n < length is_max_logprobs)%nat →
                  is_max_logprobs !! n = Some true)
    ∧ (∀ n : nat, ctxlen ≤ Z.of_nat n → is_max_logprobs !! n = Some false →
                  is_greedy = false)
    ∧ (∀ is_max' : list bool,
         length is_max' = length is_max_logprobs →
         (∀ n : nat, ctxlen ≤ Z.of_nat n →
                     is_max' !! n = is_max_logprobs !! n) →
         get_result fzero fadd logprobs is_max' ctxlen = Ok (s, is_greedy)).
Proof.
  intros Hc.
  destruct (get_result_returns fzero fadd logprobs is_max_logprobs ctxlen Hc)
    as (g & Hg & Hiff).
  eexists _, g. split; [exact Hg|]. split; [exact Hiff|]. split.
  - intros n Hn Hf. destruct g; [|done].
    destruct Hiff as [Hall _].
    rewrite (Hall eq_refl n Hn) in Hf; [done|].
    by eapply lookup_lt_Some.
  - intros is_max' Hlen Hsame.
    destruct (get_result_returns fzero fadd logprobs is_max' ctxlen)
      as (g' & Hg' & Hiff'); [unfold len in *; lia|].
    rewrite Hg'. do 2 f_equal.
    assert (g' = true ↔ g = true) as Hgg.
    { rewrite Hiff, Hiff', Hlen.
      split; intros H n Hn Hlt;
        [rewrite <- Hsame by done|rewrite Hsame by done]; auto. }
    destruct g, g'; intuition congruence.
Qed.

Lemma get_result_is_greedy_iff_witness :
  - len [false; true; true] ≤ 1 ∧
  ∃ s is_greedy,
    get_result 0 Z.add [1; 2; 3] [false; true; true] 1 = Ok (s, is_greedy)
    ∧ is_greedy = true.
Proof.
  assert (Hc : - len [false; true; true] ≤ 1) by (vm_compute; discriminate).
  split; [exact Hc|].
  destruct (get_result_is_greedy_iff 0 Z.add [1; 2; 3] [false; true; true] 1 Hc)
    as (s & g & Hg & Hiff & _).
  exists s, g. split; [exact Hg|].
  apply Hiff. intros [|[|[|n]]] Hn Hlt; cbn in *; try lia; reflexivity.
Defined.

(** ** Truncation of scoring inputs *)

Section Truncation.
Context {char : Type}.
Implicit Types (self : @MegatronServerLM char).
Implicit Types (context_enc continuation_enc : list token).

(** [ctxlen] is the context length minus what the slice removed. *)
Lemma scoring_ctxlen_truncated self context_enc continuation_enc :
  len context_enc + len continuation_enc > max_length self + 1 →
  scoring_ctxlen self context_enc continuation_enc
  = max_length self + 1 - len continuation_enc.
Proof. intros Hlong. unfold scoring_ctxlen. lia. Qed.

Lemma scoring_ctxlen_untruncated self context_enc continuation_enc :
  len context_enc + len continuation_enc ≤ max_length self + 1 →
  scoring_ctxlen self context_enc continuation_enc = len context_enc.
Proof. intros Hshort. unfold scoring_ctxlen. lia. Qed.

(** For a window of at least one token the slice keeps the last
    [max_length + 1] tokens. *)
Lemma scoring_inp_lastn self context_enc continuation_enc :
  0 ≤ max_length self →
  scoring_inp self context_enc continuation_enc
  = lastn (Z.to_nat (max_length self + 1)) (context_enc ++ continuation_enc).
Proof.
  intros Hm. unfold scoring_inp.
  rewrite slice_from_neg by lia. do 2 f_equal. lia.
Qed.

(** A continuation that fits the window is kept whole, behind the last
    [ctxlen] tokens of the context. *)
Lemma scoring_inp_keeps_continuation self context_enc continuation_enc :
  0 ≤ max_length self →
  len context_enc + len continuation_enc > max_length self + 1 →
  len continuation_enc ≤ max_length self + 1 →
  scoring_inp self context_enc continuation_enc
  = lastn (Z.to_nat (scoring_ctxlen self context_enc continuation_enc))
          context_enc ++ continuation_enc.
Proof.
  intros Hm Hlong Hfit.
  rewrite scoring_inp_lastn, scoring_ctxlen_truncated by done.
  unfold lastn, len in *. rewrite length_app.
  rewrite drop_app_le by lia. do 2 f_equal. lia.
Qed.
End Truncation.

(** C4 (as amended): when context and continuation together exceed
    [max_length + 1] tokens, the dispatched input is the last
    [max_length + 1] tokens of their concatenation and [ctxlen] is exactly
    [max_length + 1 - L]; when moreover the continuation itself has at most
    [max_length + 1] tokens, the input is the last [ctxlen] tokens of the
    context followed by the whole continuation. *)
Theorem scoring_truncation {char : Type} (self : @MegatronServerLM char)
    (context_enc continuation_enc : list token) :
  0 ≤ max_length self →
  len context_enc + len continuation_enc > max_length self + 1 →
  scoring_inp self context_enc continuation_enc
  = lastn (Z.to_nat (max_length self + 1)) (context_enc ++ continuation_enc)
  ∧ scoring_ctxlen self context_enc continuation_enc
    = max_length self + 1 - len continuation_enc
  ∧ (len continuation_enc ≤ max_length self + 1 →
     scoring_inp self context_enc continuation_enc
     = lastn (Z.to_nat (max_length self + 1 - len continuation_enc))
             context_enc ++ continuation_enc).
Proof.
  intros Hm Hlong. split; [by apply scoring_inp_lastn|].
  split; [by apply scoring_ctxlen_truncated|].
  intros Hfit. rewrite scoring_inp_keeps_continuation by done.
  by rewrite scoring_ctxlen_truncated.
Qed.

Lemma scoring_truncation_witness :
  scoring_inp (example_client 259) [1; 2; 3] [4; 5] = [2; 3; 4; 5]
  ∧ scoring_ctxlen (example_client 259) [1; 2; 3] [4; 5] = 2.
Proof.
  assert (Hm : 0 ≤ max_length (example_client 259))
    by (vm_compute; discriminate).
  assert (Hlong : len [1; 2; 3] + len [4; 5]
                  > max_length (example_client 259) + 1)
    by (vm_compute; reflexivity).
  destruct (scoring_truncation (example_client 259) [1; 2; 3] [4; 5] Hm Hlong)
    as (Hinp & Hctx & _).
  split; [rewrite Hinp|rewrite Hctx]; reflexivity.
Defined.

(** C4 as stated fails for a continuation longer than the window: with
    [max_length = 1], one context token and three continuation tokens, the
    input is the last two continuation tokens and [ctxlen] is negative. *)
Lemma scoring_truncation_counterexample :
  len [1] + len [2; 3; 4] > max_length (example_client 257) + 1
  ∧ scoring_inp (example_client 257) [1] [2; 3; 4] = [3; 4]
  ∧ scoring_ctxlen (example_client 257) [1] [2; 3; 4] = -1
  ∧ ¬ ∃ kept, scoring_inp (example_client 257) [1] [2; 3; 4]
              = kept ++ [2; 3; 4].
Proof.
  split; [vm_compute; reflexivity|]. split; [reflexivity|].
  split; [reflexivity|].
  intros [kept Hk].
  change (scoring_inp (example_client 257) [1] [2; 3; 4]) with [3; 4] in Hk.
  apply (f_equal length) in Hk.
  rewrite length_app in Hk. cbn in Hk. lia.
Qed.

(** ** The prompt of a generation request *)

(** C10 (as amended): for a server-reported [max_length] [M > 512], the
    prompt dispatched for a generation request is the last [M - 2 * 256]
    tokens of the encoded context: [__init__] stores [M - 256] and the
    dispatch subtracts [max_gen_toks = 256] again. *)
Theorem generation_inp_double_budget {char : Type}
    (tokenizer : list char → list token)
    (meglm_metadata : metadata) (name : list char) (bs : Z) (tr : bool)
    (context : list char) :
  512 < md_max_length meglm_metadata →
  let self := init meglm_metadata name bs tr in
  max_length self = md_max_length meglm_metadata - max_gen_toks self
  ∧ generation_inp self (tok_encode tokenizer context)
    = slice_from (- (max_length self - max_gen_toks self))
                 (tok_encode tokenizer context)
  ∧ generation_inp self (tok_encode tokenizer context)
    = lastn (Z.to_nat (md_max_length meglm_metadata - 2 * 256))
            (tok_encode tokenizer context).
Proof.
  intros HM self. split; [reflexivity|]. split; [reflexivity|].
  assert (Hk : max_length self - max_gen_toks self
               = md_max_length meglm_metadata - 2 * 256).
  { unfold self, max_length, max_gen_toks, init. cbn. lia. }
  unfold generation_inp. rewrite Hk, slice_from_neg by lia.
  f_equal. lia.
Qed.

Lemma generation_inp_double_budget_witness :
  generation_inp (example_client 514)
    (tok_encode char_tokenizer (list_ascii_of_string "abc"))
  = [98; 99].
Proof.
  assert (HM : 512 < md_max_length
                 {| md_vocab_size := 50257; md_eod_token_id := 0;
                    md_max_length := 514 |}) by (vm_compute; reflexivity).
  destruct (generation_inp_double_budget char_tokenizer _
              (list_ascii_of_string "model") 20 false
              (list_ascii_of_string "abc") HM) as (_ & _ & Hinp).
  unfold example_client. rewrite Hinp. reflexivity.
Defined.

(** C10 as stated fails when the server reports [M = 512]: the slice
    [context_enc[-0:]] is the whole encoded context, not its last 0
    tokens. *)
Lemma generation_inp_counterexample :
  generation_inp (example_client 512)
    (tok_encode char_tokenizer (list_ascii_of_string "abc"))
  = [97; 98; 99]
  ∧ generation_inp (example_client 512)
      (tok_encode char_tokenizer (list_ascii_of_string "abc"))
    ≠ lastn (Z.to_nat (512 - 2 * 256))
            (tok_encode char_tokenizer (list_ascii_of_string "abc")).
Proof. split; [reflexivity|]. vm_compute. discriminate. Qed.

(** ** Grouping generation requests: [sameuntil_chunks] *)

Section SameUntilFacts.
Context {C U : Type} `{EqDecision U}.
Implicit Types (xs ret : list (C * U)) (lastuntil : U) (size : Z).

(** No item is lost, repeated or moved. *)
Lemma sameuntil_loop_concat size xs ret lastuntil :
  concat (sameuntil_loop size xs ret lastuntil).*1 = ret ++ xs.
Proof.
  revert ret lastuntil. induction xs as [|x xs IH]; intros ret lastuntil.
  - destruct ret; cbn; by rewrite ?app_nil_r.
  - cbn [sameuntil_loop]. case_match.
    + cbn. rewrite IH. done.
    + rewrite IH, <- app_assoc. done.
Qed.

(** Every group carries one attribute, the one it is yielded with. *)
Lemma sameuntil_loop_same size xs ret lastuntil :
  Forall (λ x, x.2 = lastuntil) ret →
  Forall (λ g, Forall (λ x, x.2 = g.2) g.1)
         (sameuntil_loop size xs ret lastuntil).
Proof.
  revert ret lastuntil. induction xs as [|x xs IH]; intros ret lastuntil Hret.
  - destruct ret; cbn; eauto.
  - cbn [sameuntil_loop]. case_match eqn:Hcond.
    + constructor; [done|]. apply IH. by constructor.
    + apply IH. apply orb_false_iff in Hcond as [_ Hsame].
      apply negb_false_iff, bool_decide_eq_true in Hsame.
      apply Forall_app. split; [done|]. by constructor.
Qed.

(** No group grows past the size limit (past one item, for a limit below
    one). *)
Lemma sameuntil_loop_size size xs ret lastuntil :
  len ret ≤ Z.max 1 size →
  Forall (λ g, len g.1 ≤ Z.max 1 size) (sameuntil_loop size xs ret lastuntil).
Proof.
  revert ret lastuntil. induction xs as [|x xs IH]; intros ret lastuntil Hret.
  - destruct ret; cbn; eauto.
  - cbn [sameuntil_loop]. case_match eqn:Hcond.
    + constructor; [done|]. apply IH. unfold len. cbn. lia.
    + apply IH. apply orb_false_iff in Hcond as [Hlt _].
      apply Z.leb_gt in Hlt. unfold len in *. rewrite length_app. cbn. lia.
Qed.

(** Once the group under construction holds an item, no yielded group is
    empty. *)
Lemma sameuntil_loop_nonempty size xs ret lastuntil :
  ret ≠ [] →
  Forall (λ g, g.1 ≠ []) (sameuntil_loop size xs ret lastuntil).
Proof.
  revert ret lastuntil. induction xs as [|x xs IH]; intros ret lastuntil Hret.
  - destruct ret; cbn; eauto.
  - cbn [sameuntil_loop]. case_match.
    + constructor; [done|]. by apply IH.
    + apply IH. by destruct ret.
Qed.

(** The first group yielded carries the attribute the loop was entered
    with. *)
Lemma sameuntil_loop_head size xs ret lastuntil g groups :
  sameuntil_loop size xs ret lastuntil = g :: groups → g.2 = lastuntil.
Proof.
  revert ret. induction xs as [|x xs IH]; intros ret.
  - destruct ret; cbn; [done|]. by intros [= <- _].
  - cbn [sameuntil_loop]. case_match; [by intros [= <- _]|]. apply IH.
Qed.

Lemma sameuntil_loop_boundaries size xs ret lastuntil :
  boundaries_forced size (sameuntil_loop size xs ret lastuntil).
Proof.
  revert ret lastuntil. induction xs as [|x xs IH]; intros ret lastuntil.
  - destruct ret; cbn; eauto.
  - cbn [sameuntil_loop]. case_match eqn:Hcond; [|apply IH].
    specialize (IH [x] x.2).
    destruct (sameuntil_loop size xs [x] x.2) as [|g2 groups] eqn:Hloop;
      [done|].
    cbn [boundaries_forced]. split; [|done].
    apply sameuntil_loop_head in Hloop. cbn. rewrite Hloop.
    apply orb_true_iff in Hcond as [Hsz|Hne].
    + left. by apply Z.leb_le.
    + right. apply negb_true_iff, bool_decide_eq_false in Hne. congruence.
Qed.

(** With a size limit of at least one, the first item opens the first
    group. *)
Lemma sameuntil_loop_first size x xs :
  1 ≤ size →
  sameuntil_loop size (x :: xs) [] x.2 = sameuntil_loop size xs [x] x.2.
Proof.
  intros Hsz. cbn [sameuntil_loop].
  destruct (size <=? len []) eqn:E;
    [apply Z.leb_le in E; unfold len in E; cbn in E; lia|].
  rewrite bool_decide_eq_true_2 by done. done.
Qed.

Lemma sameuntil_chunks_returns size x xs :
  sameuntil_chunks (x :: xs) size = Ok (sameuntil_loop size (x :: xs) [] x.2).
Proof. done. Qed.
End SameUntilFacts.

(** C7: [sameuntil_chunks] splits a non-empty sequence into consecutive
    groups that concatenate back to it; all items of a group carry the
    attribute the group is yielded with, no group is longer than the size
    limit (than one item, for a limit below one), and every boundary is one
    where the earlier group had reached the limit or the attribute changed.
    With a limit of at least one no group is empty.  For stop sequences A,
    A, B, A and size 10 the groups are [A, A], [B], [A]; a run of five equal
    attributes and size 2 gives groups of 2, 2 and 1 items. *)
Theorem sameuntil_chunks_groups :
  (∀ (C U : Type) (HU : EqDecision U) (xs : list (C * U)) (size : Z),
     xs ≠ [] →
     ∃ groups,
       sameuntil_chunks xs size = Ok groups
       ∧ concat groups.*1 = xs
       ∧ Forall (λ g, Forall (λ x, x.2 = g.2) g.1
                      ∧ len g.1 ≤ Z.max 1 size) groups
       ∧ boundaries_forced size groups
       ∧ (1 ≤ size → Forall (λ g, g.1 ≠ []) groups))
  ∧ sameuntil_chunks
      [example_request "p1" "A"; example_request "p2" "A";
       example_request "p3" "B"; example_request "p4" "A"] 10
    = Ok [([example_request "p1" "A"; example_request "p2" "A"],
           stop_args "A");
          ([example_request "p3" "B"], stop_args "B");
          ([example_request "p4" "A"], stop_args "A")]
  ∧ sameuntil_chunks
      [example_request "p1" "A"; example_request "p2" "A";
       example_request "p3" "A"; example_request "p4" "A";
       example_request "p5" "A"] 2
    = Ok [([example_request "p1" "A"; example_request "p2" "A"],
           stop_args "A");
          ([example_request "p3" "A"; example_request "p4" "A"],
           stop_args "A");
          ([example_request "p5" "A"], stop_args "A")].
Proof.
  split; [|split; vm_compute; reflexivity].
  intros C U HU [|x xs] size Hne; [done|].
  exists (sameuntil_loop size (x :: xs) [] x.2).
  split; [apply sameuntil_chunks_returns|].
  split; [apply sameuntil_loop_concat|].
  split; [|split].
  - apply Forall_and. split.
    + by apply sameuntil_loop_same.
    + apply sameuntil_loop_size. unfold len. cbn. lia.
  - apply sameuntil_loop_boundaries.
  - intros Hsz. rewrite sameuntil_loop_first by done.
    by apply sameuntil_loop_nonempty.
Qed.

Lemma sameuntil_chunks_groups_witness :
  [(1, true); (2, true); (3, false)] ≠ [] ∧
  ∃ groups,
    sameuntil_chunks [(1, true); (2, true); (3, false)] 10 = Ok groups
    ∧ concat groups.*1 = [(1, true); (2, true); (3, false)].
Proof.
  assert (Hne : [(1, true); (2, true); (3, false)] ≠ []) by discriminate.
  split; [exact Hne|].
  destruct (proj1 sameuntil_chunks_groups Z bool _
              [(1, true); (2, true); (3, false)] 10 Hne)
    as (groups & Hg & Hcat & _).
  exists groups. split; [exact Hg|exact Hcat].
Defined.

(** ** Python string primitives *)

Section StringFacts.
Context {char : Type} `{EqDecision char}.
Implicit Types (s sub p : list char).

Lemma startswith_prefix s p : startswith s p = true ↔ p `prefix_of` s.
Proof.
  revert s. induction p as [|c p IH]; intros s.
  - split; [intros _; apply prefix_nil|by destruct s].
  - destruct s as [|d s]; cbn.
    + split; [done|]. intros Hp. by apply prefix_nil_not in Hp.
    + rewrite andb_true_iff, bool_decide_eq_true, IH. split.
      * intros [-> Hp]. by apply prefix_cons.
      * intros Hp. split.
        -- symmetry. by eapply prefix_cons_inv_1.
        -- by eapply prefix_cons_inv_2.
Qed.

Lemma startswith_false s p : startswith s p = false ↔ ¬ p `prefix_of` s.
Proof.
  rewrite <- startswith_prefix. destruct (startswith s p); naive_solver.
Qed.

Lemma find_unfold s sub :
  find s sub
  = if startswith s sub then Some 0%nat
    else match s with [] => None | _ :: s' => S <$> find s' sub end.
Proof. by destruct s. Qed.

(** [find] returns an index at which [sub] occurs, and the lowest one. *)
Lemma find_Some s sub (i : nat) :
  find s sub = Some i →
  occurs_at sub s i ∧ (i ≤ length s)%nat
  ∧ ∀ j : nat, (j < i)%nat → ¬ occurs_at sub s j.
Proof.
  revert i. induction s as [|c s IH]; intros i; rewrite find_unfold.
  - destruct (startswith [] sub) eqn:E; [|done]. intros [= <-].
    split; [by apply startswith_prefix|]. split; [done|]. lia.
  - destruct (startswith (c :: s) sub) eqn:E.
    + intros [= <-]. split; [by apply startswith_prefix|].
      split; [cbn; lia|]. lia.
    + destruct (find s sub) as [i'|] eqn:Hf; [|done]. intros [= <-].
      destruct (IH i' eq_refl) as (Hocc & Hlen & Hmin).
      split; [done|]. split; [cbn; lia|].
      intros [|j] Hj; [by apply startswith_false in E|].
      apply Hmin. lia.
Qed.

Lemma find_None s sub (j : nat) : find s sub = None → ¬ occurs_at sub s j.
Proof.
  revert j. induction s as [|c s IH]; intros j; rewrite find_unfold.
  - destruct (startswith [] sub) eqn:E; [done|]. intros _.
    apply startswith_false in E. unfold occurs_at. by rewrite drop_nil.
  - destruct (startswith (c :: s) sub) eqn:E; [done|].
    destruct (find s sub) eqn:Hf; [done|]. intros _.
    destruct j as [|j]; [by apply startswith_false in E|].
    by apply IH.
Qed.

(** An occurrence makes [find] succeed, at that index or before. *)
Lemma find_occurs s sub (j : nat) :
  occurs_at sub s j → ∃ i : nat, find s sub = Some i ∧ (i ≤ j)%nat.
Proof.
  intros Hocc. destruct (find s sub) as [i|] eqn:Hf.
  - exists i. split; [done|].
    destruct (find_Some s sub i Hf) as (_ & _ & Hmin).
    destruct (decide (i ≤ j)%nat) as [|Hgt]; [done|].
    exfalso. apply (Hmin j); [lia|done].
  - exfalso. by eapply find_None.
Qed.

(** The lowest occurrence is what [find] returns. *)
Lemma find_lowest s sub (i : nat) :
  occurs_at sub s i → (∀ j : nat, (j < i)%nat → ¬ occurs_at sub s j) →
  find s sub = Some i.
Proof.
  intros Hocc Hmin. destruct (find_occurs s sub i Hocc) as (i' & Hf & Hle).
  destruct (find_Some s sub i' Hf) as (Hocc' & _ & _).
  destruct (decide (i' = i)) as [->|Hne]; [done|].
  exfalso. apply (Hmin i'); [lia|done].
Qed.

(** Occurrences in a prefix of [s] are occurrences in [s]. *)
Lemma occurs_at_take s sub (c j : nat) :
  occurs_at sub (take c s) j → occurs_at sub s j.
Proof.
  unfold occurs_at. intros Hocc.
  destruct (decide (j ≤ c)%nat) as [Hle|Hgt].
  - rewrite <- (drop_take_drop s j c Hle). by apply prefix_app_r.
  - rewrite drop_ge in Hocc by (rewrite length_take; lia).
    apply prefix_nil_inv in Hocc as ->. apply prefix_nil.
Qed.

(** A non-empty occurrence in [take c s] ends at or before [c]. *)
Lemma occurs_at_take_bound s sub (c j : nat) :
  sub ≠ [] → occurs_at sub (take c s) j → (j + length sub ≤ c)%nat.
Proof.
  unfold occurs_at. intros Hne Hocc. apply prefix_length in Hocc.
  rewrite length_drop, length_take in Hocc.
  destruct sub; [done|]. cbn in *. lia.
Qed.

(** An occurrence that ends at or before [c] is an occurrence in
    [take c s]. *)
Lemma occurs_at_in_take s sub (c j : nat) :
  occurs_at sub s j → (j + length sub ≤ c)%nat → occurs_at sub (take c s) j.
Proof.
  unfold occurs_at. intros [k Hk] Hle.
  exists (take (c - j - length sub) k).
  replace c with (j + (c - j))%nat at 1 by lia.
  rewrite <- take_drop_commute, Hk.
  rewrite take_app_ge by lia. do 2 f_equal.
Qed.

(** [find] on a prefix succeeds only if it succeeds on the whole string,
    and then no earlier. *)
Lemma find_take s sub (c j : nat) :
  find (take c s) sub = Some j →
  ∃ i : nat, find s sub = Some i ∧ (i ≤ j)%nat.
Proof.
  intros Hf. apply find_Some in Hf as (Hocc & _ & _).
  apply find_occurs. by eapply occurs_at_take.
Qed.

(** A first occurrence that fits in the prefix is still the first one
    there. *)
Lemma find_in_take s sub (c i : nat) :
  find s sub = Some i → (i + length sub ≤ c)%nat →
  find (take c s) sub = Some i.
Proof.
  intros Hf Hle. destruct (find_Some s sub i Hf) as (Hocc & _ & Hmin).
  apply find_lowest; [by apply occurs_at_in_take|].
  intros j Hj Hoccj. apply (Hmin j Hj). by eapply occurs_at_take.
Qed.
End StringFacts.

(** ** Decoding generated text *)

Section DecodeFacts.
Context {char : Type} `{EqDecision char}.
Implicit Types (s term : list char) (until : list (list char)).

Lemma split_first_cut s term : term ≠ [] → split_first s term = Ok (cut s term).
Proof.
  intros Hne. unfold split_first, cut. destruct term; [done|].
  by destruct (find s _).
Qed.

Lemma split_first_empty s : split_first s [] = Raise ValueError.
Proof. done. Qed.

Lemma cut_stops_foldl s until :
  Forall (λ term, term ≠ []) until → cut_stops s until = Ok (foldl cut s until).
Proof.
  intros Hne. revert s. induction Hne as [|term until Hterm _ IH]; intros s.
  - done.
  - cbn [cut_stops foldl]. rewrite split_first_cut by done.
    rewrite bind_Ok. apply IH.
Qed.

(** An empty stop sequence makes the loop raise when it is reached. *)
Lemma cut_stops_empty_term s until until' :
  Forall (λ term, term ≠ []) until →
  cut_stops s (until ++ [] :: until') = Raise ValueError.
Proof.
  intros Hne. revert s. induction Hne as [|term until Hterm _ IH]; intros s.
  - done.
  - cbn [cut_stops app]. rewrite split_first_cut by done.
    rewrite bind_Ok. apply IH.
Qed.

Lemma prefix_is_take (p s : list char) : p `prefix_of` s → p = take (length p) s.
Proof. intros [k ->]. by rewrite take_app_length. Qed.

Lemma cut_prefix s term : cut s term `prefix_of` s.
Proof. unfold cut. destruct (find s term); [apply prefix_take|done]. Qed.

(** After the cut the stop sequence no longer occurs. *)
Lemma cut_absent s term : term ≠ [] → find (cut s term) term = None.
Proof.
  intros Hne. unfold cut. destruct (find s term) as [i|] eqn:Hf; [|done].
  destruct (find (take i s) term) as [j|] eqn:Hf'; [|done]. exfalso.
  apply find_Some in Hf' as (Hocc & _ & _).
  pose proof (occurs_at_take_bound _ _ _ _ Hne Hocc) as Hb.
  apply find_Some in Hf as (_ & _ & Hmin).
  apply (Hmin j).
  - destruct term; [done|]. cbn in Hb. lia.
  - by eapply occurs_at_take.
Qed.

(** What does not occur in a string does not occur in its prefixes. *)
Lemma find_prefix_None (p s : list char) term :
  p `prefix_of` s → find s term = None → find p term = None.
Proof.
  intros Hp Hf. rewrite (prefix_is_take p s Hp).
  destruct (find (take _ s) term) as [j|] eqn:Hf'; [|done].
  apply find_take in Hf' as (i & Hi & _). congruence.
Qed.

Lemma find_prefix_Some (p s : list char) term (j : nat) :
  p `prefix_of` s → find p term = Some j →
  ∃ i : nat, find s term = Some i ∧ (i ≤ j)%nat.
Proof.
  intros Hp. rewrite (prefix_is_take p s Hp). apply find_take.
Qed.

Lemma foldl_cut_prefix s until : foldl cut s until `prefix_of` s.
Proof.
  revert s. induction until as [|term until IH]; intros s; [done|].
  cbn [foldl]. etrans; [apply IH|apply cut_prefix].
Qed.

(** The kept text contains none of the stop sequences. *)
Lemma foldl_cut_absent s until term :
  Forall (λ term, term ≠ []) until → term ∈ until →
  find (foldl cut s until) term = None.
Proof.
  intros Hne. revert s. induction Hne as [|t until Ht _ IH]; intros s Hin.
  - inversion Hin.
  - cbn [foldl]. apply elem_of_cons in Hin as [->|Hin]; [|by apply IH].
    eapply find_prefix_None; [apply foldl_cut_prefix|by apply cut_absent].
Qed.

(** Where no stop sequence occurs nothing is cut. *)
Lemma foldl_cut_id s until :
  (∀ term, term ∈ until → find s term = None) → foldl cut s until = s.
Proof.
  revert s. induction until as [|t until IH]; intros s Hnone; [done|].
  cbn [foldl]. unfold cut at 2. rewrite (Hnone t) by left.
  apply IH. intros term Hin. apply Hnone. by right.
Qed.

Lemma earliest_stop_None s until :
  earliest_stop s until = None ↔ ∀ term, term ∈ until → find s term = None.
Proof.
  induction until as [|t until IH]; cbn [earliest_stop].
  - split; [|done]. intros _ term Hin. inversion Hin.
  - unfold min_index. destruct (find s t) as [i|] eqn:Hf.
    + split; [by destruct (earliest_stop s until)|].
      intros Hnone. rewrite (Hnone t) in Hf by left. done.
    + rewrite IH. split.
      * intros Hnone term Hin.
        apply elem_of_cons in Hin as [->|Hin]; auto.
      * intros Hnone term Hin. apply Hnone. by right.
Qed.

(** The earliest stop is the first occurrence of some stop sequence and
    no stop sequence occurs before it. *)
Lemma earliest_stop_Some s until (m : nat) :
  earliest_stop s until = Some m →
  (∃ term, term ∈ until ∧ find s term = Some m)
  ∧ ∀ term (j : nat), term ∈ until → find s term = Some j → (m ≤ j)%nat.
Proof.
  revert m. induction until as [|t until IH]; intros m; [done|].
  cbn [earliest_stop]. unfold min_index.
  destruct (find s t) as [i|] eqn:Hf;
    destruct (earliest_stop s until) as [k|] eqn:He.
  - intros [= <-]. destruct (IH k eq_refl) as ((term & Hin & Hterm) & Hmin).
    split.
    + destruct (decide (i ≤ k)%nat).
      * exists t. split; [left|]. rewrite Hf. f_equal. lia.
      * exists term. split; [by right|]. rewrite Hterm. f_equal. lia.
    + intros term' j Hin' Hj. apply elem_of_cons in Hin' as [->|Hin'].
      * assert (j = i) by congruence. lia.
      * specialize (Hmin term' j Hin' Hj). lia.
  - intros [= <-]. split; [exists t; split; [left|done]|].
    intros term' j Hin' Hj. apply elem_of_cons in Hin' as [->|Hin'].
    + assert (j = i) by congruence. lia.
    + pose proof (proj1 (earliest_stop_None s until) He) as Hnone.
      rewrite (Hnone term' Hin') in Hj. done.
  - intros [= <-]. destruct (IH k eq_refl) as ((term & Hin & Hterm) & Hmin).
    split; [exists term; split; [by right|done]|].
    intros term' j Hin' Hj. apply elem_of_cons in Hin' as [->|Hin'].
    + congruence.
    + by apply (Hmin term').
  - done.
Qed.
End DecodeFacts.

Section DecodeOrder.
Context {char : Type} `{EqDecision char}.
Implicit Types (s term : list char) (until pre post : list (list char)).

Lemma removeprefix_app (context rest : list char) :
  removeprefix (context ++ rest) context = rest.
Proof.
  unfold removeprefix.
  rewrite (proj2 (startswith_prefix (context ++ rest) context))
    by (by exists rest).
  by rewrite drop_app_length.
Qed.

Lemma removeprefix_no_prefix (text context : list char) :
  ¬ context `prefix_of` text → removeprefix text context = text.
Proof.
  intros Hno. unfold removeprefix.
  by rewrite (proj2 (startswith_false text context)).
Qed.

Lemma length_cut_Some s term (j : nat) :
  find s term = Some j → cut s term = take j s ∧ length (cut s term) = j.
Proof.
  intros Hf. unfold cut. rewrite Hf. split; [done|].
  apply find_Some in Hf as (_ & Hle & _). by rewrite length_take_le.
Qed.

(** The sequential cuts never go below an index that precedes every
    occurrence of every stop sequence. *)
Lemma foldl_cut_lower_bound s until (m : nat) :
  (m ≤ length s)%nat →
  (∀ term (j : nat), term ∈ until → find s term = Some j → (m ≤ j)%nat) →
  (m ≤ length (foldl cut s until))%nat.
Proof.
  revert s. induction until as [|t until IH]; intros s Hlen Hmin; [done|].
  cbn [foldl]. apply IH.
  - destruct (find s t) as [j|] eqn:Hf.
    + destruct (length_cut_Some s t j Hf) as [_ ->].
      apply (Hmin t); [left|done].
    + unfold cut. by rewrite Hf.
  - intros term j Hin Hj.
    destruct (find_prefix_Some _ s term j (cut_prefix s t) Hj)
      as (i & Hi & Hle).
    specialize (Hmin term i ltac:(by right) Hi). lia.
Qed.

(** No non-empty stop sequence that first occurs at [m] or later occurs in
    the first [m] characters. *)
Lemma find_take_below s term (m : nat) :
  term ≠ [] →
  (∀ j : nat, find s term = Some j → (m ≤ j)%nat) →
  find (take m s) term = None.
Proof.
  intros Hne Hmin. destruct (find (take m s) term) as [j|] eqn:Hf; [|done].
  exfalso.
  pose proof (find_Some _ _ _ Hf) as (Hocc & _ & _).
  pose proof (occurs_at_take_bound _ _ _ _ Hne Hocc) as Hb.
  apply find_take in Hf as (i & Hi & Hle). specialize (Hmin i Hi).
  destruct term; [done|]. cbn in Hb. lia.
Qed.

(** When a stop sequence whose first occurrence is the earliest of all is
    reached before any cut has touched that occurrence, the text is cut
    exactly there. *)
Lemma foldl_cut_earliest s pre term post (m : nat) :
  Forall (λ t, t ≠ []) (pre ++ term :: post) →
  find s term = Some m →
  (∀ t (j : nat), t ∈ pre ++ term :: post → find s t = Some j → (m ≤ j)%nat) →
  (∀ t (j : nat), t ∈ pre → find s t = Some j → (m + length term ≤ j)%nat) →
  foldl cut s (pre ++ term :: post) = take m s.
Proof.
  revert s. induction pre as [|t1 pre IH]; intros s Hne Hterm Hmin Hpre.
  - cbn [app foldl]. destruct (length_cut_Some s term m Hterm) as [-> _].
    apply foldl_cut_id. intros t Hin. apply find_take_below.
    + rewrite Forall_forall in Hne. apply Hne. by right.
    + intros j Hj. apply (Hmin t); [by right|done].
  - cbn [app foldl]. inversion Hne as [|? ? Ht1 Hne']; subst.
    destruct (find s t1) as [j|] eqn:Hf.
    + destruct (length_cut_Some s t1 j Hf) as [-> _].
      pose proof (Hpre t1 j ltac:(left) Hf) as Hj.
      rewrite IH; [rewrite take_take; f_equal; lia|done|..].
      * by apply find_in_take.
      * intros t j2 Hin Hj2. apply find_take in Hj2 as (i & Hi & Hle).
        specialize (Hmin t i ltac:(by right) Hi). lia.
      * intros t j2 Hin Hj2. apply find_take in Hj2 as (i & Hi & Hle).
        specialize (Hpre t i ltac:(by right) Hi). lia.
    + unfold cut at 2. rewrite Hf. apply IH; [done..| |].
      * intros t j2 Hin. apply Hmin. by right.
      * intros t j2 Hin. apply Hpre. by right.
Qed.

Lemma take_prefix_le s (m n : nat) : (m ≤ n)%nat → take m s `prefix_of` take n s.
Proof.
  intros Hle. replace m with (Nat.min m n) by lia.
  rewrite <- take_take. apply prefix_take.
Qed.

(** The cut at the earliest stop is a prefix of what the loop keeps. *)
Lemma cut_at_earliest_prefix s until :
  cut_at_earliest s until `prefix_of` foldl cut s until.
Proof.
  unfold cut_at_earliest.
  pose proof (foldl_cut_prefix s until) as Hp.
  destruct (earliest_stop s until) as [m|] eqn:He.
  - destruct (earliest_stop_Some s until m He)
      as ((term & Hin & Hterm) & Hmin).
    rewrite (prefix_is_take _ _ Hp). apply take_prefix_le.
    apply foldl_cut_lower_bound; [|done].
    by apply find_Some in Hterm as (_ & Hle & _).
  - rewrite foldl_cut_id; [done|]. by apply earliest_stop_None.
Qed.
End DecodeOrder.

(** C8 (as amended): for stop sequences that are all non-empty, the result
    is the generated text with the echoed context prefix removed and then
    cut once per stop sequence, in list order, at the first occurrence of
    that sequence in the text kept so far.  The result is a prefix of the
    de-prefixed text in which no stop sequence occurs; it extends the cut at
    the earliest occurrence of any stop sequence, and equals that cut when
    no stop sequence occurs, or when a stop sequence occurring at the
    earliest index is preceded in the list only by sequences that first
    occur after the end of that occurrence. *)
Theorem decode_generation_cuts {char : Type} `{EqDecision char}
    (text context : list char) (until : list (list char)) :
  Forall (λ term, term ≠ []) until →
  ∃ r,
    decode_generation text context until = Ok r
    ∧ r = foldl cut (removeprefix text context) until
    ∧ (∀ rest, text = context ++ rest → removeprefix text context = rest)
    ∧ r `prefix_of` removeprefix text context
    ∧ (∀ term, term ∈ until → find r term = None)
    ∧ cut_at_earliest (removeprefix text context) until `prefix_of` r
    ∧ (earliest_stop (removeprefix text context) until = None →
       r = cut_at_earliest (removeprefix text context) until)
    ∧ (∀ pre term post (m : nat),
         until = pre ++ term :: post →
         earliest_stop (removeprefix text context) until = Some m →
         find (removeprefix text context) term = Some m →
         (∀ t (j : nat), t ∈ pre →
            find (removeprefix text context) t = Some j →
            (m + length term ≤ j)%nat) →
         r = cut_at_earliest (removeprefix text context) until).
Proof.
  intros Hne. set (s := removeprefix text context).
  exists (foldl cut s until).
  split; [by apply cut_stops_foldl|]. split; [done|].
  split; [intros rest ->; apply removeprefix_app|].
  split; [apply foldl_cut_prefix|].
  split; [intros term Hin; by apply foldl_cut_absent|].
  split; [apply cut_at_earliest_prefix|]. split.
  - intros He. unfold cut_at_earliest. rewrite He.
    apply foldl_cut_id. by apply earliest_stop_None.
  - intros pre term post m -> He Hterm Hpre.
    unfold cut_at_earliest. rewrite He.
    apply foldl_cut_earliest; [done..| |done].
    intros t j Hin Hj.
    by apply (proj2 (earliest_stop_Some s _ m He) t j).
Qed.

Lemma decode_generation_cuts_witness :
  Forall (λ term : list ascii, term ≠ [])
    [list_ascii_of_string "bc"; list_ascii_of_string "cd"]
  ∧ ∃ r,
      decode_generation (list_ascii_of_string "xabcd")
        (list_ascii_of_string "x")
        [list_ascii_of_string "bc"; list_ascii_of_string "cd"] = Ok r
      ∧ r = list_ascii_of_string "a".
Proof.
  assert (Hne : Forall (λ term : list ascii, term ≠ [])
                  [list_ascii_of_string "bc"; list_ascii_of_string "cd"])
    by (repeat constructor; discriminate).
  split; [exact Hne|].
  destruct (decode_generation_cuts (list_ascii_of_string "xabcd")
              (list_ascii_of_string "x") _ Hne) as (r & Hr & Heq & _).
  exists r. split; [exact Hr|]. rewrite Heq. reflexivity.
Defined.

(** C8 as stated fails for overlapping stop sequences: with the text
    ["abcd"] after the prefix and the stop sequences ["cd"], ["bc"] in that
    order, the loop first cuts at ["cd"], leaving ["ab"], in which ["bc"]
    no longer occurs; the earliest occurrence of a stop sequence is that
    of ["bc"] at index 1. *)
Lemma decode_generation_counterexample :
  decode_generation (list_ascii_of_string "xabcd") (list_ascii_of_string "x")
    [list_ascii_of_string "cd"; list_ascii_of_string "bc"]
  = Ok (list_ascii_of_string "ab")
  ∧ cut_at_earliest
      (removeprefix (list_ascii_of_string "xabcd") (list_ascii_of_string "x"))
      [list_ascii_of_string "cd"; list_ascii_of_string "bc"]
    = list_ascii_of_string "a"
  ∧ decode_generation (list_ascii_of_string "xabcd")
      (list_ascii_of_string "x")
      [list_ascii_of_string "cd"; list_ascii_of_string "bc"]
    ≠ Ok (cut_at_earliest
            (removeprefix (list_ascii_of_string "xabcd")
               (list_ascii_of_string "x"))
            [list_ascii_of_string "cd"; list_ascii_of_string "bc"]).
Proof.
  split; [vm_compute; reflexivity|]. split; [vm_compute; reflexivity|].
  vm_compute. discriminate.
Qed.

(** ** The retry loop: [megatron_completion] *)

Lemma backoff_after_geometric (k : nat) :
  (backoff_after k == 3 * 1.5 ^ Z.of_nat k)%Q.
Proof.
  induction k as [|k IH].
  - reflexivity.
  - unfold backoff_after in *. cbn [Nat.iter].
    rewrite Nat2Z.inj_succ, <- Z.add_1_r.
    assert (Hpow : (1.5 ^ (Z.of_nat k + 1) == 1.5 ^ Z.of_nat k * 1.5)%Q)
      by (apply Qpower_plus; discriminate).
    eapply Qeq_trans; [apply Qmult_comp; [exact IH|reflexivity]|].
    eapply Qeq_trans; [|apply Qmult_comp; [reflexivity|symmetry; exact Hpow]].
    ring.
Qed.

Lemma backoff_after_shift (k : nat) (b : Q) :
  Nat.iter k (λ b, (b * 1.5)%Q) (b * 1.5)%Q
  = Nat.iter (S k) (λ b, (b * 1.5)%Q) b.
Proof.
  induction k as [|k IH]; [done|].
  change (Nat.iter (S k) (λ b, (b * 1.5)%Q) (b * 1.5)%Q)
    with ((Nat.iter k (λ b, (b * 1.5)%Q) (b * 1.5)%Q) * 1.5)%Q.
  by rewrite IH.
Qed.

Section Retry.
Context {char F : Type} (api : nat → @completion_data char → @http_reply char F).
Implicit Types (self : @MegatronServerLM char) (a : @query_args char)
  (w : @world char F) (r : @response_json char F).

Lemma sleeps_retry_trace (data : @completion_data char) (b : Q) (n : nat) :
  sleeps (retry_trace (F:=F) data b n)
  = map (λ k, Nat.iter k (λ b, (b * 1.5)%Q) b) (seq 0 n).
Proof.
  revert b. induction n as [|n IH]; intros b; [done|].
  cbn [retry_trace seq map]. unfold sleeps in *. cbn [omap].
  cbn. f_equal. rewrite IH, <- seq_shift, map_map.
  apply map_ext. intros k. apply backoff_after_shift.
Qed.

Lemma api_requests_retry_trace (data : @completion_data char) (b : Q)
    (n : nat) :
  api_requests (retry_trace (F:=F) data b n) = replicate (S n) data.
Proof.
  revert b. induction n as [|n IH]; intros b; [done|].
  cbn [retry_trace]. unfold api_requests in *. cbn. by rewrite IH.
Qed.

(** One attempt: the request is sent and the reply checked. *)
Lemma megatron_query_run self a w :
  megatron_query api self a w
  = (Some (check_reply (api (api_calls w) (query_data self a))),
     {| trace := trace w ++ [EvApi (query_data self a)];
        api_calls := S (api_calls w) |}).
Proof. done. Qed.

(** A failed attempt is followed by a sleep of the current back-off time and
    by the rest of the loop with the back-off time multiplied by 1.5. *)
Lemma megatron_completion_loop_retry fuel self a (b : Q) w e :
  check_reply (api (api_calls w) (query_data self a)) = Raise e →
  megatron_completion_loop api (S fuel) self a b w
  = megatron_completion_loop api fuel self a (b * 1.5)%Q
      {| trace := trace w ++ [EvApi (query_data self a); EvSleep b];
         api_calls := S (api_calls w) |}.
Proof.
  intros He. cbn [megatron_completion_loop].
  rewrite megatron_query_run, He.
  assert (is_Exception e = true) as -> by (by destruct e).
  unfold M_bind, emit. cbn [trace api_calls].
  by rewrite <- app_assoc.
Qed.

Lemma megatron_completion_loop_success fuel self a (b : Q) w r :
  check_reply (api (api_calls w) (query_data self a)) = Ok r →
  megatron_completion_loop api (S fuel) self a b w
  = (Some (Ok r),
     {| trace := trace w ++ [EvApi (query_data self a)];
        api_calls := S (api_calls w) |}).
Proof.
  intros Hr. cbn [megatron_completion_loop].
  by rewrite megatron_query_run, Hr.
Qed.

(** [n] failures followed by a success: [n + 1] attempts, [n] sleeps. *)
Lemma megatron_completion_loop_fails_then_succeeds
    (n : nat) fuel self a (b : Q) w r :
  (∀ k : nat, (k < n)%nat →
     ∃ e, check_reply (api (api_calls w + k)%nat (query_data self a))
          = Raise e) →
  check_reply (api (api_calls w + n)%nat (query_data self a)) = Ok r →
  (n < fuel)%nat →
  megatron_completion_loop api fuel self a b w
  = (Some (Ok r),
     {| trace := trace w ++ retry_trace (query_data self a) b n;
        api_calls := (api_calls w + n + 1)%nat |}).
Proof.
  revert fuel b w. induction n as [|n IH]; intros fuel b w Hfail Hok Hfuel.
  - destruct fuel as [|fuel]; [lia|].
    rewrite Nat.add_0_r in Hok.
    rewrite (megatron_completion_loop_success _ _ _ _ _ r Hok).
    do 3 f_equal. lia.
  - destruct fuel as [|fuel]; [lia|].
    destruct (Hfail 0%nat ltac:(lia)) as [e He].
    rewrite Nat.add_0_r in He.
    rewrite (megatron_completion_loop_retry _ _ _ _ _ e He).
    rewrite IH; cbn [trace api_calls].
    + rewrite <- app_assoc. cbn [retry_trace app]. do 3 f_equal. lia.
    + intros k Hk. destruct (Hfail (S k) ltac:(lia)) as [e' He'].
      exists e'. rewrite <- He'. do 2 f_equal. lia.
    + rewrite <- Hok. do 2 f_equal. lia.
    + lia.
Qed.

(** The loop hands no exception to its caller: it returns a response or is
    still running. *)
Lemma megatron_completion_loop_never_raises fuel self a (b : Q) w e w' :
  megatron_completion_loop api fuel self a b w ≠ (Some (Raise e), w').
Proof.
  revert b w. induction fuel as [|fuel IH]; intros b w; [done|].
  destruct (check_reply (api (api_calls w) (query_data self a)))
    as [r|e0] eqn:Hc.
  - by rewrite (megatron_completion_loop_success _ _ _ _ _ r Hc).
  - rewrite (megatron_completion_loop_retry _ _ _ _ _ e0 Hc). apply IH.
Qed.
End Retry.

(** ** The retry wrapper in the interpreter's arithmetic *)

Lemma float_backoff_shift (k : nat) (b : Q) :
  Nat.iter k (λ b, Float64.float_mul b 1.5) (Float64.float_mul b 1.5)
  = Nat.iter (S k) (λ b, Float64.float_mul b 1.5) b.
Proof.
  induction k as [|k IH]; [done|].
  change (Nat.iter (S k) (λ b, Float64.float_mul b 1.5)
            (Float64.float_mul b 1.5))
    with (Float64.float_mul
            (Nat.iter k (λ b, Float64.float_mul b 1.5)
               (Float64.float_mul b 1.5)) 1.5).
  by rewrite IH.
Qed.

(** The first 54 back-off times are accepted by [time.sleep]; the 55th is
    not. *)
Lemma float_backoff_sleepable (k : nat) :
  (k < 54)%nat → sleepable (float_backoff k) = true.
Proof.
  intros Hk.
  assert (Hall : forallb (λ k, sleepable (float_backoff k)) (seq 0 54) = true)
    by (vm_compute; reflexivity).
  rewrite forallb_forall in Hall. apply Hall, in_seq. lia.
Qed.

Lemma float_backoff_overflows :
  Qle_bool (2 ^ 63) (float_backoff 54 * 1000000000) = true.
Proof. vm_compute. reflexivity. Qed.

(** The first 33 back-off times are exact; the 34th is not. *)
Lemma float_backoff_exact (k : nat) :
  (k < 33)%nat → (float_backoff k == backoff_after k)%Q.
Proof.
  intros Hk.
  assert (Hall : forallb (λ k, Qeq_bool (float_backoff k) (backoff_after k))
                   (seq 0 33) = true)
    by (vm_compute; reflexivity).
  rewrite forallb_forall in Hall. apply Qeq_bool_iff, Hall, in_seq. lia.
Qed.

Lemma float_backoff_inexact :
  ¬ (float_backoff 33 == 3 * 1.5 ^ 33)%Q.
Proof.
  intros Heq. apply Qeq_bool_iff in Heq. vm_compute in Heq. discriminate.
Qed.

(** Each of the first 55 back-off times is longer than the one before. *)
Lemma float_backoff_increases (k : nat) :
  (k < 54)%nat → (float_backoff k < float_backoff (S k))%Q.
Proof.
  intros Hk.
  assert (Hall : forallb
                   (λ k, negb (Qle_bool (float_backoff (S k)) (float_backoff k)))
                   (seq 0 54) = true)
    by (vm_compute; reflexivity).
  rewrite forallb_forall in Hall.
  assert (Hin : In k (seq 0 54)) by (apply in_seq; lia).
  apply Hall, negb_true_iff in Hin.
  apply Qnot_le_lt. intros Hle. apply Qle_bool_iff in Hle. congruence.
Qed.

Section Float64Retry.
Context {char F : Type} (api : nat → @completion_data char → @http_reply char F).
Implicit Types (self : @MegatronServerLM char) (a : @query_args char)
  (w : @world char F).

Lemma sleeps_float_failed_trace (data : @completion_data char) (b : Q)
    (n : nat) :
  sleeps (float_failed_trace (F:=F) data b n)
  = map (λ k, Nat.iter k (λ b, Float64.float_mul b 1.5) b) (seq 0 n).
Proof.
  revert b. induction n as [|n IH]; intros b; [done|].
  cbn [float_failed_trace seq map]. unfold sleeps in *.
  cbn [omap list_omap Nat.iter]. change (list_omap _ _) with (@omap list _ event Q).
  f_equal. rewrite IH, <- seq_shift, map_map.
  apply map_ext. intros k. apply float_backoff_shift.
Qed.

Lemma api_requests_float_failed_trace (data : @completion_data char) (b : Q)
    (n : nat) :
  api_requests (float_failed_trace (F:=F) data b n) = replicate n data.
Proof.
  revert b. induction n as [|n IH]; intros b; [done|].
  cbn [float_failed_trace]. unfold api_requests in *. cbn. by rewrite IH.
Qed.

Lemma time_sleep_accepts (b : Q) w :
  sleepable b = true →
  Float64.time_sleep b w = emit (EvSleep b) w.
Proof.
  unfold sleepable, Float64.time_sleep.
  intros [Hfit Hpos]%andb_true_iff. apply negb_true_iff in Hfit.
  by rewrite Hfit, Hpos.
Qed.

Lemma time_sleep_overflow (b : Q) w :
  Qle_bool (2 ^ 63) (b * 1000000000) = true →
  Float64.time_sleep (char:=char) (F:=F) b w = (Some (Raise OverflowError), w).
Proof. unfold Float64.time_sleep. by intros ->. Qed.

Lemma float64_loop_success fuel self a (b : Q) w r :
  check_reply (api (api_calls w) (query_data self a)) = Ok r →
  Float64.megatron_completion_loop api (S fuel) self a b w
  = (Some (Ok r),
     {| trace := trace w ++ [EvApi (query_data self a)];
        api_calls := S (api_calls w) |}).
Proof.
  intros Hr. cbn [Float64.megatron_completion_loop].
  by rewrite megatron_query_run, Hr.
Qed.

(** A failed attempt followed by a sleep that is accepted. *)
Lemma float64_loop_retry fuel self a (b : Q) w e :
  check_reply (api (api_calls w) (query_data self a)) = Raise e →
  sleepable b = true →
  Float64.megatron_completion_loop api (S fuel) self a b w
  = Float64.megatron_completion_loop api fuel self a (Float64.float_mul b 1.5)
      {| trace := trace w ++ [EvApi (query_data self a); EvSleep b];
         api_calls := S (api_calls w) |}.
Proof.
  intros He Hb. cbn [Float64.megatron_completion_loop].
  rewrite megatron_query_run, He.
  assert (is_Exception e = true) as -> by (by destruct e).
  unfold M_bind. rewrite time_sleep_accepts by done.
  unfold emit. cbn [trace api_calls]. by rewrite <- app_assoc.
Qed.

(** A failed attempt followed by a sleep that is refused: the error of
    [time.sleep] goes to the caller. *)
Lemma float64_loop_overflow fuel self a (b : Q) w e :
  check_reply (api (api_calls w) (query_data self a)) = Raise e →
  Qle_bool (2 ^ 63) (b * 1000000000) = true →
  Float64.megatron_completion_loop api (S fuel) self a b w
  = (Some (Raise OverflowError),
     {| trace := trace w ++ [EvApi (query_data self a)];
        api_calls := S (api_calls w) |}).
Proof.
  intros He Hb. cbn [Float64.megatron_completion_loop].
  rewrite megatron_query_run, He.
  assert (is_Exception e = true) as -> by (by destruct e).
  unfold M_bind. by rewrite time_sleep_overflow.
Qed.

(** [n] failed attempts whose sleeps are accepted: [n] requests, [n]
    sleeps, and the loop goes on with the back-off time multiplied [n]
    times. *)
Lemma float64_loop_fails (n : nat) fuel self a (b : Q) w :
  (∀ k : nat, (k < n)%nat →
     ∃ e, check_reply (api (api_calls w + k)%nat (query_data self a))
          = Raise e) →
  (∀ k : nat, (k < n)%nat →
     sleepable (Nat.iter k (λ b, Float64.float_mul b 1.5) b) = true) →
  Float64.megatron_completion_loop api (n + fuel) self a b w
  = Float64.megatron_completion_loop api fuel self a
      (Nat.iter n (λ b, Float64.float_mul b 1.5) b)
      {| trace := trace w ++ float_failed_trace (query_data self a) b n;
         api_calls := (api_calls w + n)%nat |}.
Proof.
  revert b w. induction n as [|n IH]; intros b w Hfail Hsleep.
  - cbn [Nat.add Nat.iter float_failed_trace].
    rewrite app_nil_r, Nat.add_0_r. by destruct w.
  - destruct (Hfail 0%nat ltac:(lia)) as [e He].
    rewrite Nat.add_0_r in He.
    change (S n + fuel)%nat with (S (n + fuel)).
    rewrite (float64_loop_retry _ _ _ _ _ e He (Hsleep 0%nat ltac:(lia))).
    rewrite IH; cbn [trace api_calls].
    + rewrite <- app_assoc, float_backoff_shift.
      cbn [float_failed_trace app]. do 2 f_equal. lia.
    + intros k Hk. destruct (Hfail (S k) ltac:(lia)) as [e' He'].
      exists e'. rewrite <- He'. do 2 f_equal. lia.
    + intros k Hk. rewrite float_backoff_shift. apply Hsleep. lia.
Qed.

(** Up to 54 failures followed by a success. *)
Lemma float64_fails_then_succeeds (n : nat) fuel self a w r :
  (∀ k : nat, (k < n)%nat →
     ∃ e, check_reply (api (api_calls w + k)%nat (query_data self a))
          = Raise e) →
  check_reply (api (api_calls w + n)%nat (query_data self a)) = Ok r →
  (n < fuel)%nat → (n ≤ 54)%nat →
  Float64.megatron_completion api fuel self a w
  = (Some (Ok r),
     {| trace := trace w ++ float_failed_trace (query_data self a) 3%Q n
                   ++ [EvApi (query_data self a)];
        api_calls := (api_calls w + n + 1)%nat |}).
Proof.
  intros Hfail Hok Hfuel Hn. unfold Float64.megatron_completion.
  replace fuel with (n + S (fuel - n - 1))%nat by lia.
  rewrite float64_loop_fails; [|done|].
  - rewrite (float64_loop_success _ _ _ _ _ r) by done.
    cbn [trace api_calls]. rewrite <- app_assoc. do 2 f_equal. lia.
  - intros k Hk. apply (float_backoff_sleepable k). lia.
Qed.

(** 55 failures: the 55th sleep is refused. *)
Lemma float64_gives_up fuel self a w :
  (∀ k : nat, (k < 55)%nat →
     ∃ e, check_reply (api (api_calls w + k)%nat (query_data self a))
          = Raise e) →
  (55 ≤ fuel)%nat →
  Float64.megatron_completion api fuel self a w
  = (Some (Raise OverflowError),
     {| trace := trace w ++ float_failed_trace (query_data self a) 3%Q 54
                   ++ [EvApi (query_data self a)];
        api_calls := (api_calls w + 55)%nat |}).
Proof.
  intros Hfail Hfuel. unfold Float64.megatron_completion.
  replace fuel with (54 + S (fuel - 55))%nat by lia.
  rewrite float64_loop_fails.
  - destruct (Hfail 54%nat ltac:(lia)) as [e He].
    rewrite (float64_loop_overflow _ _ _ _ _ e).
    + cbn [trace api_calls]. rewrite <- app_assoc. do 2 f_equal. lia.
    + exact He.
    + exact float_backoff_overflows.
  - intros k Hk. apply Hfail. lia.
  - intros k Hk. apply (float_backoff_sleepable k). lia.
Qed.

(** The only exception the wrapper hands to its caller is the one of the
    55th sleep. *)
Lemma float64_loop_raise_inv fuel (j : nat) self a w e w' :
  (j ≤ 54)%nat →
  Float64.megatron_completion_loop api fuel self a (float_backoff j) w
  = (Some (Raise e), w') →
  e = OverflowError ∧ api_calls w' = (api_calls w + (55 - j))%nat.
Proof.
  revert j w. induction fuel as [|fuel IH]; intros j w Hj; [done|].
  destruct (check_reply (api (api_calls w) (query_data self a)))
    as [r|e0] eqn:Hc.
  - by rewrite (float64_loop_success _ _ _ _ _ r Hc).
  - destruct (decide (j = 54%nat)) as [->|Hne].
    + rewrite (float64_loop_overflow _ _ _ _ _ e0 Hc float_backoff_overflows).
      intros [= <- <-]. cbn [api_calls]. split; [done|lia].
    + rewrite (float64_loop_retry _ _ _ _ _ e0 Hc)
        by (apply float_backoff_sleepable; lia).
      intros Hrun. apply (IH (S j)) in Hrun as [-> ->]; [|lia].
      cbn [api_calls]. split; [done|lia].
Qed.

(** Followed for 55 attempts, the loop has ended. *)
Lemma float64_loop_ends fuel (j : nat) self a w :
  (j ≤ 54)%nat → (55 - j ≤ fuel)%nat →
  (Float64.megatron_completion_loop api fuel self a (float_backoff j) w).1
  ≠ None.
Proof.
  revert j w. induction fuel as [|fuel IH]; intros j w Hj Hfuel; [lia|].
  destruct (check_reply (api (api_calls w) (query_data self a)))
    as [r|e0] eqn:Hc.
  - by rewrite (float64_loop_success _ _ _ _ _ r Hc).
  - destruct (decide (j = 54%nat)) as [->|Hne].
    + by rewrite (float64_loop_overflow _ _ _ _ _ e0 Hc
                    float_backoff_overflows).
    + rewrite (float64_loop_retry _ _ _ _ _ e0 Hc)
        by (apply float_backoff_sleepable; lia).
      apply (IH (S j)); lia.
Qed.

(** While the call succeeds within 54 failures, the loop in exact
    arithmetic and the loop in the interpreter's arithmetic return the same
    response after the same number of requests; they differ in the
    durations of the sleeps only, and not in those before the 34th. *)
Lemma float64_agrees (n : nat) fuel self a w r :
  (∀ k : nat, (k < n)%nat →
     ∃ e, check_reply (api (api_calls w + k)%nat (query_data self a))
          = Raise e) →
  check_reply (api (api_calls w + n)%nat (query_data self a)) = Ok r →
  (n < fuel)%nat → (n ≤ 54)%nat →
  (Float64.megatron_completion api fuel self a w).1
  = (megatron_completion api fuel self a w).1
  ∧ api_calls (Float64.megatron_completion api fuel self a w).2
    = api_calls (megatron_completion api fuel self a w).2.
Proof.
  intros Hfail Hok Hfuel Hn.
  rewrite (float64_fails_then_succeeds n fuel self a w r) by done.
  unfold megatron_completion.
  by rewrite (megatron_completion_loop_fails_then_succeeds api n fuel self a
                3%Q w r).
Qed.
End Float64Retry.







(** ** Dispatch of a generation group *)

Section DecodeErrors.
Context {char : Type} `{EqDecision char}.
Implicit Types (s : list char) (until : list (list char)).

Lemma cut_stops_raises s until e :
  cut_stops s until = Raise e → e = ValueError ∧ [] ∈ until.
Proof.
  revert s. induction until as [|term until IH]; intros s; [done|].
  cbn [cut_stops]. destruct term as [|c term].
  - rewrite split_first_empty, bind_Raise. intros [= <-].
    split; [done|left].
  - rewrite split_first_cut, bind_Ok by done. intros Hr.
    destruct (IH _ Hr) as [-> Hin]. split; [done|by right].
Qed.

Lemma cut_stops_empty_in s until : [] ∈ until → cut_stops s until = Raise ValueError.
Proof.
  revert s. induction until as [|term until IH]; intros s Hin.
  - inversion Hin.
  - cbn [cut_stops]. destruct term as [|c term]; [done|].
    rewrite split_first_cut, bind_Ok by done.
    apply IH. by apply elem_of_cons in Hin as [?|?].
Qed.

(** A text that comes out of the cuts was cut at every stop sequence, and
    contains none of them. *)
Lemma cut_stops_Ok_absent s until s' :
  cut_stops s until = Ok s' →
  s' = foldl cut s until ∧ ∀ term, term ∈ until → find s' term = None.
Proof.
  intros Hs.
  assert (Hne : Forall (λ term, term ≠ []) until).
  { apply Forall_forall. intros term Hin ->.
    by rewrite cut_stops_empty_in in Hs. }
  rewrite cut_stops_foldl in Hs by done. injection Hs as <-.
  split; [done|]. intros term Hin. by apply foldl_cut_absent.
Qed.
End DecodeErrors.

Section Dispatch.
Context {char : Type} `{EqDecision char} {F : Type}.
Context (tokenizer : list char → list token).
Context (api : nat → @completion_data char → @http_reply char F).
Implicit Types (self : @MegatronServerLM char) (a : @query_args char)
  (w : @world char F) (until : list (list char)).

Lemma api_requests_app (evs1 evs2 : list (@event char F)) :
  api_requests (evs1 ++ evs2) = api_requests evs1 ++ api_requests evs2.
Proof. apply omap_app. Qed.

(** The retry loop only appends to the trace, and every request it sends
    carries the same data; with at least one attempt allowed it sends at
    least one. *)
Lemma megatron_completion_loop_trace fuel self a (b : Q) w :
  ∃ evs,
    trace (megatron_completion_loop api fuel self a b w).2 = trace w ++ evs
    ∧ Forall (λ d, d = query_data self a) (api_requests evs)
    ∧ ((0 < fuel)%nat → api_requests evs ≠ []).
Proof.
  revert b w. induction fuel as [|fuel IH]; intros b w.
  - exists []. cbn. rewrite app_nil_r. split; [done|]. split; [done|lia].
  - destruct (check_reply (api (api_calls w) (query_data self a)))
      as [r|e] eqn:Hc.
    + rewrite (megatron_completion_loop_success _ _ _ _ _ _ r Hc).
      exists [EvApi (query_data self a)]. cbn.
      split; [done|]. split; [by constructor|done].
    + rewrite (megatron_completion_loop_retry _ _ _ _ _ _ e Hc).
      destruct (IH (b * 1.5)%Q
                  {| trace := trace w ++ [EvApi (query_data self a); EvSleep b];
                     api_calls := S (api_calls w) |})
        as (evs & Htr & Hall & _).
      exists ([EvApi (query_data self a); EvSleep b] ++ evs).
      rewrite Htr. cbn [trace]. rewrite <- app_assoc.
      split; [done|]. rewrite api_requests_app. cbn.
      split; [by constructor|done].
Qed.

(** Decoding the texts of a group writes to the partial cache only. *)
Lemma decode_items_trace (texts : list (list char))
    (chunk : list (@generation_request char)) until w :
  ∃ evs,
    trace (decode_items (F:=F) texts chunk until w).2 = trace w ++ evs
    ∧ api_requests evs = [].
Proof.
  revert chunk w. induction texts as [|text texts IH]; intros chunk w.
  - exists []. cbn. by rewrite app_nil_r.
  - destruct chunk as [|[context args] chunk].
    { exists []. cbn. by rewrite app_nil_r. }
    cbn [decode_items]. unfold mbind, M_mbind, M_bind, lift.
    destruct (decode_generation text context until) as [s|e].
    + cbn [emit]. cbn beta iota.
      set (w1 := {| trace := trace w ++ [EvCacheGreedyUntil context until s];
                    api_calls := api_calls w |}).
      destruct (IH chunk w1) as (evs & Htr & Hreq).
      exists (EvCacheGreedyUntil context until s :: evs).
      destruct (decode_items texts chunk until w1) as [[[res|e]|] w2];
        cbn in *; rewrite Htr; unfold w1; cbn [trace];
        rewrite <- app_assoc; done.
    + exists []. cbn. by rewrite app_nil_r.
Qed.

(** Every text the inner loop returns contains none of the stop
    sequences. *)
Lemma decode_items_results (texts : list (list char))
    (chunk : list (@generation_request char)) until w res w' :
  decode_items (F:=F) texts chunk until w = (Some (Ok res), w') →
  Forall (λ s, ∀ term, term ∈ until → find s term = None) res.
Proof.
  revert chunk w res w'.
  induction texts as [|text texts IH]; intros chunk w res w'.
  - cbn. intros [= <- _]. constructor.
  - destruct chunk as [|[context args] chunk].
    { cbn. intros [= <- _]. constructor. }
    cbn [decode_items]. unfold mbind, M_mbind, M_bind, lift.
    destruct (decode_generation text context until) as [s|e] eqn:Hs; [|done].
    cbn [emit]. cbn beta iota.
    match goal with
    | |- context [decode_items texts chunk until ?w1] =>
        destruct (decode_items texts chunk until w1)
          as [[[res'|e]|] w2] eqn:Hrest; [|done..]
    end.
    intros [= <- _]. constructor; [|by eapply IH].
    by apply cut_stops_Ok_absent in Hs as [_ Hs].
Qed.

(** With no empty stop sequence, the inner loop returns every text cut at
    each stop sequence of the list in turn. *)
Lemma decode_items_cut (texts : list (list char))
    (chunk : list (@generation_request char)) until w :
  Forall (λ term, term ≠ []) until →
  ∃ w',
    decode_items (F:=F) texts chunk until w
    = (Some (Ok (zip_with
                   (λ text (x : @generation_request char),
                      foldl cut (removeprefix text x.1) until)
                   texts chunk)), w').
Proof.
  intros Hne. revert chunk w.
  induction texts as [|text texts IH]; intros chunk w.
  - by exists w.
  - destruct chunk as [|[context args] chunk]; [by exists w|].
    cbn [decode_items zip_with fst]. unfold mbind, M_mbind, M_bind, lift.
    unfold decode_generation. rewrite cut_stops_foldl by done.
    cbn [emit]. cbn beta iota.
    match goal with
    | |- context [decode_items texts chunk until ?w1] =>
        destruct (IH chunk w1) as [w2 Hw2]; rewrite Hw2
    end.
    by exists w2.
Qed.
End Dispatch.

(** The requests of a generation group with a non-empty stop-sequence
    list. *)
Lemma greedy_until_chunk_requests {char : Type} `{EqDecision char}
    {F : Type} (tokenizer : list char → list token)
    (api : nat → @completion_data char → @http_reply char F)
    (fuel : nat) (self : @MegatronServerLM char)
    (chunk : list (@generation_request char)) (args : @request_args char)
    (w : @world char F) (until0 : list char) (rest : list (list char)) :
  until_list (until args) = until0 :: rest →
  ∃ evs,
    trace (greedy_until_chunk tokenizer api fuel self (chunk, args) w).2
    = trace w ++ evs
    ∧ (api_requests evs ≠ [] → ∃ t, tok_encode tokenizer until0 = [t])
    ∧ (∀ t, tok_encode tokenizer until0 = [t] →
         Forall (λ d, d = generation_data tokenizer self chunk t)
                (api_requests evs)
         ∧ ((0 < fuel)%nat → api_requests evs ≠ []))
    ∧ (length (tok_encode tokenizer until0) ≠ 1%nat →
         greedy_until_chunk tokenizer api fuel self (chunk, args) w
         = (Some (Raise ValueError), w)
         ∧ evs = []).
Proof.
  intros Huntil. unfold greedy_until_chunk. cbn [fst snd]. rewrite Huntil.
  unfold mbind at 1. unfold M_mbind, M_bind at 1. unfold lift at 1.
  cbn [primary_until].
  destruct (tok_encode tokenizer until0) as [|t [|t' toks]] eqn:Henc.
  - exists []. cbn. rewrite app_nil_r.
    split; [done|]. split; [done|]. split; [done|]. by intros _.
  - cbn [unpack_single]. rewrite bind_Ok.
    set (a := {| qa_model_name := model_name self;
                 qa_prompts := map (λ x, generation_inp self
                                           (tok_encode tokenizer x.1)) chunk;
                 qa_max_tokens := max_gen_toks self;
                 qa_temperature := 0%Q;
                 qa_logprobs := 0;
                 qa_top_k := None;
                 qa_stop_token := Some t |}).
    assert (Hdata : query_data self a = generation_data tokenizer self chunk t)
      by reflexivity.
    destruct (megatron_completion_loop_trace api fuel self a 3%Q w)
      as (evs1 & Htr1 & Hall1 & Hsent1).
    unfold mbind, M_mbind, M_bind, megatron_completion.
    destruct (megatron_completion_loop api fuel self a 3%Q w)
      as [[[response|e]|] w1] eqn:Hloop; cbn [snd] in Htr1.
    + unfold lift. destruct (getitem (r_text response)) as [texts|e].
      * destruct (decode_items_trace (F:=F) texts chunk (until0 :: rest) w1)
          as (evs2 & Htr2 & Hreq2).
        exists (evs1 ++ evs2). rewrite Htr2, Htr1, <- app_assoc.
        split; [done|]. rewrite api_requests_app, Hreq2, app_nil_r.
        split; [by eauto|]. split; [|by cbn].
        intros t0 [= <-]. rewrite <- Hdata. done.
      * exists evs1. cbn [snd]. split; [done|].
        split; [by eauto|]. split; [|by cbn].
        intros t0 [= <-]. rewrite <- Hdata. done.
    + exists evs1. cbn [snd]. split; [done|].
      split; [by eauto|]. split; [|by cbn].
      intros t0 [= <-]. rewrite <- Hdata. done.
    + exists evs1. cbn [snd]. split; [done|].
      split; [by eauto|]. split; [|by cbn].
      intros t0 [= <-]. rewrite <- Hdata. done.
  - exists []. cbn. rewrite app_nil_r.
    split; [done|]. split; [done|]. split; [done|]. by intros _.
Qed.


(** Whatever a generation group returns was cut at every stop sequence of
    the list. *)
Lemma greedy_until_chunk_results_cut {char : Type} `{EqDecision char}
    {F : Type} (tokenizer : list char → list token)
    (api : nat → @completion_data char → @http_reply char F)
    (fuel : nat) (self : @MegatronServerLM char)
    (chunk : list (@generation_request char)) (args : @request_args char)
    (w w' : @world char F) (res : list (list char)) :
  greedy_until_chunk tokenizer api fuel self (chunk, args) w
  = (Some (Ok res), w') →
  Forall (λ s, ∀ term, term ∈ until_list (until args) → find s term = None)
         res.
Proof.
  unfold greedy_until_chunk. cbn [fst snd].
  unfold mbind, M_mbind, M_bind, lift.
  destruct (primary_until tokenizer (until_list (until args)))
    as [stop|e]; [|done].
  match goal with
  | |- context [megatron_completion api fuel self ?a w] =>
      destruct (megatron_completion api fuel self a w)
        as [[[response|e]|] w1]; [|done..]
  end.
  destruct (getitem (r_text response)) as [texts|e]; [|done].
  apply decode_items_results.
Qed.

(** A generation group whose first reply is a response with texts returns
    every text cut at each stop sequence of the list in turn. *)
Lemma greedy_until_chunk_cuts_texts {char : Type} `{EqDecision char}
    {F : Type} (tokenizer : list char → list token)
    (api : nat → @completion_data char → @http_reply char F)
    (fuel : nat) (self : @MegatronServerLM char)
    (chunk : list (@generation_request char)) (args : @request_args char)
    (w : @world char F) (until0 : list char) (rest : list (list char))
    (t : token) (r : @response_json char F) (texts : list (list char)) :
  until_list (until args) = until0 :: rest →
  tok_encode tokenizer until0 = [t] →
  Forall (λ term, term ≠ []) (until0 :: rest) →
  (0 < fuel)%nat →
  check_reply (api (api_calls w) (generation_data tokenizer self chunk t))
  = Ok r →
  r_text r = Some texts →
  ∃ w',
    greedy_until_chunk tokenizer api fuel self (chunk, args) w
    = (Some (Ok (zip_with
                   (λ text (x : @generation_request char),
                      foldl cut (removeprefix text x.1) (until0 :: rest))
                   texts chunk)), w').
Proof.
  intros Huntil Henc Hne Hfuel Hr Htexts.
  destruct fuel as [|fuel]; [lia|].
  unfold greedy_until_chunk, megatron_completion. cbn [fst snd].
  rewrite Huntil. cbn [primary_until]. rewrite Henc. cbn [unpack_single].
  rewrite bind_Ok. unfold mbind, M_mbind, M_bind, lift.
  match goal with
  | |- context [megatron_completion_loop api (S fuel) self ?a 3%Q w] =>
      rewrite (megatron_completion_loop_success api fuel self a 3%Q w r Hr)
  end.
  rewrite Htexts. cbn [getitem].
  apply decode_items_cut. done.
Qed.



Example greedy_until_chunk_multi_token_stop :
  greedy_until_chunk char_tokenizer (flaky_api [] example_response)
    3 (example_client 2048)
    ([example_request "ab" "\n\n"], stop_args "\n\n") empty_world
  = (Some (Raise ValueError), empty_world).
Proof. reflexivity. Qed.

(** ** The Reorderer round trip *)

Section SortFacts.
Context {A K : Type} (lt : K → K → bool) (fn : A → K).

Lemma insert_by_Permutation (x : A) (l : list A) :
  insert_by lt fn x l ≡ₚ x :: l.
Proof.
  induction l as [|y l IH]; [done|]. cbn [insert_by].
  destruct (lt (fn y) (fn x)); [|done].
  rewrite IH. apply Permutation_swap.
Qed.

(** Sorting keeps every element, once. *)
Lemma sort_by_Permutation (l : list A) : sort_by lt fn l ≡ₚ l.
Proof.
  induction l as [|x l IH]; [done|]. cbn [sort_by].
  by rewrite insert_by_Permutation, IH.
Qed.

Lemma length_sort_by (l : list A) : length (sort_by lt fn l) = length l.
Proof. apply Permutation_length, sort_by_Permutation. Qed.
End SortFacts.

Section ReordererFacts.
Context {A K : Type} (lt : K → K → bool).
Implicit Types (requests : list A) (fn : A → K).

Lemma enumerate_fst requests : (enumerate requests).*1 = seq 0 (length requests).
Proof. unfold enumerate. apply fst_zip. by rewrite length_seq. Qed.

Lemma enumerate_snd requests : (enumerate requests).*2 = requests.
Proof. unfold enumerate. apply snd_zip. by rewrite length_seq. Qed.

Lemma elem_of_enumerate requests (i : nat) (x : A) :
  (i, x) ∈ enumerate requests ↔ requests !! i = Some x.
Proof.
  unfold enumerate. rewrite list_elem_of_lookup. split.
  - intros (j & Hj). apply lookup_zip_with_Some in Hj
      as (i' & x' & [= <- <-] & Hi & Hx).
    apply lookup_seq in Hi as [-> _]. done.
  - intros Hx. exists i. apply lookup_zip_with_Some.
    exists i, x. split; [done|]. split; [|done].
    apply lookup_seq. split; [done|]. by eapply lookup_lt_Some.
Qed.

(** The reordered sequence holds the same requests as the input. *)
Lemma get_reordered_Permutation requests fn :
  get_reordered (new_Reorderer lt requests fn) ≡ₚ requests.
Proof.
  unfold get_reordered, new_Reorderer. cbn [arr].
  by rewrite sort_by_Permutation, enumerate_snd.
Qed.

Lemma length_get_reordered requests fn :
  length (get_reordered (new_Reorderer lt requests fn)) = length requests.
Proof. apply Permutation_length, get_reordered_Permutation. Qed.

(** Storing results at pairwise distinct positions: each stored position
    holds its result, every other position is unchanged. *)
Lemma foldl_store_length {B} (ivs : list (nat * B)) (init : list (option B)) :
  length (foldl (λ res iv, <[iv.1 := Some iv.2]> res) init ivs) = length init.
Proof.
  revert init. induction ivs as [|iv ivs IH]; intros init; [done|].
  cbn [foldl]. by rewrite IH, length_insert.
Qed.

Lemma foldl_store_other {B} (ivs : list (nat * B)) (init : list (option B))
    (j : nat) :
  j ∉ ivs.*1 →
  foldl (λ res iv, <[iv.1 := Some iv.2]> res) init ivs !! j = init !! j.
Proof.
  revert init. induction ivs as [|[i v] ivs IH]; intros init Hj; [done|].
  cbn [foldl]. cbn in Hj. apply not_elem_of_cons in Hj as [Hne Hj].
  rewrite IH by done. cbn. by rewrite list_lookup_insert_ne.
Qed.

Lemma foldl_store_lookup {B} (ivs : list (nat * B)) (init : list (option B))
    (j : nat) (v : B) :
  NoDup ivs.*1 → (j, v) ∈ ivs → (j < length init)%nat →
  foldl (λ res iv, <[iv.1 := Some iv.2]> res) init ivs !! j = Some (Some v).
Proof.
  revert init. induction ivs as [|[i v'] ivs IH]; intros init Hnd Hin Hlt.
  - inversion Hin.
  - cbn [foldl]. cbn in Hnd. apply NoDup_cons in Hnd as [Hi Hnd].
    apply elem_of_cons in Hin as [[= <- <-]|Hin].
    + rewrite foldl_store_other by done. cbn.
      by rewrite list_lookup_insert_eq.
    + apply IH; [done..|]. by rewrite length_insert.
Qed.

(** The round trip: results computed item by item on the reordered
    sequence come back in the order of the input, one per request. *)
Lemma get_original_get_reordered {B} requests fn (f : A → B) :
  get_original (new_Reorderer lt requests fn)
    (f <$> get_reordered (new_Reorderer lt requests fn))
  = Some ∘ f <$> requests.
Proof.
  unfold get_original, get_reordered, new_Reorderer. cbn [arr size].
  set (ps := sort_by lt (λ x, fn x.2) (enumerate requests)).
  assert (Hperm : ps ≡ₚ enumerate requests) by apply sort_by_Permutation.
  assert (Hzip : zip ps.*1 (f <$> ps.*2) = (λ p, (p.1, f p.2)) <$> ps).
  { clear Hperm. induction ps as [|[i x] ps IH]; [done|]. cbn. by f_equal. }
  rewrite Hzip.
  assert (Hnd : NoDup ((λ p : nat * A, (p.1, f p.2)) <$> ps).*1).
  { rewrite <- list_fmap_compose.
    change (NoDup ps.*1). rewrite Hperm, enumerate_fst. apply NoDup_seq. }
  apply list_eq. intros j. rewrite list_lookup_fmap.
  destruct (requests !! j) as [x|] eqn:Hx; cbn.
  - apply foldl_store_lookup; [done| |].
    + apply list_elem_of_fmap. exists (j, x). split; [done|].
      rewrite Hperm. by apply elem_of_enumerate.
    + rewrite length_replicate. by eapply lookup_lt_Some.
  - apply lookup_ge_None. rewrite foldl_store_length, length_replicate.
    by apply lookup_ge_None.
Qed.
End ReordererFacts.

Section ChunkFacts.
Context {A : Type}.

(** The default chunking splits without losing or moving an item. *)
Lemma chunks_loop_concat (n : Z) (xs arr : list A) :
  concat (chunks_loop n xs arr) = arr ++ xs.
Proof.
  revert arr. induction xs as [|x xs IH]; intros arr.
  - destruct arr; cbn; by rewrite ?app_nil_r.
  - cbn [chunks_loop]. cbv zeta. case_match.
    + cbn [concat]. rewrite IH. by rewrite <- app_assoc.
    + rewrite IH. by rewrite <- app_assoc.
Qed.

Lemma chunks_concat (xs : list A) (n : Z) : concat (chunks xs n) = xs.
Proof. apply chunks_loop_concat. Qed.

Lemma concat_fmap_each {B} (f : A → B) (groups : list (list A)) :
  concat (fmap (M:=list) f <$> groups) = f <$> concat groups.
Proof.
  induction groups as [|g groups IH]; [done|].
  cbn. by rewrite fmap_app, IH.
Qed.
End ChunkFacts.

(** ** The two orchestration paths *)

Section MonadFacts.
Context {char F : Type}.
Implicit Types (w : @world char F).

Lemma M_bind_returns {A B} (m : @M char F A) (k : A → @M char F B) w a w' :
  m w = (Some (Ok a), w') → (m ≫= k) w = k a w'.
Proof. intros Hm. unfold mbind, M_mbind, M_bind. by rewrite Hm. Qed.

Lemma M_bind_lift_Ok {A B} (a : A) (k : A → @M char F B) w :
  (lift (Ok a) ≫= k) w = k a w.
Proof. done. Qed.

(** A loop whose every iteration returns collects the results in order. *)
Lemma for_chunks_returns {X B} (body : X → @M char F (list B))
    (h : X → list B) (groups : list X) w :
  Forall (λ g, ∀ w, ∃ w', body g w = (Some (Ok (h g)), w')) groups →
  ∃ w', for_chunks body groups w = (Some (Ok (concat (h <$> groups))), w').
Proof.
  intros Hall. revert w. induction Hall as [|g groups Hg _ IH]; intros w.
  - by exists w.
  - destruct (Hg w) as [w1 Hw1]. destruct (IH w1) as [w2 Hw2].
    exists w2. cbn [for_chunks].
    rewrite (M_bind_returns _ _ _ _ _ Hw1).
    rewrite (M_bind_returns _ _ _ _ _ Hw2). done.
Qed.

Lemma megatron_completion_responds
    (api : nat → @completion_data char → @http_reply char F) (fuel : nat)
    (answer : @completion_data char → @response_json char F)
    (self : @MegatronServerLM char) (a : @query_args char) w :
  responds api fuel answer →
  ∃ w', megatron_completion api fuel self a w
        = (Some (Ok (answer (query_data self a))), w').
Proof.
  intros Hresp.
  destruct (Hresp (api_calls w) (query_data self a))
    as (k & Hk & Hfail & Hok).
  eexists. by apply (megatron_completion_loop_fails_then_succeeds api k).
Qed.
End MonadFacts.

Section ScoringPath.
Context {char F : Type} (fzero : F) (fadd : F → F → F).
Context (api : nat → @completion_data char → @http_reply char F).
Context (fuel : nat) (answer : @completion_data char → @response_json char F).
Context (lp : list token → list F) (im : list token → list bool).
Context (self : @MegatronServerLM char).
Context (ans : @scoring_request char → F * bool).
Implicit Types (w : @world char F) (chunk : list (@scoring_request char)).

Hypothesis api_responds : responds api fuel answer.
Hypothesis answer_logprobs :
  ∀ data, r_logprobs (answer data) = Some (lp <$> d_prompts data).
Hypothesis answer_is_max :
  ∀ data, r_is_max_logprobs (answer data) = Some (im <$> d_prompts data).

Lemma score_items_returns chunk w :
  Forall (λ x, expected_score fzero fadd lp im self x = Ok (ans x)) chunk →
  ∃ w',
    score_items fzero fadd
      (lp <$> map (λ x, scoring_inp self x.1.2 x.2) chunk)
      (im <$> map (λ x, scoring_inp self x.1.2 x.2) chunk)
      (map (λ x, scoring_ctxlen self x.1.2 x.2) chunk) chunk w
    = (Some (Ok (ans <$> chunk)), w').
Proof.
  intros Hall. revert w.
  induction Hall as [|[[cache_key ctx] cont] chunk Hx _ IH]; intros w.
  - by exists w.
  - cbn [map fmap list_fmap score_items]. unfold expected_score in Hx.
    cbn [fst snd] in Hx |- *. rewrite Hx, M_bind_lift_Ok.
    destruct cache_key as [key|].
    + set (w1 := {| trace := trace w
                      ++ [EvCacheLoglikelihood key (ans (Some key, ctx, cont))];
                    api_calls := api_calls w |}).
      destruct (IH w1) as [w2 Hw2]. exists w2.
      rewrite (M_bind_returns _ _ w _ w1) by done.
      rewrite (M_bind_returns _ _ _ _ _ Hw2). done.
    + destruct (IH w) as [w2 Hw2]. exists w2.
      rewrite (M_bind_returns _ _ w _ w) by done.
      rewrite (M_bind_returns _ _ _ _ _ Hw2). done.
Qed.

Lemma loglikelihood_chunk_returns chunk w :
  Forall (λ x, expected_score fzero fadd lp im self x = Ok (ans x)) chunk →
  ∃ w', loglikelihood_chunk fzero fadd api fuel self chunk w
        = (Some (Ok (ans <$> chunk)), w').
Proof.
  intros Hall. unfold loglikelihood_chunk.
  edestruct (megatron_completion_responds api fuel answer self) as [w1 Hw1];
    [exact api_responds|].
  rewrite (M_bind_returns _ _ _ _ _ Hw1).
  rewrite answer_logprobs, answer_is_max. cbn [getitem query_data d_prompts].
  rewrite !M_bind_lift_Ok. by apply score_items_returns.
Qed.

(** The scoring path returns, for every request and at its position, the
    result computed from the server's answer to that request. *)
Lemma _loglikelihood_tokens_returns (requests : list (@scoring_request char)) w :
  Forall (λ x, expected_score fzero fadd lp im self x = Ok (ans x)) requests →
  ∃ w', _loglikelihood_tokens fzero fadd api fuel self requests w
        = (Some (Ok (Some ∘ ans <$> requests)), w').
Proof.
  intros Hall. unfold _loglikelihood_tokens.
  set (re_ord := new_Reorderer loglikelihood_key_ltb requests
                   loglikelihood_collate).
  destruct (for_chunks_returns (loglikelihood_chunk fzero fadd api fuel self)
              (fmap ans) (chunks (get_reordered re_ord) (batch_size self)) w)
    as [w1 Hw1].
  { assert (Hall' : Forall (λ x, expected_score fzero fadd lp im self x
                                 = Ok (ans x)) (get_reordered re_ord))
      by (unfold re_ord; by rewrite get_reordered_Permutation).
    rewrite <- (chunks_concat (get_reordered re_ord) (batch_size self))
      in Hall'.
    apply Forall_concat in Hall'. eapply Forall_impl; [exact Hall'|].
    intros c Hc w0. by apply loglikelihood_chunk_returns. }
  exists w1. rewrite (M_bind_returns _ _ _ _ _ Hw1).
  unfold mret, M_mret, M_ret. do 3 f_equal.
  rewrite <- (get_original_get_reordered loglikelihood_key_ltb requests
                loglikelihood_collate ans).
  f_equal. fold re_ord.
  by rewrite concat_fmap_each, chunks_concat.
Qed.
End ScoringPath.

Section GenerationPath.
Context {char : Type} `{EqDecision char} (char_ltb : char → char → bool).
Context {F : Type} (tokenizer : list char → list token).
Context (api : nat → @completion_data char → @http_reply char F).
Context (fuel : nat) (answer : @completion_data char → @response_json char F).
Context (gen : token → list token → list char).
Context (self : @MegatronServerLM char).
Context (out : @generation_request char → list char).
Implicit Types (w : @world char F) (chunk : list (@generation_request char)).

Hypothesis api_responds : responds api fuel answer.
Hypothesis answer_text :
  ∀ data, r_text (answer data)
          = Some (gen (d_stop_token data) <$> d_prompts data).

Lemma decode_items_returns chunk (until : list (list char)) (t : token) w :
  Forall (λ x, decode_generation
                 (gen t (generation_inp self (tok_encode tokenizer x.1)))
                 x.1 until = Ok (out x)) chunk →
  ∃ w',
    decode_items (F:=F)
      (gen t <$> map (λ x, generation_inp self (tok_encode tokenizer x.1))
                     chunk)
      chunk until w
    = (Some (Ok (out <$> chunk)), w').
Proof.
  intros Hall. revert w.
  induction Hall as [|[context args] chunk Hx _ IH]; intros w.
  - by exists w.
  - cbn [map fmap list_fmap decode_items]. cbn [fst] in Hx |- *.
    rewrite Hx, M_bind_lift_Ok.
    set (w1 := {| trace := trace w
                    ++ [EvCacheGreedyUntil context until (out (context, args))];
                  api_calls := api_calls w |}).
    destruct (IH w1) as [w2 Hw2]. exists w2.
    rewrite (M_bind_returns _ _ w _ w1) by done.
    rewrite (M_bind_returns _ _ _ _ _ Hw2). done.
Qed.

Lemma greedy_until_chunk_returns chunk (args : @request_args char) w :
  chunk ≠ [] →
  Forall (λ x, x.2 = args) chunk →
  Forall (λ x, expected_generation tokenizer gen self x = Ok (out x)) chunk →
  ∃ w', greedy_until_chunk tokenizer api fuel self (chunk, args) w
        = (Some (Ok (out <$> chunk)), w').
Proof.
  intros Hne Hsame Hall. unfold greedy_until_chunk. cbn [fst snd].
  assert (∃ stop, primary_until tokenizer (until_list (until args)) = Ok stop)
    as [stop Hstop].
  { destruct chunk as [|x0 chunk]; [done|].
    apply Forall_cons in Hsame as [Hx0 _]. apply Forall_cons in Hall as [Hx _].
    unfold expected_generation in Hx. rewrite Hx0 in Hx.
    apply bind_Ok_inv in Hx as (stop & Hstop & _). by exists stop. }
  rewrite Hstop, M_bind_lift_Ok.
  edestruct (megatron_completion_responds api fuel answer self) as [w1 Hw1];
    [exact api_responds|].
  rewrite (M_bind_returns _ _ _ _ _ Hw1).
  rewrite answer_text.
  cbn [getitem query_data d_prompts d_stop_token qa_prompts qa_stop_token].
  rewrite M_bind_lift_Ok. apply decode_items_returns.
  assert (Hboth : Forall (λ x, x.2 = args
                     ∧ expected_generation tokenizer gen self x = Ok (out x))
                    chunk) by (apply Forall_and; by split).
  eapply Forall_impl; [exact Hboth|].
  intros x [Hx2 Hx]. cbn beta in *. unfold expected_generation in Hx.
  rewrite Hx2, Hstop, bind_Ok in Hx. exact Hx.
Qed.

(** The generation path returns, for every request and at its position, the
    text decoded from the server's answer to that request. *)
Lemma greedy_until_returns (requests : list (@generation_request char)) w :
  1 ≤ batch_size self →
  Forall (λ x, expected_generation tokenizer gen self x = Ok (out x))
         requests →
  ∃ w', greedy_until char_ltb tokenizer api fuel self requests w
        = (Some (Ok (Some ∘ out <$> requests)), w').
Proof.
  intros Hsize Hall. unfold greedy_until.
  destruct requests as [|x0 requests0] eqn:Hreq; [by exists w|].
  rewrite <- Hreq in *.
  set (re_ord := new_Reorderer (greedy_until_key_ltb char_ltb) requests
                   (greedy_until_collate tokenizer)).
  assert (Hall' : Forall (λ x, expected_generation tokenizer gen self x
                               = Ok (out x)) (get_reordered re_ord))
    by (unfold re_ord; by rewrite get_reordered_Permutation).
  destruct (get_reordered re_ord) as [|y ys] eqn:Hre.
  { apply (f_equal length) in Hre. unfold re_ord in Hre.
    rewrite length_get_reordered, Hreq in Hre. done. }
  rewrite (sameuntil_chunks_returns (C:=list char) (U:=request_args)
             (batch_size self) y ys), M_bind_lift_Ok.
  rewrite (sameuntil_loop_first (C:=list char) (U:=request_args)) by done.
  set (groups := sameuntil_loop (batch_size self) ys [y] y.2).
  assert (Hcat : concat groups.*1 = y :: ys)
    by apply (sameuntil_loop_concat (batch_size self) ys [y] y.2).
  destruct (for_chunks_returns (greedy_until_chunk tokenizer api fuel self)
              (λ g, out <$> g.1) groups w) as [w1 Hw1].
  { assert (Hne : Forall (λ g, g.1 ≠ []) groups)
      by (by apply sameuntil_loop_nonempty).
    assert (Hsame : Forall (λ g, Forall (λ x, x.2 = g.2) g.1) groups)
      by (apply sameuntil_loop_same; by constructor).
    assert (Hexp : Forall (λ x, expected_generation tokenizer gen self x
                                = Ok (out x)) (concat groups.*1))
      by (rewrite Hcat; exact Hall').
    apply Forall_concat in Hexp. rewrite Forall_fmap in Hexp.
    assert (Hthree : Forall (λ g, g.1 ≠ []
                       ∧ Forall (λ x, x.2 = g.2) g.1
                       ∧ Forall (λ x, expected_generation tokenizer gen self x
                                      = Ok (out x)) g.1) groups).
    { apply Forall_and. split; [done|]. apply Forall_and.
      split; [done|exact Hexp]. }
    eapply Forall_impl; [exact Hthree|].
    intros [chunk args] (Hg1 & Hg2 & Hg3) w0.
    by apply greedy_until_chunk_returns. }
  exists w1. rewrite (M_bind_returns _ _ _ _ _ Hw1).
  unfold mret, M_mret, M_ret. do 3 f_equal.
  rewrite <- (get_original_get_reordered (greedy_until_key_ltb char_ltb) requests
                (greedy_until_collate tokenizer) out).
  fold re_ord. rewrite Hre, <- Hcat. f_equal.
  rewrite <- concat_fmap_each, <- list_fmap_compose. done.
Qed.
End GenerationPath.


Lemma busy_api_responds : responds busy_api 2 example_answer.
Proof.
  intros n data. unfold busy_api. destruct (Nat.even n) eqn:Heven.
  - exists 1%nat. split; [lia|]. split.
    + intros i Hi. assert (i = 0%nat) as -> by lia.
      rewrite Nat.add_0_r, Heven. by eexists.
    + rewrite Nat.add_1_r, Nat.even_succ, <- Nat.negb_even, Heven. done.
  - exists 0%nat. split; [lia|]. split; [intros i Hi; lia|].
    by rewrite Nat.add_0_r, Heven.
Qed.


Example greedy_until_example :
  (greedy_until Ascii.ltb char_tokenizer busy_api 2 (example_client 2048)
     [example_request "abc" "."; example_request "d" "y";
      example_request "ab" "."] empty_world).1
  = Some (Ok [Some (list_ascii_of_string "xy");
              Some (list_ascii_of_string "x");
              Some (list_ascii_of_string "xy")]).
Proof. vm_compute. reflexivity. Qed.

(** * Part IV: further properties of the client *)

(** ** [get_result] at its bounds *)

(** X1: [get_result] raises IndexError exactly when [ctxlen] is below
    [-len(is_max_logprobs)]: the index [is_max_logprobs[ctxlen]] of the
    first iteration is then out of range.  No other [ctxlen] raises
    IndexError, whatever the two lists hold. *)
Theorem get_result_index_error_iff {F : Type} (fzero : F) (fadd : F → F → F)
    (logprobs : list F) (is_max_logprobs : list bool) (ctxlen : Z) :
  get_result fzero fadd logprobs is_max_logprobs ctxlen = Raise IndexError
  ↔ ctxlen < - len is_max_logprobs.
Proof.
  destruct (Z.lt_ge_cases ctxlen (- len is_max_logprobs)) as [Hlt|Hge].
  - by rewrite (get_result_raises fzero fadd logprobs is_max_logprobs ctxlen
                  Hlt).
  - destruct (get_result_returns fzero fadd logprobs is_max_logprobs ctxlen Hge)
      as (g & Hg & _).
    rewrite Hg. split; [done|lia].
Qed.

(** X2: for a context length [ctxlen <= 0] the slice start [ctxlen - 1] is
    negative and counts from the end: the sum covers the last [1 - ctxlen]
    log-probabilities only, while the flag is the conjunction of all
    entries of [is_max_logprobs]. *)
Theorem get_result_nonpositive_ctxlen {F : Type} (fzero : F)
    (fadd : F → F → F) (logprobs : list F) (is_max_logprobs : list bool)
    (ctxlen : Z) :
  - len is_max_logprobs ≤ ctxlen ≤ 0 →
  ∃ is_greedy,
    get_result fzero fadd logprobs is_max_logprobs ctxlen
    = Ok (sum fzero fadd (lastn (Z.to_nat (1 - ctxlen)) logprobs), is_greedy)
    ∧ (is_greedy = true ↔ Forall (λ b, b = true) is_max_logprobs).
Proof.
  intros [Hlo Hhi].
  destruct (get_result_returns fzero fadd logprobs is_max_logprobs ctxlen Hlo)
    as (g & Hg & Hiff).
  exists g. rewrite Hg, slice_from_neg by lia. split.
  - by replace (- (ctxlen - 1)) with (1 - ctxlen) by lia.
  - rewrite Hiff, Forall_lookup. split.
    + intros H i b Hi. rewrite (H i) in Hi; [congruence|lia|].
      by eapply lookup_lt_Some.
    + intros H n _ Hn.
      destruct (lookup_lt_is_Some_2 is_max_logprobs n Hn) as [b Hb].
      by rewrite Hb, (H n b Hb).
Qed.

Lemma get_result_nonpositive_ctxlen_witness :
  get_result 0 Z.add [1; 2; 3] [true; false] 0 = Ok (3, false).
Proof.
  assert (Hc : - len [true; false] ≤ 0 ≤ 0) by (vm_compute; split; discriminate).
  destruct (get_result_nonpositive_ctxlen 0 Z.add [1; 2; 3] [true; false] 0 Hc)
    as (g & Hg & Hiff).
  rewrite Hg. destruct g; [|reflexivity].
  apply proj1 in Hiff. specialize (Hiff eq_refl).
  apply Forall_cons in Hiff as [_ Hiff]. apply Forall_cons in Hiff as [Hf _].
  discriminate Hf.
Defined.

(** X3: a context length past the end of both lists gives the empty sum and
    a true flag: nothing is summed and nothing is checked. *)
Theorem get_result_past_end {F : Type} (fzero : F) (fadd : F → F → F)
    (logprobs : list F) (is_max_logprobs : list bool) (ctxlen : Z) :
  len logprobs < ctxlen → len is_max_logprobs ≤ ctxlen →
  get_result fzero fadd logprobs is_max_logprobs ctxlen = Ok (fzero, true).
Proof.
  intros Hlp Him. unfold get_result.
  assert (range ctxlen (len is_max_logprobs) = []) as ->.
  { unfold range, len in *. replace (Z.to_nat _) with 0%nat by lia. done. }
  cbn [greedy_loop]. unfold len in *.
  rewrite bind_Ok, slice_from_nonneg by lia.
  rewrite drop_ge by lia. done.
Qed.

Lemma get_result_past_end_witness :
  get_result 0 Z.add [1; 2] [false; false] 3 = Ok (0, true).
Proof.
  apply (get_result_past_end 0 Z.add [1; 2] [false; false] 3);
    vm_compute; [reflexivity|discriminate].
Defined.

(** ** Scoring a request end to end *)

Section ScoringItem.
Context {char : Type}.
Implicit Types (self : @MegatronServerLM char).
Implicit Types (context_enc continuation_enc : list token).

Lemma len_scoring_inp self context_enc continuation_enc :
  0 ≤ max_length self →
  len (scoring_inp self context_enc continuation_enc)
  = Z.min (len context_enc + len continuation_enc) (max_length self + 1).
Proof.
  intros Hm. rewrite scoring_inp_lastn by done. unfold len.
  rewrite lastn_length, length_app. lia.
Qed.

(** The context length used for splitting plus the continuation length is
    the length of the dispatched input. *)
Lemma scoring_ctxlen_plus_continuation self context_enc continuation_enc :
  0 ≤ max_length self →
  scoring_ctxlen self context_enc continuation_enc + len continuation_enc
  = len (scoring_inp self context_enc continuation_enc).
Proof.
  intros Hm. rewrite len_scoring_inp by done. unfold scoring_ctxlen. lia.
Qed.

Lemma scoring_ctxlen_positive self context_enc continuation_enc :
  context_enc ≠ [] → len continuation_enc ≤ max_length self →
  1 ≤ scoring_ctxlen self context_enc continuation_enc.
Proof.
  intros Hne Hfit. unfold scoring_ctxlen, len in *.
  destruct context_enc; [done|]. cbn [length]. lia.
Qed.
End ScoringItem.

(** X4: for a request with a non-empty context and a continuation of at
    most [max_length] tokens, [ctxlen] is at least 1; and when the server
    returns one log-probability per input token after the first,
    [get_result] sums exactly the log-probabilities of the continuation
    tokens, the last [L] entries. *)
Theorem scoring_sums_the_continuation {char F : Type} (fzero : F)
    (fadd : F → F → F) (self : @MegatronServerLM char)
    (context_enc continuation_enc : list token)
    (logprobs : list F) (is_max_logprobs : list bool) :
  context_enc ≠ [] →
  len continuation_enc ≤ max_length self →
  len logprobs = len (scoring_inp self context_enc continuation_enc) - 1 →
  1 ≤ scoring_ctxlen self context_enc continuation_enc
  ∧ ∃ is_greedy,
      get_result fzero fadd logprobs is_max_logprobs
        (scoring_ctxlen self context_enc continuation_enc)
      = Ok (sum fzero fadd (lastn (length continuation_enc) logprobs),
            is_greedy).
Proof.
  intros Hne Hfit Hlen.
  assert (Hm : 0 ≤ max_length self) by (unfold len in Hfit; lia).
  pose proof (scoring_ctxlen_positive self _ _ Hne Hfit) as Hpos.
  pose proof (scoring_ctxlen_plus_continuation self context_enc
                continuation_enc Hm) as Hsum.
  split; [done|].
  destruct (get_result_returns fzero fadd logprobs is_max_logprobs
              (scoring_ctxlen self context_enc continuation_enc))
    as (g & Hg & _); [unfold len; lia|].
  exists g. rewrite Hg, slice_from_nonneg by lia.
  do 3 f_equal. unfold lastn, len in *. f_equal. lia.
Qed.

Lemma scoring_sums_the_continuation_witness :
  ∃ is_greedy,
    get_result 0 Z.add [-2; -3; -4; -5] [true; true; true; true; true]
      (scoring_ctxlen (example_client 2048) [1; 2; 3] [4; 5])
    = Ok (-9, is_greedy).
Proof.
  assert (Hne : [1; 2; 3] ≠ ([] : list token)) by discriminate.
  assert (Hfit : len [4; 5] ≤ max_length (example_client 2048))
    by (vm_compute; discriminate).
  assert (Hlen : len [-2; -3; -4; -5]
                 = len (scoring_inp (example_client 2048) [1; 2; 3] [4; 5]) - 1)
    by reflexivity.
  exact (proj2 (scoring_sums_the_continuation 0 Z.add (example_client 2048)
                  [1; 2; 3] [4; 5] [-2; -3; -4; -5]
                  [true; true; true; true; true] Hne Hfit Hlen)).
Defined.

(** ** The remote call and its retry loop *)

(** X5: [megatron_query] sends exactly one request, and it returns a
    response exactly when the reply has status 200 and a payload that is a
    mapping; the status is checked first, so any other status raises
    whatever the body holds. *)
Theorem megatron_query_returns_iff {char F : Type}
    (api : nat → @completion_data char → @http_reply char F)
    (self : @MegatronServerLM char) (a : @query_args char)
    (w : @world char F) :
  (megatron_query api self a w).2
  = {| trace := trace w ++ [EvApi (query_data self a)];
       api_calls := S (api_calls w) |}
  ∧ (∀ r, (megatron_query api self a w).1 = Some (Ok r)
          ↔ api (api_calls w) (query_data self a)
            = HttpResponse 200 (BodyJson (JsonMapping r)))
  ∧ (∀ status_code body,
       status_code ≠ 200 →
       api (api_calls w) (query_data self a) = HttpResponse status_code body →
       (megatron_query api self a w).1 = Some (Raise Exception)).
Proof.
  rewrite megatron_query_run. cbn [fst snd]. split; [done|]. split.
  - intros r. split.
    + intros [= Hc].
      destruct (api (api_calls w) (query_data self a))
        as [|status_code body]; [done|].
      cbn in Hc. destruct (Z.eqb_spec status_code 200) as [->|Hne];
        [|done].
      cbn in Hc. destruct body as [|[r'|]]; congruence.
    + by intros ->.
  - intros status_code body Hne ->. cbn.
    by destruct (Z.eqb_spec status_code 200).
Qed.

(** X6: the wrapper does not retry for ever.  Against an endpoint whose
    first 55 replies are failures it hands OverflowError to its caller: the
    back-off time has then grown past what [time.sleep] accepts, and the
    sleep is outside the [try].  By then it has sent the same request 55
    times and slept 54 times.  Whatever the endpoint replies, the call has
    ended once 55 attempts are followed. *)
Theorem megatron_completion_gives_up {char F : Type}
    (api : nat → @completion_data char → @http_reply char F)
    (self : @MegatronServerLM char) (a : @query_args char)
    (w : @world char F) (fuel : nat) :
  (∀ k : nat, (k < 55)%nat →
     ∃ e, check_reply (api (api_calls w + k)%nat (query_data self a))
          = Raise e) →
  (55 ≤ fuel)%nat →
  ∃ evs,
    Float64.megatron_completion api fuel self a w
    = (Some (Raise OverflowError),
       {| trace := trace w ++ evs; api_calls := (api_calls w + 55)%nat |})
    ∧ api_requests evs = replicate 55 (query_data self a)
    ∧ sleeps evs = map float_backoff (seq 0 54)
    ∧ ∀ (api' : nat → @completion_data char → @http_reply char F) w0,
        (Float64.megatron_completion api' fuel self a w0).1 ≠ None.
Proof.
  intros Hfail Hfuel.
  exists (float_failed_trace (query_data self a) 3%Q 54
          ++ [EvApi (query_data self a)]).
  split; [by apply float64_gives_up|].
  unfold api_requests, sleeps. rewrite !omap_app.
  fold (api_requests (F:=F) (float_failed_trace (query_data self a) 3%Q 54)).
  fold (sleeps (char:=char) (F:=F)
          (float_failed_trace (query_data self a) 3%Q 54)).
  rewrite api_requests_float_failed_trace, sleeps_float_failed_trace.
  cbn [omap list_omap]. rewrite app_nil_r.
  split; [done|]. split; [done|].
  intros api' w0. apply (float64_loop_ends api' fuel 0); lia.
Qed.

Lemma megatron_completion_gives_up_witness :
  (Float64.megatron_completion (λ _ _, ConnectionFailed) 60
     (example_client 2048) example_args empty_world).1
  = Some (Raise OverflowError).
Proof.
  assert (Hfail : ∀ k : nat, (k < 55)%nat →
            ∃ e, check_reply
                   ((λ _ _, ConnectionFailed : @http_reply ascii Z)
                      (api_calls empty_world + k)%nat
                      (query_data (example_client 2048) example_args))
                 = Raise e) by (intros; by eexists).
  destruct (megatron_completion_gives_up (λ _ _, ConnectionFailed)
              (example_client 2048) example_args empty_world 60 Hfail
              ltac:(lia))
    as (evs & Hrun & _).
  rewrite Hrun. reflexivity.
Defined.

Section BackoffSum.

Lemma total_app (l1 l2 : list Q) : (total (l1 ++ l2) == total l1 + total l2)%Q.
Proof.
  induction l1 as [|x l1 IH].
  - change (total l2 == 0 + total l2)%Q. ring.
  - change (x + total (l1 ++ l2) == x + total l1 + total l2)%Q.
    eapply Qeq_trans; [apply Qplus_comp; [reflexivity|exact IH]|]. ring.
Qed.

Lemma total_backoff (n : nat) :
  (total (map backoff_after (seq 0 n)) == 6 * (1.5 ^ Z.of_nat n - 1))%Q.
Proof.
  induction n as [|n IH]; [reflexivity|].
  rewrite seq_S, map_app. cbn [map].
  eapply Qeq_trans; [apply total_app|].
  eapply Qeq_trans;
    [apply Qplus_comp; [exact IH|]|].
  { unfold total. cbn [foldr Nat.add].
    eapply Qeq_trans; [apply Qplus_0_r|apply backoff_after_geometric]. }
  rewrite Nat2Z.inj_succ, <- Z.add_1_r.
  assert (Hpow : (1.5 ^ (Z.of_nat n + 1) == 1.5 ^ Z.of_nat n * 1.5)%Q)
    by (apply Qpower_plus; discriminate).
  eapply Qeq_trans;
    [|apply Qmult_comp;
       [reflexivity
       |apply Qplus_comp; [symmetry; exact Hpow|reflexivity]]].
  assert (H15 : (1.5 == 3 # 2)%Q) by reflexivity.
  set (p := (1.5 ^ Z.of_nat n)%Q).
  eapply Qeq_trans;
    [|apply Qmult_comp;
       [reflexivity
       |apply Qplus_comp;
          [apply Qmult_comp; [reflexivity|symmetry; exact H15]
          |reflexivity]]].
  ring.
Qed.

Lemma total_map_Qeq {A} (f g : A → Q) (l : list A) :
  (∀ x, x ∈ l → (f x == g x)%Q) → (total (map f l) == total (map g l))%Q.
Proof.
  induction l as [|x l IH]; intros Heq; [reflexivity|].
  change (f x + total (map f l) == g x + total (map g l))%Q.
  apply Qplus_comp; [apply Heq; left|].
  apply IH. intros y Hy. apply Heq. by right.
Qed.
End BackoffSum.

(** X7: when the call fails [N <= 54] times and then succeeds, each sleep
    is longer than the one before; for [N <= 33], while the back-off times
    are exact, the time slept in total is [6 * (1.5^N - 1)] seconds. *)
Theorem megatron_completion_total_sleep {char F : Type}
    (api : nat → @completion_data char → @http_reply char F)
    (self : @MegatronServerLM char) (a : @query_args char)
    (w : @world char F) (N : nat) (r : @response_json char F) (fuel : nat) :
  (∀ k : nat, (k < N)%nat →
     ∃ e, check_reply (api (api_calls w + k)%nat (query_data self a))
          = Raise e) →
  check_reply (api (api_calls w + N)%nat (query_data self a)) = Ok r →
  (N < fuel)%nat →
  (N ≤ 54)%nat →
  ∃ evs,
    trace (Float64.megatron_completion api fuel self a w).2 = trace w ++ evs
    ∧ ((N ≤ 33)%nat → (total (sleeps evs) == 6 * (1.5 ^ Z.of_nat N - 1))%Q)
    ∧ ∀ (k : nat) (t t' : Q),
        sleeps evs !! k = Some t → sleeps evs !! S k = Some t' → (t < t')%Q.
Proof.
  intros Hfail Hok Hfuel HN.
  exists (float_failed_trace (query_data self a) 3%Q N
          ++ [EvApi (query_data self a)]).
  rewrite (float64_fails_then_succeeds api N fuel self a w r Hfail Hok Hfuel HN).
  split; [done|].
  unfold sleeps. rewrite omap_app.
  fold (sleeps (char:=char) (F:=F)
          (float_failed_trace (query_data self a) 3%Q N)).
  rewrite sleeps_float_failed_trace. cbn [omap list_omap]. rewrite app_nil_r.
  split.
  - intros HN33.
    eapply Qeq_trans; [|apply total_backoff].
    apply total_map_Qeq. intros k Hk%elem_of_seq.
    apply float_backoff_exact. lia.
  - intros k t t' Hk Hk'.
    rewrite list_lookup_fmap in Hk, Hk'.
    destruct (seq 0 N !! k) as [i|] eqn:Hi; [|done].
    destruct (seq 0 N !! S k) as [i'|] eqn:Hi'; [|done].
    apply lookup_seq in Hi as [-> _]. apply lookup_seq in Hi' as [-> Hlt].
    cbn in Hk, Hk'. injection Hk as <-. injection Hk' as <-.
    apply float_backoff_increases. lia.
Qed.

Lemma megatron_completion_total_sleep_witness :
  ∃ evs,
    trace (Float64.megatron_completion
             (flaky_api [ConnectionFailed; HttpResponse 503 BodyNotJson]
                example_response)
             5 (example_client 2048) example_args empty_world).2
    = evs
    ∧ (total (sleeps evs) == 6 * (1.5 ^ 2 - 1))%Q.
Proof.
  assert (Hfail : ∀ k : nat, (k < 2)%nat →
            ∃ e, check_reply
                   (flaky_api [ConnectionFailed; HttpResponse 503 BodyNotJson]
                      example_response (api_calls empty_world + k)%nat
                      (query_data (example_client 2048) example_args))
                 = Raise e).
  { intros [|[|k]] Hk; [by eexists..|lia]. }
  destruct (megatron_completion_total_sleep
              (flaky_api [ConnectionFailed; HttpResponse 503 BodyNotJson]
                 example_response)
              (example_client 2048) example_args empty_world 2
              example_response 5 Hfail eq_refl ltac:(lia) ltac:(lia))
    as (evs & Htr & Htot & _).
  exists evs. split; [exact Htr|apply Htot; lia].
Defined.

(** ** What the client sends, whatever the server does *)

Section Emits.
Context {char F : Type}.
Implicit Types (P : @event char F → Prop) (w : @world char F).

Lemma emits_ret {A} P (a : A) : emits P (mret a : @M char F A).
Proof. intros w. exists []. cbn. by rewrite app_nil_r. Qed.

Lemma emits_lift {A} P (r : result A) : emits P (lift r : @M char F A).
Proof. intros w. exists []. cbn. by rewrite app_nil_r. Qed.

Lemma emits_emit P (ev : @event char F) : P ev → emits P (emit ev).
Proof. intros Hev w. exists [ev]. cbn. split; [done|by constructor]. Qed.

Lemma emits_bind {A B} P (m : @M char F A) (k : A → @M char F B) :
  emits P m → (∀ a, emits P (k a)) → emits P (m ≫= k).
Proof.
  intros Hm Hk w. destruct (Hm w) as (evs1 & Htr1 & Hall1).
  unfold mbind, M_mbind, M_bind.
  destruct (m w) as [[[a|e]|] w1]; cbn [snd] in *; [|by exists evs1..].
  destruct (Hk a w1) as (evs2 & Htr2 & Hall2).
  exists (evs1 ++ evs2). rewrite Htr2, Htr1, <- app_assoc.
  split; [done|]. by apply Forall_app.
Qed.

Lemma emits_for_chunks {X B} P (body : X → @M char F (list B))
    (groups : list X) :
  Forall (λ g, emits P (body g)) groups → emits P (for_chunks body groups).
Proof.
  induction 1 as [|g groups Hg _ IH]; cbn [for_chunks].
  - apply emits_ret.
  - apply emits_bind; [done|]. intros res.
    apply emits_bind; [done|]. intros res'. apply emits_ret.
Qed.

Lemma emits_megatron_completion_loop P
    (api : nat → @completion_data char → @http_reply char F)
    (fuel : nat) (self : @MegatronServerLM char) (a : @query_args char)
    (b : Q) :
  P (EvApi (query_data self a)) → (∀ t, P (EvSleep t)) →
  emits P (megatron_completion_loop api fuel self a b).
Proof.
  intros Hapi Hsleep. revert b.
  induction fuel as [|fuel IH]; intros b w.
  - exists []. cbn. by rewrite app_nil_r.
  - destruct (check_reply (api (api_calls w) (query_data self a)))
      as [r|e] eqn:Hc.
    + rewrite (megatron_completion_loop_success _ _ _ _ _ _ r Hc).
      exists [EvApi (query_data self a)]. split; [done|by constructor].
    + rewrite (megatron_completion_loop_retry _ _ _ _ _ _ e Hc).
      destruct (IH (b * 1.5)%Q
                  {| trace := trace w ++ [EvApi (query_data self a); EvSleep b];
                     api_calls := S (api_calls w) |})
        as (evs & Htr & Hall).
      exists ([EvApi (query_data self a); EvSleep b] ++ evs).
      rewrite Htr. cbn [trace]. rewrite <- app_assoc.
      split; [done|]. by repeat constructor.
Qed.

Lemma emits_score_items P (fzero : F) (fadd : F → F → F)
    (logprobs : list (list F)) (is_max_logprobs : list (list bool))
    (ctxlens : list Z) (chunk : list (@scoring_request char)) :
  (∀ key answer, P (EvCacheLoglikelihood key answer)) →
  emits P (score_items fzero fadd logprobs is_max_logprobs ctxlens chunk).
Proof.
  intros Hcache. revert is_max_logprobs ctxlens chunk.
  induction logprobs as [|lp logprobs IH];
    intros [|im is_max_logprobs] [|ctxlen ctxlens] [|[[key ctx] cont] chunk];
    cbn [score_items]; try apply emits_ret.
  apply emits_bind; [apply emits_lift|]. intros answer.
  apply emits_bind.
  { destruct key; [by apply emits_emit|apply emits_ret]. }
  intros _. apply emits_bind; [apply IH|]. intros res. apply emits_ret.
Qed.

Lemma emits_decode_items `{EqDecision char} P (texts : list (list char))
    (chunk : list (@generation_request char)) (until : list (list char)) :
  (∀ context until s, P (EvCacheGreedyUntil context until s)) →
  emits P (decode_items (F:=F) texts chunk until).
Proof.
  intros Hcache. revert chunk.
  induction texts as [|text texts IH]; intros [|[context args] chunk];
    cbn [decode_items]; try apply emits_ret.
  apply emits_bind; [apply emits_lift|]. intros s.
  apply emits_bind; [by apply emits_emit|]. intros _.
  apply emits_bind; [apply IH|]. intros res. apply emits_ret.
Qed.
End Emits.

Section SentRequests.
Context {char : Type} `{EqDecision char} (char_ltb : char → char → bool).
Context {F : Type} (fzero : F) (fadd : F → F → F).
Context (tokenizer : list char → list token).
Context (api : nat → @completion_data char → @http_reply char F).
Context (fuel : nat) (self : @MegatronServerLM char).

Lemma chunks_loop_nonempty {A} (n : Z) (xs arr : list A) :
  Forall (λ c, c ≠ []) (chunks_loop n xs arr).
Proof.
  revert arr. induction xs as [|x xs IH]; intros arr.
  - destruct arr; cbn; [done|]. by repeat constructor.
  - cbn [chunks_loop]. cbv zeta. case_match; [|apply IH].
    constructor; [by destruct arr|apply IH].
Qed.

Lemma emits_loglikelihood_chunk (chunk : list (@scoring_request char)) :
  0 ≤ max_length self → chunk ≠ [] →
  emits (scoring_event self)
        (loglikelihood_chunk fzero fadd api fuel self chunk).
Proof.
  intros Hm Hne. unfold loglikelihood_chunk.
  apply emits_bind.
  - apply emits_megatron_completion_loop; [|done].
    cbn. repeat split; try done.
    + by destruct chunk.
    + apply Forall_fmap, Forall_true. intros x. cbn.
      rewrite len_scoring_inp by done. lia.
  - intros response. apply emits_bind; [apply emits_lift|]. intros lps.
    apply emits_bind; [apply emits_lift|]. intros ims.
    by apply emits_score_items.
Qed.

Lemma emits_greedy_until_chunk
    (group : list (@generation_request char) * @request_args char) :
  256 < max_length self →
  emits (generation_event self)
        (greedy_until_chunk tokenizer api fuel self group).
Proof.
  intros Hm. unfold greedy_until_chunk.
  apply emits_bind; [apply emits_lift|]. intros stop.
  apply emits_bind.
  - apply emits_megatron_completion_loop; [|done].
    cbn. repeat split; try done.
    apply Forall_fmap, Forall_true. intros x. cbn.
    unfold generation_inp, max_gen_toks.
    rewrite slice_from_neg by lia. unfold len.
    rewrite lastn_length. lia.
  - intros response. apply emits_bind; [apply emits_lift|]. intros texts.
    by apply emits_decode_items.
Qed.
End SentRequests.

(** X8: whatever the completion endpoint replies, and however many attempts
    are followed, every request [_loglikelihood_tokens] sends asks for no
    generated tokens, with log-probabilities, greedy decoding ([top_k = 1],
    no temperature) and the end-of-document stop token, and carries at
    least one prompt and no prompt longer than [max_length + 1] tokens. *)
Theorem scoring_requests_well_formed {char F : Type} (fzero : F)
    (fadd : F → F → F)
    (api : nat → @completion_data char → @http_reply char F)
    (fuel : nat) (self : @MegatronServerLM char)
    (requests : list (@scoring_request char)) (w : @world char F) :
  0 ≤ max_length self →
  ∃ evs,
    trace (_loglikelihood_tokens fzero fadd api fuel self requests w).2
    = trace w ++ evs
    ∧ Forall (scoring_event self) evs.
Proof.
  intros Hm. unfold _loglikelihood_tokens.
  apply emits_bind; [|intros res; apply emits_ret].
  apply emits_for_chunks.
  eapply Forall_impl; [apply chunks_loop_nonempty|].
  intros chunk Hne. by apply emits_loglikelihood_chunk.
Qed.

Lemma scoring_requests_well_formed_witness :
  ∃ evs,
    trace (_loglikelihood_tokens 0 Z.add busy_api 1 (example_client 2048)
             example_scoring_requests empty_world).2
    = evs
    ∧ Forall (scoring_event (example_client 2048)) evs.
Proof.
  apply (scoring_requests_well_formed 0 Z.add busy_api 1
           (example_client 2048) example_scoring_requests empty_world).
  vm_compute. discriminate.
Defined.

(** X9: whatever the completion endpoint replies, every request
    [greedy_until] sends asks for 256 generated tokens, without
    log-probabilities, with greedy decoding, and carries no prompt longer
    than [max_length - 256] tokens (for a client whose [max_length] exceeds
    256). *)
Theorem generation_requests_well_formed {char : Type} `{EqDecision char}
    (char_ltb : char → char → bool) {F : Type}
    (tokenizer : list char → list token)
    (api : nat → @completion_data char → @http_reply char F)
    (fuel : nat) (self : @MegatronServerLM char)
    (requests : list (@generation_request char)) (w : @world char F) :
  256 < max_length self →
  ∃ evs,
    trace (greedy_until char_ltb tokenizer api fuel self requests w).2
    = trace w ++ evs
    ∧ Forall (generation_event self) evs.
Proof.
  intros Hm. unfold greedy_until.
  destruct requests as [|x0 requests0]; [apply emits_ret|].
  apply emits_bind; [apply emits_lift|]. intros groups.
  apply emits_bind; [|intros res; apply emits_ret].
  apply emits_for_chunks. apply Forall_true.
  intros group. by apply emits_greedy_until_chunk.
Qed.

Lemma generation_requests_well_formed_witness :
  ∃ evs,
    trace (greedy_until Ascii.ltb char_tokenizer busy_api 1
             (example_client 2048)
             [example_request "abc" "."; example_request "d" "y"]
             empty_world).2
    = evs
    ∧ Forall (generation_event (example_client 2048)) evs.
Proof.
  apply (generation_requests_well_formed Ascii.ltb char_tokenizer busy_api 1
           (example_client 2048)
           [example_request "abc" "."; example_request "d" "y"] empty_world).
  vm_compute. reflexivity.
Defined.

(** ** Writes to the partial cache *)

Lemma concat_omap_each {A B} (f : A → option B) (groups : list (list A)) :
  concat (omap (M:=list) f <$> groups) = omap f (concat groups).
Proof.
  induction groups as [|g groups IH]; [done|].
  cbn. by rewrite omap_app, IH.
Qed.

Section ReturnsWith.
Context {char F X : Type} (f : @event char F → option X).
Implicit Types (w : @world char F) (c : list X).

Lemma returns_with_ret {A} (a : A) :
  returns_with f (mret a : @M char F A) a [].
Proof. intros w. exists w, []. cbn. by rewrite app_nil_r. Qed.

Lemma returns_with_lift {A} (a : A) :
  returns_with f (lift (Ok a) : @M char F A) a [].
Proof. intros w. exists w, []. cbn. by rewrite app_nil_r. Qed.

Lemma returns_with_emit (ev : @event char F) :
  returns_with f (emit ev) () (option_list (f ev)).
Proof.
  intros w. eexists _, [ev]. split; [done|]. cbn. split; [done|].
  by destruct (f ev).
Qed.

Lemma returns_with_bind {A B} (m : @M char F A) (k : A → @M char F B)
    (a : A) (b : B) c1 c2 :
  returns_with f m a c1 → returns_with f (k a) b c2 →
  returns_with f (m ≫= k) b (c1 ++ c2).
Proof.
  intros Hm Hk w. destruct (Hm w) as (w1 & evs1 & Hw1 & Htr1 & Hc1).
  destruct (Hk w1) as (w2 & evs2 & Hw2 & Htr2 & Hc2).
  exists w2, (evs1 ++ evs2). rewrite (M_bind_returns _ _ _ _ _ Hw1).
  split; [done|]. rewrite Htr2, Htr1, <- app_assoc. split; [done|].
  by rewrite omap_app, Hc1, Hc2.
Qed.

Lemma returns_with_for_chunks {G B} (body : G → @M char F (list B))
    (h : G → list B) (c : G → list X) (groups : list G) :
  Forall (λ g, returns_with f (body g) (h g) (c g)) groups →
  returns_with f (for_chunks body groups)
    (concat (h <$> groups)) (concat (c <$> groups)).
Proof.
  induction 1 as [|g groups Hg _ IH]; cbn [for_chunks fmap list_fmap concat].
  - apply returns_with_ret.
  - eapply returns_with_bind; [exact Hg|].
    rewrite <- (app_nil_r (concat (c <$> groups))).
    eapply returns_with_bind; [exact IH|]. apply returns_with_ret.
Qed.

Lemma omap_retry_trace (data : @completion_data char) (b : Q) (n : nat) :
  (∀ d, f (EvApi d) = None) → (∀ t, f (EvSleep t) = None) →
  omap f (retry_trace data b n) = [].
Proof.
  intros Hapi Hsleep. revert b.
  induction n as [|n IH]; intros b; cbn; rewrite ?Hapi, ?Hsleep; [done|].
  apply IH.
Qed.

(** Against an endpoint that responds, a call of the wrapper returns the
    answer and leaves only requests and sleeps in the trace. *)
Lemma returns_with_megatron_completion
    (api : nat → @completion_data char → @http_reply char F) (fuel : nat)
    (answer : @completion_data char → @response_json char F)
    (self : @MegatronServerLM char) (a : @query_args char) :
  responds api fuel answer →
  (∀ d, f (EvApi d) = None) → (∀ t, f (EvSleep t) = None) →
  returns_with f (megatron_completion api fuel self a)
    (answer (query_data self a)) [].
Proof.
  intros Hresp Hapi Hsleep w.
  destruct (Hresp (api_calls w) (query_data self a))
    as (k & Hk & Hfail & Hok).
  eexists _, (retry_trace (query_data self a) 3%Q k).
  split; [by apply (megatron_completion_loop_fails_then_succeeds api k)|].
  split; [done|]. by apply omap_retry_trace.
Qed.
End ReturnsWith.

Section ScoringCache.
Context {char F : Type} (fzero : F) (fadd : F → F → F).
Context (api : nat → @completion_data char → @http_reply char F).
Context (fuel : nat) (answer : @completion_data char → @response_json char F).
Context (lp : list token → list F) (im : list token → list bool).
Context (self : @MegatronServerLM char).
Context (ans : @scoring_request char → F * bool).
Implicit Types (chunk : list (@scoring_request char)).

Hypothesis api_responds : responds api fuel answer.
Hypothesis answer_logprobs :
  ∀ data, r_logprobs (answer data) = Some (lp <$> d_prompts data).
Hypothesis answer_is_max :
  ∀ data, r_is_max_logprobs (answer data) = Some (im <$> d_prompts data).

Lemma score_items_cache chunk :
  Forall (λ x, expected_score fzero fadd lp im self x = Ok (ans x)) chunk →
  returns_with loglikelihood_cache_write
    (score_items fzero fadd
       (lp <$> map (λ x, scoring_inp self x.1.2 x.2) chunk)
       (im <$> map (λ x, scoring_inp self x.1.2 x.2) chunk)
       (map (λ x, scoring_ctxlen self x.1.2 x.2) chunk) chunk)
    (ans <$> chunk) (omap (scoring_cache_entry ans) chunk).
Proof.
  induction 1 as [|[[cache_key ctx] cont] chunk Hx _ IH].
  - apply returns_with_ret.
  - replace (omap (scoring_cache_entry ans) ((cache_key, ctx, cont) :: chunk))
      with ([] ++ option_list (scoring_cache_entry ans (cache_key, ctx, cont))
            ++ omap (scoring_cache_entry ans) chunk ++ [])
      by (destruct cache_key; cbn; by rewrite app_nil_r).
    cbn [map fmap list_fmap score_items]. unfold expected_score in Hx.
    cbn [fst snd] in Hx |- *. rewrite Hx.
    eapply returns_with_bind; [apply returns_with_lift|].
    eapply returns_with_bind.
    { destruct cache_key as [key|];
        [apply (returns_with_emit loglikelihood_cache_write
                  (EvCacheLoglikelihood key (ans (Some key, ctx, cont))))
        |apply returns_with_ret]. }
    eapply returns_with_bind; [exact IH|]. apply returns_with_ret.
Qed.

Lemma loglikelihood_chunk_cache chunk :
  Forall (λ x, expected_score fzero fadd lp im self x = Ok (ans x)) chunk →
  returns_with loglikelihood_cache_write
    (loglikelihood_chunk fzero fadd api fuel self chunk)
    (ans <$> chunk) (omap (scoring_cache_entry ans) chunk).
Proof.
  intros Hall. unfold loglikelihood_chunk.
  change (omap (scoring_cache_entry ans) chunk)
    with ([] ++ [] ++ [] ++ omap (scoring_cache_entry ans) chunk).
  eapply returns_with_bind;
    [by apply (returns_with_megatron_completion _ api fuel answer)|].
  rewrite answer_logprobs, answer_is_max. cbn [getitem query_data d_prompts].
  eapply returns_with_bind; [apply returns_with_lift|].
  eapply returns_with_bind; [apply returns_with_lift|].
  by apply score_items_cache.
Qed.

Lemma _loglikelihood_tokens_cache (requests : list (@scoring_request char)) :
  Forall (λ x, expected_score fzero fadd lp im self x = Ok (ans x)) requests →
  returns_with loglikelihood_cache_write
    (_loglikelihood_tokens fzero fadd api fuel self requests)
    (Some ∘ ans <$> requests)
    (omap (scoring_cache_entry ans)
       (get_reordered (new_Reorderer loglikelihood_key_ltb requests
                         loglikelihood_collate))).
Proof.
  intros Hall. unfold _loglikelihood_tokens.
  set (re_ord := new_Reorderer loglikelihood_key_ltb requests
                   loglikelihood_collate).
  assert (Hall' : Forall (λ x, expected_score fzero fadd lp im self x
                               = Ok (ans x))
                    (concat (chunks (get_reordered re_ord) (batch_size self)))).
  { rewrite chunks_concat. unfold re_ord.
    by rewrite get_reordered_Permutation. }
  apply Forall_concat in Hall'.
  pose proof (returns_with_for_chunks loglikelihood_cache_write
                (loglikelihood_chunk fzero fadd api fuel self)
                (fmap ans) (omap (scoring_cache_entry ans))
                (chunks (get_reordered re_ord) (batch_size self))) as Hfor.
  rewrite <- (app_nil_r (omap (scoring_cache_entry ans) (get_reordered re_ord))).
  eapply returns_with_bind.
  - rewrite <- (chunks_concat (get_reordered re_ord) (batch_size self)) at 2.
    rewrite <- concat_omap_each.
    apply Hfor. eapply Forall_impl; [exact Hall'|].
    intros chunk Hc. by apply loglikelihood_chunk_cache.
  - rewrite concat_fmap_each, chunks_concat.
    unfold re_ord. rewrite get_original_get_reordered.
    apply returns_with_ret.
Qed.
End ScoringCache.

Section GenerationCache.
Context {char : Type} `{EqDecision char} (char_ltb : char → char → bool).
Context {F : Type} (tokenizer : list char → list token).
Context (api : nat → @completion_data char → @http_reply char F).
Context (fuel : nat) (answer : @completion_data char → @response_json char F).
Context (gen : token → list token → list char).
Context (self : @MegatronServerLM char).
Context (out : @generation_request char → list char).
Implicit Types (chunk : list (@generation_request char)).

Hypothesis api_responds : responds api fuel answer.
Hypothesis answer_text :
  ∀ data, r_text (answer data)
          = Some (gen (d_stop_token data) <$> d_prompts data).

Lemma decode_items_cache chunk (args : @request_args char) (t : token) :
  Forall (λ x, x.2 = args
               ∧ decode_generation
                   (gen t (generation_inp self (tok_encode tokenizer x.1)))
                   x.1 (until_list (until args)) = Ok (out x)) chunk →
  returns_with (greedy_until_cache_write (F:=F))
    (decode_items
       (gen t <$> map (λ x, generation_inp self (tok_encode tokenizer x.1))
                      chunk)
       chunk (until_list (until args)))
    (out <$> chunk) (generation_cache_entry out <$> chunk).
Proof.
  induction 1 as [|[context args'] chunk [Hargs Hx] _ IH].
  - apply returns_with_ret.
  - cbn [snd fst] in Hargs, Hx. subst args'.
    cbn [map fmap list_fmap decode_items]. cbn [fst]. rewrite Hx.
    eapply (returns_with_bind _ _ _ _ _ [] _); [apply returns_with_lift|].
    eapply (returns_with_bind _ _ _ _ _
              [generation_cache_entry out (context, args)] _).
    { apply (returns_with_emit (greedy_until_cache_write (F:=F))
               (EvCacheGreedyUntil context (until_list (until args))
                  (out (context, args)))). }
    rewrite <- (app_nil_r (generation_cache_entry out <$> chunk)).
    eapply returns_with_bind; [exact IH|]. apply returns_with_ret.
Qed.

Lemma greedy_until_chunk_cache chunk (args : @request_args char) :
  chunk ≠ [] →
  Forall (λ x, x.2 = args) chunk →
  Forall (λ x, expected_generation tokenizer gen self x = Ok (out x)) chunk →
  returns_with (greedy_until_cache_write (F:=F))
    (greedy_until_chunk tokenizer api fuel self (chunk, args))
    (out <$> chunk) (generation_cache_entry out <$> chunk).
Proof.
  intros Hne Hsame Hall. unfold greedy_until_chunk. cbn [fst snd].
  assert (∃ stop, primary_until tokenizer (until_list (until args)) = Ok stop)
    as [stop Hstop].
  { destruct chunk as [|x0 chunk]; [done|].
    apply Forall_cons in Hsame as [Hx0 _]. apply Forall_cons in Hall as [Hx _].
    unfold expected_generation in Hx. rewrite Hx0 in Hx.
    apply bind_Ok_inv in Hx as (stop & Hstop & _). by exists stop. }
  rewrite Hstop.
  change (generation_cache_entry out <$> chunk)
    with ([] ++ [] ++ [] ++ (generation_cache_entry out <$> chunk)).
  eapply returns_with_bind; [apply returns_with_lift|].
  eapply returns_with_bind;
    [by apply (returns_with_megatron_completion _ api fuel answer)|].
  rewrite answer_text.
  cbn [getitem query_data d_prompts d_stop_token qa_prompts qa_stop_token].
  eapply returns_with_bind; [apply returns_with_lift|].
  apply decode_items_cache.
  assert (Hboth : Forall (λ x, x.2 = args
                     ∧ expected_generation tokenizer gen self x = Ok (out x))
                    chunk) by (apply Forall_and; by split).
  eapply Forall_impl; [exact Hboth|].
  intros x [Hx2 Hx]. split; [done|]. unfold expected_generation in Hx.
  rewrite Hx2, Hstop, bind_Ok in Hx. exact Hx.
Qed.

Lemma greedy_until_cache (requests : list (@generation_request char)) :
  1 ≤ batch_size self →
  Forall (λ x, expected_generation tokenizer gen self x = Ok (out x))
         requests →
  returns_with (greedy_until_cache_write (F:=F))
    (greedy_until char_ltb tokenizer api fuel self requests)
    (Some ∘ out <$> requests)
    (generation_cache_entry out
       <$> get_reordered (new_Reorderer (greedy_until_key_ltb char_ltb)
                            requests (greedy_until_collate tokenizer))).
Proof.
  intros Hsize Hall. unfold greedy_until.
  destruct requests as [|x0 requests0] eqn:Hreq; [apply returns_with_ret|].
  rewrite <- Hreq in *.
  set (re_ord := new_Reorderer (greedy_until_key_ltb char_ltb) requests
                   (greedy_until_collate tokenizer)).
  assert (Hall' : Forall (λ x, expected_generation tokenizer gen self x
                               = Ok (out x)) (get_reordered re_ord))
    by (unfold re_ord; by rewrite get_reordered_Permutation).
  assert (Hback : get_original re_ord (out <$> get_reordered re_ord)
                  = Some ∘ out <$> requests)
    by apply get_original_get_reordered.
  destruct (get_reordered re_ord) as [|y ys] eqn:Hre.
  { apply (f_equal length) in Hre. unfold re_ord in Hre.
    rewrite length_get_reordered, Hreq in Hre. done. }
  rewrite (sameuntil_chunks_returns (C:=list char) (U:=request_args)
             (batch_size self) y ys).
  rewrite (sameuntil_loop_first (C:=list char) (U:=request_args)) by done.
  set (groups := sameuntil_loop (batch_size self) ys [y] y.2).
  assert (Hcat : concat groups.*1 = y :: ys)
    by apply (sameuntil_loop_concat (batch_size self) ys [y] y.2).
  assert (Hgroups : Forall (λ g, returns_with (greedy_until_cache_write (F:=F))
                                   (greedy_until_chunk tokenizer api fuel self g)
                                   (out <$> g.1)
                                   (generation_cache_entry out <$> g.1))
                      groups).
  { assert (Hne : Forall (λ g, g.1 ≠ []) groups)
      by (by apply sameuntil_loop_nonempty).
    assert (Hsame : Forall (λ g, Forall (λ x, x.2 = g.2) g.1) groups)
      by (apply sameuntil_loop_same; by constructor).
    assert (Hexp : Forall (λ x, expected_generation tokenizer gen self x
                                = Ok (out x)) (concat groups.*1))
      by (rewrite Hcat; exact Hall').
    apply Forall_concat in Hexp. rewrite Forall_fmap in Hexp.
    assert (Hthree : Forall (λ g, g.1 ≠ []
                       ∧ Forall (λ x, x.2 = g.2) g.1
                       ∧ Forall (λ x, expected_generation tokenizer gen self x
                                      = Ok (out x)) g.1) groups).
    { apply Forall_and. split; [done|]. apply Forall_and.
      split; [done|exact Hexp]. }
    eapply Forall_impl; [exact Hthree|].
    intros [chunk args] (Hg1 & Hg2 & Hg3).
    by apply greedy_until_chunk_cache. }
  apply returns_with_for_chunks in Hgroups.
  assert (Hres : concat ((λ g : list (@generation_request char)
                                   * @request_args char, out <$> g.1)
                           <$> groups) = out <$> (y :: ys)).
  { rewrite <- Hcat, <- concat_fmap_each, <- list_fmap_compose. done. }
  assert (Hwr : concat ((λ g : list (@generation_request char)
                                  * @request_args char,
                           generation_cache_entry out <$> g.1) <$> groups)
                = generation_cache_entry out <$> (y :: ys)).
  { rewrite <- Hcat, <- concat_fmap_each, <- list_fmap_compose. done. }
  rewrite Hres, Hwr in Hgroups.
  rewrite <- (app_nil_l (generation_cache_entry out <$> y :: ys)).
  eapply returns_with_bind; [apply returns_with_lift|].
  rewrite <- (app_nil_r (generation_cache_entry out <$> y :: ys)).
  eapply returns_with_bind; [exact Hgroups|].
  rewrite Hback. apply returns_with_ret.
Qed.
End GenerationCache.





(** ** [loglikelihood] *)

Section Loglikelihood.
Context {char : Type} (tokenizer : list char → list token).
Context (self : @MegatronServerLM char).

(** The three-way zip keeps one entry per request: the two encodings have
    one entry per request. *)
Lemma loglikelihood_new_reqs_map (requests : list (list char * list char)) :
  loglikelihood_new_reqs tokenizer self requests
  = scoring_request_of tokenizer self <$> requests.
Proof.
  unfold loglikelihood_new_reqs, tok_encode_batch, tokenizer_query.
  induction requests as [|[context continuation] requests IH]; [done|].
  cbn. f_equal. exact IH.
Qed.

Lemma scoring_request_of_context (request : list char * list char) :
  (scoring_request_of tokenizer self request).1.2 ≠ [].
Proof.
  unfold scoring_request_of. cbn [fst snd].
  destruct (len (tokenizer request.1) =? 0) eqn:E; [done|].
  apply Z.eqb_neq in E. intros Hnil. rewrite Hnil in E. done.
Qed.
End Loglikelihood.



(** ** More on decoding generated text *)

(** X13: decoding a generated text raises exactly when one of the stop
    sequences is the empty string, and then it raises ValueError (the
    empty separator of [split]); the position of the empty string in the
    list and the text do not matter. *)
Theorem decode_generation_raises_iff {char : Type} `{EqDecision char}
    (text context : list char) (until : list (list char)) :
  (decode_generation text context until = Raise ValueError ↔ [] ∈ until)
  ∧ ((∃ s, decode_generation text context until = Ok s)
     ↔ Forall (λ term, term ≠ []) until)
  ∧ ∀ e, decode_generation text context until = Raise e → e = ValueError.
Proof.
  unfold decode_generation. split; [|split].
  - split; [by intros [_ ?]%cut_stops_raises|apply cut_stops_empty_in].
  - split.
    + intros [s Hs]. apply Forall_forall. intros term Hin ->.
      by rewrite cut_stops_empty_in in Hs.
    + intros Hne. eexists. by apply cut_stops_foldl.
  - by intros e [? _]%cut_stops_raises.
Qed.

(** X14: the kept text is a fixed point of the cuts: cutting it again at
    the same stop sequences, in any order of the list, changes nothing. *)
Theorem decode_generation_is_stable {char : Type} `{EqDecision char}
    (text context : list char) (until until' : list (list char)) (s : list char) :
  decode_generation text context until = Ok s →
  until' ≡ₚ until →
  cut_stops s until' = Ok s.
Proof.
  intros Hs Hperm.
  assert (Hne : Forall (λ term, term ≠ []) until).
  { apply Forall_forall. intros term Hin ->. unfold decode_generation in Hs.
    by rewrite cut_stops_empty_in in Hs. }
  unfold decode_generation in Hs. rewrite cut_stops_foldl in Hs by done.
  injection Hs as <-.
  rewrite cut_stops_foldl by (by rewrite Hperm). f_equal.
  apply foldl_cut_id. intros term Hin. rewrite Hperm in Hin.
  by apply foldl_cut_absent.
Qed.

Lemma decode_generation_is_stable_witness :
  cut_stops (list_ascii_of_string "ab")
    [list_ascii_of_string "bc"; list_ascii_of_string "cd"]
  = Ok (list_ascii_of_string "ab").
Proof.
  apply (decode_generation_is_stable (list_ascii_of_string "xabcd")
           (list_ascii_of_string "x")
           [list_ascii_of_string "cd"; list_ascii_of_string "bc"]).
  - reflexivity.
  - apply Permutation_swap.
Defined.

(** ** More on [sameuntil_chunks] *)

Section SameUntilMore.
Context {C U : Type} `{EqDecision U}.
Implicit Types (xs ret : list (C * U)) (size : Z).

Lemma sameuntil_loop_no_room size xs (x : C * U) (lastuntil : U) :
  size ≤ 0 →
  sameuntil_loop size xs [x] lastuntil
  = ([x], lastuntil) :: ((λ y, ([y], y.2)) <$> xs).
Proof.
  intros Hsize. revert x lastuntil.
  induction xs as [|y ys IH]; intros x lastuntil; [done|].
  cbn [sameuntil_loop].
  destruct (size <=? len [x]) eqn:E;
    [|apply Z.leb_gt in E; unfold len in E; cbn in E; lia].
  cbn [orb]. by rewrite IH.
Qed.

Lemma boundaries_forced_lookup size (groups : list (list (C * U) * U))
    (i : nat) g1 g2 :
  boundaries_forced size groups →
  groups !! i = Some g1 → groups !! S i = Some g2 →
  size ≤ len g1.1 ∨ g1.2 ≠ g2.2.
Proof.
  revert i. induction groups as [|g groups IH]; intros i Hb H1 H2; [done|].
  destruct groups as [|g' groups]; [by destruct i|].
  destruct Hb as [Hhere Hb]. destruct i as [|i].
  - cbn in H1, H2. by simplify_eq.
  - by apply (IH i).
Qed.
End SameUntilMore.

(** X15: with a size limit below one, [sameuntil_chunks] first yields an
    empty group, carrying the attribute of the first item, and then one
    group per item. *)
Theorem sameuntil_chunks_no_room {C U : Type} `{EqDecision U}
    (x : C * U) (xs : list (C * U)) (size : Z) :
  size ≤ 0 →
  sameuntil_chunks (x :: xs) size
  = Ok (([], x.2) :: ((λ y, ([y], y.2)) <$> x :: xs)).
Proof.
  intros Hsize. rewrite sameuntil_chunks_returns. f_equal.
  cbn [sameuntil_loop].
  destruct (size <=? len []) eqn:E;
    [|apply Z.leb_gt in E; unfold len in E; cbn in E; lia].
  cbn [orb]. by rewrite sameuntil_loop_no_room.
Qed.

Lemma sameuntil_chunks_no_room_witness :
  sameuntil_chunks [(1, true); (2, true)] 0
  = Ok [([], true); ([(1, true)], true); ([(2, true)], true)].
Proof.
  apply (sameuntil_chunks_no_room (1, true) [(2, true)] 0). lia.
Defined.

(** X16: with a size limit of at least one, a group that is followed by a
    group of the same attribute is full: it holds exactly [size] items.  So
    a run of equal attributes is cut into full groups and one last group
    for the remainder. *)
Theorem sameuntil_chunks_full_groups {C U : Type} `{EqDecision U}
    (xs : list (C * U)) (size : Z) (groups : list (list (C * U) * U))
    (i : nat) (g1 g2 : list (C * U) * U) :
  1 ≤ size →
  sameuntil_chunks xs size = Ok groups →
  groups !! i = Some g1 → groups !! S i = Some g2 →
  g1.2 = g2.2 →
  len g1.1 = size.
Proof.
  intros Hsize Hrun H1 H2 Hattr.
  destruct xs as [|x xs]; [done|].
  rewrite sameuntil_chunks_returns in Hrun. injection Hrun as <-.
  pose proof (sameuntil_loop_boundaries size (x :: xs) [] x.2) as Hb.
  destruct (boundaries_forced_lookup size _ i g1 g2 Hb H1 H2) as [Hfull|Hne];
    [|done].
  pose proof (sameuntil_loop_size size (x :: xs) [] x.2
                ltac:(unfold len; cbn; lia)) as Hmax.
  rewrite Forall_lookup in Hmax. specialize (Hmax i g1 H1). cbn in Hmax. lia.
Qed.

Lemma sameuntil_chunks_full_groups_witness :
  len [(1, true); (2, true)] = 2.
Proof.
  apply (sameuntil_chunks_full_groups
           [(1, true); (2, true); (3, true); (4, false)] 2
           [([(1, true); (2, true)], true); ([(3, true)], true);
            ([(4, false)], false)]
           0 ([(1, true); (2, true)], true) ([(3, true)], true));
    [lia|reflexivity..].
Defined.

(** ** The order of dispatch *)

Section SortOrder.
Context {A K : Type} (lt : K → K → bool) (fn : A → K) (R : relation A).
Hypothesis lt_R : ∀ a b, lt (fn a) (fn b) = true → R a b.
Hypothesis not_lt_R : ∀ a b, lt (fn b) (fn a) = false → R a b.

Lemma insert_by_HdRel (y x : A) (l : list A) :
  R y x → HdRel R y l → HdRel R y (insert_by lt fn x l).
Proof.
  intros Hyx Hhd. destruct l as [|z l]; cbn; [by constructor|].
  destruct (lt (fn z) (fn x)); constructor; [|done].
  by inversion Hhd.
Qed.

Lemma insert_by_Sorted (x : A) (l : list A) :
  Sorted R l → Sorted R (insert_by lt fn x l).
Proof.
  induction 1 as [|y l Hsorted IH Hhd]; cbn; [by repeat constructor|].
  destruct (lt (fn y) (fn x)) eqn:Hlt.
  - constructor; [done|]. apply insert_by_HdRel; [by apply lt_R|done].
  - constructor; [by constructor|]. constructor. by apply not_lt_R.
Qed.

(** The stable sort leaves neighbours in the order of their keys. *)
Lemma sort_by_Sorted (l : list A) : Sorted R (sort_by lt fn l).
Proof.
  induction l as [|x l IH]; cbn; [constructor|]. by apply insert_by_Sorted.
Qed.
End SortOrder.

(** X17: with the Reorderer holding the requests sorted by their collation
    key, scoring requests are dispatched in order of non-increasing total
    token length (the key of [_loglikelihood_tokens] starts with
    [-len(toks)]), and generation requests in order of non-decreasing
    context token length. *)
Theorem dispatch_order {char : Type} `{EqDecision char}
    (char_ltb : char → char → bool) (tokenizer : list char → list token) :
  (∀ requests : list (@scoring_request char),
     StronglySorted (λ a b, len (b.1.2 ++ b.2) ≤ len (a.1.2 ++ a.2))
       (get_reordered (new_Reorderer loglikelihood_key_ltb requests
                         loglikelihood_collate)))
  ∧ (∀ requests : list (@generation_request char),
       StronglySorted (λ a b, len (tok_encode tokenizer a.1)
                              ≤ len (tok_encode tokenizer b.1))
         (get_reordered (new_Reorderer (greedy_until_key_ltb char_ltb)
                           requests (greedy_until_collate tokenizer)))).
Proof.
  split; intros requests; unfold get_reordered, new_Reorderer; cbn [arr].
  - apply Sorted_StronglySorted; [intros a b c Hab Hbc; lia|].
    apply (Sorted_fmap snd
             (λ p q : nat * @scoring_request char,
                len (q.2.1.2 ++ q.2.2) ≤ len (p.2.1.2 ++ p.2.2)));
      [done|].
    apply sort_by_Sorted; intros a b;
      unfold loglikelihood_key_ltb, pair_ltb, loglikelihood_collate;
      cbn [fst snd];
      destruct (Z.eqb_spec (- len (a.2.1.2 ++ a.2.2))
                  (- len (b.2.1.2 ++ b.2.2))) as [Heq|Hne];
      destruct (Z.eqb_spec (- len (b.2.1.2 ++ b.2.2))
                  (- len (a.2.1.2 ++ a.2.2))) as [Heq'|Hne'];
      try lia; rewrite ?Z.ltb_lt, ?Z.ltb_ge; lia.
  - apply Sorted_StronglySorted; [intros a b c Hab Hbc; lia|].
    apply (Sorted_fmap snd
             (λ p q : nat * @generation_request char,
                len (tok_encode tokenizer p.2.1)
                ≤ len (tok_encode tokenizer q.2.1)));
      [done|].
    apply sort_by_Sorted; intros a b;
      unfold greedy_until_key_ltb, pair_ltb, greedy_until_collate;
      cbn [fst snd];
      destruct (Z.eqb_spec (len (tok_encode tokenizer a.2.1))
                  (len (tok_encode tokenizer b.2.1))) as [Heq|Hne];
      destruct (Z.eqb_spec (len (tok_encode tokenizer b.2.1))
                  (len (tok_encode tokenizer a.2.1))) as [Heq'|Hne'];
      try lia; rewrite ?Z.ltb_lt, ?Z.ltb_ge; lia.
Qed.

(** ** A stop sequence of several tokens *)

Section BadStop.
Context {char : Type} `{EqDecision char} (char_ltb : char → char → bool).
Context {F : Type} (tokenizer : list char → list token).
Context (api : nat → @completion_data char → @http_reply char F).
Context (fuel : nat) (self : @MegatronServerLM char).
Implicit Types (w : @world char F).

Lemma primary_until_bad (args : @request_args char) :
  bad_first_stop tokenizer args →
  primary_until tokenizer (until_list (until args)) = Raise ValueError.
Proof.
  intros (until0 & rest & -> & Hlen). cbn [primary_until].
  by destruct (tok_encode tokenizer until0) as [|t [|t' toks]].
Qed.

Lemma greedy_until_chunk_bad_stop
    (chunk : list (@generation_request char)) (args : @request_args char) w :
  bad_first_stop tokenizer args →
  greedy_until_chunk tokenizer api fuel self (chunk, args) w
  = (Some (Raise ValueError), w).
Proof.
  intros Hbad. unfold greedy_until_chunk. cbn [fst snd].
  by rewrite primary_until_bad.
Qed.

Lemma greedy_until_bad_first_group
    (requests : list (@generation_request char)) w :
  requests ≠ [] →
  Forall (λ x, bad_first_stop tokenizer x.2) requests →
  greedy_until char_ltb tokenizer api fuel self requests w
  = (Some (Raise ValueError), w).
Proof.
  intros Hne Hall. unfold greedy_until.
  destruct requests as [|x0 requests0] eqn:Hreq; [done|].
  rewrite <- Hreq in *.
  set (re_ord := new_Reorderer (greedy_until_key_ltb char_ltb) requests
                   (greedy_until_collate tokenizer)).
  assert (Hall' : Forall (λ x, bad_first_stop tokenizer x.2) (get_reordered re_ord))
    by (unfold re_ord; by rewrite get_reordered_Permutation).
  destruct (get_reordered re_ord) as [|y ys] eqn:Hre.
  { apply (f_equal length) in Hre. unfold re_ord in Hre.
    rewrite length_get_reordered, Hreq in Hre. done. }
  rewrite (sameuntil_chunks_returns (C:=list char) (U:=request_args)
             (batch_size self) y ys), M_bind_lift_Ok.
  destruct (sameuntil_loop (batch_size self) (y :: ys) [] y.2)
    as [|[chunk args] groups] eqn:Hloop.
  { pose proof (sameuntil_loop_concat (batch_size self) (y :: ys) [] y.2)
      as Hcat. by rewrite Hloop in Hcat. }
  apply sameuntil_loop_head in Hloop as Hargs. cbn in Hargs. subst args.
  unfold generation_request in *. rewrite Hloop. cbn [for_chunks].
  unfold mbind, M_mbind, M_bind.
  rewrite greedy_until_chunk_bad_stop; [done|].
  by apply Forall_cons in Hall' as [? _].
Qed.
End BadStop.

(** X18: when the first stop sequence of every request encodes to a number
    of tokens other than one, [greedy_until] raises ValueError, the
    unpacking error, at its first group: nothing is sent to the completion
    endpoint, nothing is written to the cache, and no result is returned. *)
Theorem greedy_until_multi_token_stop {char : Type} `{EqDecision char}
    (char_ltb : char → char → bool) {F : Type}
    (tokenizer : list char → list token)
    (api : nat → @completion_data char → @http_reply char F)
    (fuel : nat) (self : @MegatronServerLM char)
    (requests : list (@generation_request char)) (w : @world char F) :
  requests ≠ [] →
  Forall (λ x, bad_first_stop tokenizer x.2) requests →
  greedy_until char_ltb tokenizer api fuel self requests w
  = (Some (Raise ValueError), w).
Proof. apply greedy_until_bad_first_group. Qed.

Lemma greedy_until_multi_token_stop_witness :
  greedy_until Ascii.ltb char_tokenizer busy_api 2 (example_client 2048)
    [example_request "abc" "\n\n"; example_request "d" "END"] empty_world
  = (Some (Raise ValueError), empty_world).
Proof.
  apply (greedy_until_multi_token_stop Ascii.ltb char_tokenizer busy_api 2
           (example_client 2048)
           [example_request "abc" "\n\n"; example_request "d" "END"]
           empty_world); [discriminate|].
  repeat constructor; eexists _, _; (split; [reflexivity|discriminate]).
Defined.

(** ** Batches of the generation path *)

Section GenerationBatches.
Context {char : Type} `{EqDecision char} (char_ltb : char → char → bool).
Context {F : Type} (tokenizer : list char → list token).
Context (api : nat → @completion_data char → @http_reply char F).
Context (fuel : nat) (self : @MegatronServerLM char).

Lemma emits_batch_greedy_until_chunk
    (group : list (@generation_request char) * @request_args char) :
  group.1 ≠ [] → len group.1 ≤ batch_size self →
  emits (batch_event self)
        (greedy_until_chunk tokenizer api fuel self group).
Proof.
  intros Hne Hsize. unfold greedy_until_chunk.
  apply emits_bind; [apply emits_lift|]. intros stop.
  apply emits_bind.
  - apply emits_megatron_completion_loop; [|done].
    cbn [batch_event query_data d_prompts qa_prompts].
    unfold len in *. rewrite length_map.
    destruct group as [[|x chunk] args]; [done|]. cbn [fst length] in *.
    split; [lia|exact Hsize].
  - intros response. apply emits_bind; [apply emits_lift|]. intros texts.
    by apply emits_decode_items.
Qed.

Lemma emits_batch_greedy_until
    (requests : list (@generation_request char)) :
  1 ≤ batch_size self →
  emits (batch_event self)
        (greedy_until char_ltb tokenizer api fuel self requests).
Proof.
  intros Hsize. unfold greedy_until.
  destruct requests as [|x0 requests0] eqn:Hreq; [apply emits_ret|].
  rewrite <- Hreq.
  set (re_ord := new_Reorderer (greedy_until_key_ltb char_ltb) requests
                   (greedy_until_collate tokenizer)).
  destruct (get_reordered re_ord) as [|y ys] eqn:Hre.
  { apply (f_equal length) in Hre. unfold re_ord in Hre.
    rewrite length_get_reordered, Hreq in Hre. done. }
  rewrite (sameuntil_chunks_returns (C:=list char) (U:=request_args)
             (batch_size self) y ys).
  intros w. rewrite M_bind_lift_Ok. revert w.
  apply emits_bind; [|intros res; apply emits_ret].
  apply emits_for_chunks.
  pose proof (sameuntil_loop_size (C:=list char) (U:=request_args)
                (batch_size self) (y :: ys) [] y.2) as Hlen.
  pose proof (sameuntil_loop_first (C:=list char) (U:=request_args)
                (batch_size self) y ys Hsize) as Hfirst.
  assert (Hy : [y] ≠ []) by done.
  pose proof (sameuntil_loop_nonempty (C:=list char) (U:=request_args)
                (batch_size self) ys [y] y.2 Hy) as Hne.
  unfold generation_request in *. rewrite <- Hfirst in Hne.
  eapply Forall_impl;
    [apply Forall_and; split; [apply Hlen|apply Hne]|].
  - unfold len. cbn [length]. lia.
  - intros g [Hg1 Hg2]. apply emits_batch_greedy_until_chunk; [done|].
    cbv beta in Hg1. rewrite Z.max_r in Hg1 by exact Hsize. exact Hg1.
Qed.
End GenerationBatches.

(** X19: with a batch size of at least one, every request [greedy_until]
    sends to the completion endpoint carries at least one prompt and at
    most [batch_size] prompts, whatever the endpoint replies. *)
Theorem generation_batches_bounded {char : Type} `{EqDecision char}
    (char_ltb : char → char → bool) {F : Type}
    (tokenizer : list char → list token)
    (api : nat → @completion_data char → @http_reply char F)
    (fuel : nat) (self : @MegatronServerLM char)
    (requests : list (@generation_request char)) (w : @world char F) :
  1 ≤ batch_size self →
  ∃ evs,
    trace (greedy_until char_ltb tokenizer api fuel self requests w).2
    = trace w ++ evs
    ∧ Forall (batch_event self) evs.
Proof. intros Hsize. by apply emits_batch_greedy_until. Qed.

Lemma generation_batches_bounded_witness :
  ∃ evs,
    trace (greedy_until Ascii.ltb char_tokenizer busy_api 1
             (example_client 2048)
             [example_request "abc" "."; example_request "d" "y"]
             empty_world).2
    = evs
    ∧ Forall (batch_event (example_client 2048)) evs.
Proof.
  apply (generation_batches_bounded Ascii.ltb char_tokenizer busy_api 1
           (example_client 2048)
           [example_request "abc" "."; example_request "d" "y"] empty_world).
  vm_compute. discriminate.
Defined.

(** ** Replies that lack a key *)

(** X20: a reply with status 200 whose mapping lacks the key [logprobs] or
    the key [is_max_logprobs] is accepted by the retrying wrapper, so the
    lookup that follows raises KeyError out of [_loglikelihood_tokens]'s
    loop body: one request has been sent, nothing is retried, no sleep is
    taken and nothing is written to the cache. *)
Theorem scoring_missing_key_not_retried {char F : Type} (fzero : F)
    (fadd : F → F → F)
    (api : nat → @completion_data char → @http_reply char F)
    (fuel : nat) (self : @MegatronServerLM char)
    (chunk : list (@scoring_request char)) (w : @world char F)
    (r : @response_json char F) :
  (0 < fuel)%nat →
  check_reply (api (api_calls w) (scoring_data self chunk)) = Ok r →
  r_logprobs r = None ∨ r_is_max_logprobs r = None →
  loglikelihood_chunk fzero fadd api fuel self chunk w
  = (Some (Raise KeyError), after_one_request (scoring_data self chunk) w).
Proof.
  intros Hfuel Hr Hkey. destruct fuel as [|fuel]; [lia|].
  unfold loglikelihood_chunk, megatron_completion.
  erewrite M_bind_returns;
    [|by apply megatron_completion_loop_success].
  destruct (r_logprobs r) as [logprobs|] eqn:Hlp; [|done].
  destruct Hkey as [?|Him]; [done|].
  unfold mbind, M_mbind, M_bind. cbn [getitem lift]. by rewrite Him.
Qed.

Lemma scoring_missing_key_not_retried_witness :
  loglikelihood_chunk 0 Z.add keyless_api 3 (example_client 2048)
    example_scoring_requests empty_world
  = (Some (Raise KeyError),
     after_one_request
       (scoring_data (example_client 2048) example_scoring_requests)
       empty_world).
Proof.
  apply (scoring_missing_key_not_retried 0 Z.add keyless_api 3
           (example_client 2048) example_scoring_requests empty_world
           {| r_logprobs := None; r_is_max_logprobs := None;
              r_text := None |});
    [lia|reflexivity|by left].
Defined.

(** X21: on the generation path, a reply with status 200 whose mapping
    lacks the key [text] raises KeyError out of the loop body after one
    request: nothing is retried and nothing is written to the cache. *)
Theorem generation_missing_key_not_retried {char : Type} `{EqDecision char}
    {F : Type} (tokenizer : list char → list token)
    (api : nat → @completion_data char → @http_reply char F)
    (fuel : nat) (self : @MegatronServerLM char)
    (chunk : list (@generation_request char)) (args : @request_args char)
    (w : @world char F) (stop : option token) (r : @response_json char F) :
  let data := generation_data tokenizer self chunk
                (match stop with Some t => t | None => eot_token_id self end)
  in
  (0 < fuel)%nat →
  primary_until tokenizer (until_list (until args)) = Ok stop →
  check_reply (api (api_calls w) data) = Ok r →
  r_text r = None →
  greedy_until_chunk tokenizer api fuel self (chunk, args) w
  = (Some (Raise KeyError), after_one_request data w).
Proof.
  intros data Hfuel Hstop Hr Htext. destruct fuel as [|fuel]; [lia|].
  unfold greedy_until_chunk, megatron_completion. cbn [fst snd].
  rewrite Hstop, M_bind_lift_Ok.
  erewrite M_bind_returns;
    [|by apply megatron_completion_loop_success].
  by rewrite Htext.
Qed.

Lemma generation_missing_key_not_retried_witness :
  greedy_until_chunk char_tokenizer keyless_api 3 (example_client 2048)
    ([example_request "abc" "."], stop_args ".") empty_world
  = (Some (Raise KeyError),
     after_one_request
       (generation_data char_tokenizer (example_client 2048)
          [example_request "abc" "."] 46)
       empty_world).
Proof.
  apply (generation_missing_key_not_retried char_tokenizer keyless_api 3
           (example_client 2048) [example_request "abc" "."] (stop_args ".")
           empty_world (Some 46)
           {| r_logprobs := None; r_is_max_logprobs := None;
              r_text := None |});
    [lia|reflexivity|reflexivity|reflexivity].
Defined.
